(** * Memory card game: the state engine of [script.js]

    A shallow embedding of class [MemoryGame]: the difficulty table, the
    deck builder with its Fisher-Yates shuffle, the flip / match engine with
    its delayed callbacks, the two interval timers, pause and resume, the
    score formula and the leaderboard with its localStorage blob.

    Conventions of the embedding.
    - A method of the class is a computation in the monad [M]: it receives
      the session, may throw a JavaScript exception, and returns the session
      as mutated up to that point.
    - Card objects live in a store ([heap]); [this.cards], [this.flippedCards]
      and the closures handed to [setTimeout] hold addresses into it.
    - [Date.now()] is the field [now] of the clock reading an event carries,
      [Math.random()] is a binary64 number of the half-open unit interval,
      and a draw is the floor of its binary64 product with the bound.
    - The Numbers of the session (scores, moves, timestamps) are integers;
      on the safe integers, below 2^53 in magnitude, this is the arithmetic
      of the Number type.
    - DOM rendering, CSS classes, modal windows and audio synthesis are left
      out; the three text nodes the engine reads back ([timer], [moves],
      [score]) and the calls of [playSound] are kept. *)

From Stdlib Require Import Ascii String QArith Qround Qminmax.
From stdpp Require Import gmap strings list fin_maps pretty sorting.

Local Open Scope string_scope.
Local Open Scope list_scope.
Local Open Scope nat_scope.

(** ** Difficulty catalogue *)

(** One entry of the table; the fields are read as [Config.pairs config]
    and so on, like [config.pairs] in the source. *)
Module Config.
Record t := {
  gridSize : nat;
  pairs : nat;
  timeLimit : Z;
  symbols : list string
}.
End Config.

Abbreviation DifficultyConfig := Config.t.

Definition easySymbols : list string :=
  ["🎯"; "🎲"; "🎪"; "🎨"; "🎭"; "🎮"; "🎵"; "🎸"].

Definition hardSymbols : list string :=
  ["🎯"; "🎲"; "🎪"; "🎨"; "🎭"; "🎮"; "🎵"; "🎸"; "🎺"; "🎻";
   "🥁"; "🎤"; "🎧"; "🎬"; "🎹"; "🎼"; "🎶"; "🐱"].

Definition easy : DifficultyConfig :=
  {| Config.gridSize := 4; Config.pairs := 8; Config.timeLimit := 300;
     Config.symbols := easySymbols |}.

Definition medium : DifficultyConfig :=
  {| Config.gridSize := 4; Config.pairs := 8; Config.timeLimit := 240;
     Config.symbols := easySymbols |}.

Definition hard : DifficultyConfig :=
  {| Config.gridSize := 6; Config.pairs := 18; Config.timeLimit := 300;
     Config.symbols := hardSymbols |}.

(** [this.difficultyConfigs]: the own properties of the object literal.
    A lookup [difficultyConfigs[name]] of a name that is no property is
    [undefined], here [None]. (Names of members inherited from
    [Object.prototype], such as [toString], are outside the model.) *)
Definition difficultyConfigs : gmap string DifficultyConfig :=
  <["easy" := easy]> (<["medium" := medium]> (<["hard" := hard]> ∅)).

(** ** Deck builder and shuffle *)

(** A symbol as stored in a card: [config.symbols[k]], which is [undefined]
    ([None]) when [k] is out of range. *)
Definition Symbol := option string.

(** [config.symbols[i % config.symbols.length]] *)
Definition symbolOfPair (syms : list string) (i : nat) : Symbol :=
  syms !! (i mod length syms).

(** The first loop of [shuffleCards]: [n] more rounds from index [i], each
    pushing the symbol of pair [i] twice. *)
Fixpoint pushPairs (syms : list string) (n i : nat) (cardPairs : list Symbol)
  : list Symbol :=
  match n with
  | 0 => cardPairs
  | S n' =>
      let s := symbolOfPair syms i in
      pushPairs syms n' (S i) ((cardPairs ++ [s]) ++ [s])
  end.

Definition cardPairsOf (config : DifficultyConfig) : list Symbol :=
  pushPairs (Config.symbols config) (Config.pairs config) 0 [].

(** A value of [Math.random()]: a binary64 number [x] with [0 <= x < 1].
    These are the numbers [m / 2^(53 + t)] with a significand [m < 2^53]
    and [t <= 1021] ([t = 0] from 1/2 on, [t = 1021] for the subnormal
    numbers). A record stands for the number with significand
    [rsig mod 2^53] and [t = rexp mod 1022]: every record is such a number
    and every such number has a record. *)
Record Random := { rsig : N; rexp : N }.

Definition significand (r : Random) : N := (rsig r mod 2 ^ 53)%N.
Definition scale (r : Random) : N := (53 + rexp r mod 1022)%N.

(** Binary64 rounding of a non-negative integer: to 53 significant bits,
    to the nearest one, a tie to the even significand. [excess m] is the
    number of bits [m] has beyond 53. *)
Definition excess (m : N) : N := (N.log2 m + 1 - 53)%N.

Definition round53 (m : N) : N :=
  let unit := (2 ^ excess m)%N in
  let q := (m / unit)%N in
  let rest := (m mod unit)%N in
  if (unit <? 2 * rest)%N || ((unit =? 2 * rest)%N && N.odd q)
  then ((q + 1) * unit)%N
  else (q * unit)%N.

(** [Math.floor(Math.random() * n)] for an integer [n] that is a Number
    (up to 2^53; an array length is below 2^32). The exact product is
    [M / 2^(53 + t)] with [M] the significand times [n]. It is a Number
    when [M < 2^53]; otherwise it is at least [2^-1021], among the normal
    numbers, and the multiplication rounds it to 53 significant bits. The
    floor of the non-negative result is the integer quotient. *)
Definition randomIndex (r : Random) (n : nat) : nat :=
  N.to_nat (round53 (significand r * N.of_nat n) / 2 ^ scale r).

(** [[a[i], a[j]] = [a[j], a[i]]]: the right-hand side is read first, then
    position [i] is written, then position [j]. In the loop both positions
    are inside the array ([j <= i < length]); outside of it, where
    JavaScript would extend the array, the list is left as it is. *)
Definition swap {A} (a : list A) (i j : nat) : list A :=
  match a !! j, a !! i with
  | Some aj, Some ai => <[j := ai]> (<[i := aj]> a)
  | _, _ => a
  end.

(** The Fisher-Yates loop [for (i = ...; i > 0; i--)]; [k] counts the calls
    of [Math.random] made so far in this shuffle. *)
Fixpoint fisherYates {A} (random : nat → Random) (k i : nat) (a : list A)
  : list A :=
  match i with
  | 0 => a
  | S i' =>
      let j := randomIndex (random k) (i + 1) in
      fisherYates random (S k) i' (swap a i j)
  end.

Definition shuffle {A} (random : nat → Random) (a : list A) : list A :=
  fisherYates random 0 (length a - 1) a.

(** ** Cards *)

Record Card := {
  id : nat;
  symbol : Symbol;
  isFlipped : bool;
  isMatched : bool
}.

Definition newCard (index : nat) (s : Symbol) : Card :=
  {| id := index; symbol := s; isFlipped := false; isMatched := false |}.

(** [cardPairs.map((symbol, index) => ({...}))] *)
Definition makeCards (cardPairs : list Symbol) : list Card :=
  imap newCard cardPairs.

(** ** Leaderboard entries *)

Record Entry := {
  score : Z;
  time : string;
  entryMoves : nat;
  difficulty : string;
  date : string
}.

(** ** The browser side: timers, sounds, texts *)

(** What [Date.now()] and [new Date().toLocaleDateString()] return while one
    event handler runs. *)
Record Clock := { now : Z; localeDate : string }.

(** The closures [checkForMatch] hands to [setTimeout]; each captures the
    two card objects of [this.flippedCards] by reference. *)
Inductive Callback :=
  | MatchReveal (card1 card2 : nat)
  | FlipBack (card1 card2 : nat).

Record Timeout := { setAt : Z; delay : Z; callback : Callback }.

(** The two closures handed to [setInterval]. *)
Inductive Interval := TimerTick | TimeLimitTick.

(** ** The session: the fields of [this] and the part of the browser the
    engine talks to *)

Record State := {
  (* fields of the MemoryGame object *)
  cards : list nat;
  flippedCards : list nat;
  matchedPairs : nat;
  moves : nat;
  startTime : option Z;
  timerInterval : option positive;
  gameActive : bool;
  gamePaused : bool;
  pauseStartTime : option Z;
  totalPauseTime : Z;
  currentDifficulty : string;
  timeLimit : option Z;
  timeLimitInterval : option positive;
  leaderboard : list Entry;
  (* the store of card objects *)
  heap : list Card;
  (* browser: live intervals, pending timeouts, next timer handle *)
  intervals : list (positive * Interval);
  timeouts : list Timeout;
  nextHandle : positive;
  (* localStorage item memoryGameLeaderboard *)
  storage : option string;
  (* text of the elements timer, moves and score *)
  timerText : string;
  movesText : nat;
  scoreText : Z;
  (* the names playSound was called with so far *)
  sounds : list string
}.

Definition set_cards v s :=
  Build_State v (flippedCards s) (matchedPairs s) (moves s) (startTime s)
    (timerInterval s) (gameActive s) (gamePaused s) (pauseStartTime s)
    (totalPauseTime s) (currentDifficulty s) (timeLimit s)
    (timeLimitInterval s) (leaderboard s) (heap s) (intervals s) (timeouts s)
    (nextHandle s) (storage s) (timerText s) (movesText s) (scoreText s)
    (sounds s).

Definition set_flippedCards v s :=
  Build_State (cards s) v (matchedPairs s) (moves s) (startTime s)
    (timerInterval s) (gameActive s) (gamePaused s) (pauseStartTime s)
    (totalPauseTime s) (currentDifficulty s) (timeLimit s)
    (timeLimitInterval s) (leaderboard s) (heap s) (intervals s) (timeouts s)
    (nextHandle s) (storage s) (timerText s) (movesText s) (scoreText s)
    (sounds s).

Definition set_matchedPairs v s :=
  Build_State (cards s) (flippedCards s) v (moves s) (startTime s)
    (timerInterval s) (gameActive s) (gamePaused s) (pauseStartTime s)
    (totalPauseTime s) (currentDifficulty s) (timeLimit s)
    (timeLimitInterval s) (leaderboard s) (heap s) (intervals s) (timeouts s)
    (nextHandle s) (storage s) (timerText s) (movesText s) (scoreText s)
    (sounds s).

Definition set_moves v s :=
  Build_State (cards s) (flippedCards s) (matchedPairs s) v (startTime s)
    (timerInterval s) (gameActive s) (gamePaused s) (pauseStartTime s)
    (totalPauseTime s) (currentDifficulty s) (timeLimit s)
    (timeLimitInterval s) (leaderboard s) (heap s) (intervals s) (timeouts s)
    (nextHandle s) (storage s) (timerText s) (movesText s) (scoreText s)
    (sounds s).

Definition set_startTime v s :=
  Build_State (cards s) (flippedCards s) (matchedPairs s) (moves s) v
    (timerInterval s) (gameActive s) (gamePaused s) (pauseStartTime s)
    (totalPauseTime s) (currentDifficulty s) (timeLimit s)
    (timeLimitInterval s) (leaderboard s) (heap s) (intervals s) (timeouts s)
    (nextHandle s) (storage s) (timerText s) (movesText s) (scoreText s)
    (sounds s).

Definition set_timerInterval v s :=
  Build_State (cards s) (flippedCards s) (matchedPairs s) (moves s)
    (startTime s) v (gameActive s) (gamePaused s) (pauseStartTime s)
    (totalPauseTime s) (currentDifficulty s) (timeLimit s)
    (timeLimitInterval s) (leaderboard s) (heap s) (intervals s) (timeouts s)
    (nextHandle s) (storage s) (timerText s) (movesText s) (scoreText s)
    (sounds s).

Definition set_gameActive v s :=
  Build_State (cards s) (flippedCards s) (matchedPairs s) (moves s)
    (startTime s) (timerInterval s) v (gamePaused s) (pauseStartTime s)
    (totalPauseTime s) (currentDifficulty s) (timeLimit s)
    (timeLimitInterval s) (leaderboard s) (heap s) (intervals s) (timeouts s)
    (nextHandle s) (storage s) (timerText s) (movesText s) (scoreText s)
    (sounds s).

Definition set_gamePaused v s :=
  Build_State (cards s) (flippedCards s) (matchedPairs s) (moves s)
    (startTime s) (timerInterval s) (gameActive s) v (pauseStartTime s)
    (totalPauseTime s) (currentDifficulty s) (timeLimit s)
    (timeLimitInterval s) (leaderboard s) (heap s) (intervals s) (timeouts s)
    (nextHandle s) (storage s) (timerText s) (movesText s) (scoreText s)
    (sounds s).

Definition set_pauseStartTime v s :=
  Build_State (cards s) (flippedCards s) (matchedPairs s) (moves s)
    (startTime s) (timerInterval s) (gameActive s) (gamePaused s) v
    (totalPauseTime s) (currentDifficulty s) (timeLimit s)
    (timeLimitInterval s) (leaderboard s) (heap s) (intervals s) (timeouts s)
    (nextHandle s) (storage s) (timerText s) (movesText s) (scoreText s)
    (sounds s).

Definition set_totalPauseTime v s :=
  Build_State (cards s) (flippedCards s) (matchedPairs s) (moves s)
    (startTime s) (timerInterval s) (gameActive s) (gamePaused s)
    (pauseStartTime s) v (currentDifficulty s) (timeLimit s)
    (timeLimitInterval s) (leaderboard s) (heap s) (intervals s) (timeouts s)
    (nextHandle s) (storage s) (timerText s) (movesText s) (scoreText s)
    (sounds s).

Definition set_currentDifficulty v s :=
  Build_State (cards s) (flippedCards s) (matchedPairs s) (moves s)
    (startTime s) (timerInterval s) (gameActive s) (gamePaused s)
    (pauseStartTime s) (totalPauseTime s) v (timeLimit s)
    (timeLimitInterval s) (leaderboard s) (heap s) (intervals s) (timeouts s)
    (nextHandle s) (storage s) (timerText s) (movesText s) (scoreText s)
    (sounds s).

Definition set_timeLimit v s :=
  Build_State (cards s) (flippedCards s) (matchedPairs s) (moves s)
    (startTime s) (timerInterval s) (gameActive s) (gamePaused s)
    (pauseStartTime s) (totalPauseTime s) (currentDifficulty s) v
    (timeLimitInterval s) (leaderboard s) (heap s) (intervals s) (timeouts s)
    (nextHandle s) (storage s) (timerText s) (movesText s) (scoreText s)
    (sounds s).

Definition set_timeLimitInterval v s :=
  Build_State (cards s) (flippedCards s) (matchedPairs s) (moves s)
    (startTime s) (timerInterval s) (gameActive s) (gamePaused s)
    (pauseStartTime s) (totalPauseTime s) (currentDifficulty s) (timeLimit s)
    v (leaderboard s) (heap s) (intervals s) (timeouts s) (nextHandle s)
    (storage s) (timerText s) (movesText s) (scoreText s) (sounds s).

Definition set_leaderboard v s :=
  Build_State (cards s) (flippedCards s) (matchedPairs s) (moves s)
    (startTime s) (timerInterval s) (gameActive s) (gamePaused s)
    (pauseStartTime s) (totalPauseTime s) (currentDifficulty s) (timeLimit s)
    (timeLimitInterval s) v (heap s) (intervals s) (timeouts s)
    (nextHandle s) (storage s) (timerText s) (movesText s) (scoreText s)
    (sounds s).

Definition set_heap v s :=
  Build_State (cards s) (flippedCards s) (matchedPairs s) (moves s)
    (startTime s) (timerInterval s) (gameActive s) (gamePaused s)
    (pauseStartTime s) (totalPauseTime s) (currentDifficulty s) (timeLimit s)
    (timeLimitInterval s) (leaderboard s) v (intervals s) (timeouts s)
    (nextHandle s) (storage s) (timerText s) (movesText s) (scoreText s)
    (sounds s).

Definition set_intervals v s :=
  Build_State (cards s) (flippedCards s) (matchedPairs s) (moves s)
    (startTime s) (timerInterval s) (gameActive s) (gamePaused s)
    (pauseStartTime s) (totalPauseTime s) (currentDifficulty s) (timeLimit s)
    (timeLimitInterval s) (leaderboard s) (heap s) v (timeouts s)
    (nextHandle s) (storage s) (timerText s) (movesText s) (scoreText s)
    (sounds s).

Definition set_timeouts v s :=
  Build_State (cards s) (flippedCards s) (matchedPairs s) (moves s)
    (startTime s) (timerInterval s) (gameActive s) (gamePaused s)
    (pauseStartTime s) (totalPauseTime s) (currentDifficulty s) (timeLimit s)
    (timeLimitInterval s) (leaderboard s) (heap s) (intervals s) v
    (nextHandle s) (storage s) (timerText s) (movesText s) (scoreText s)
    (sounds s).

Definition set_nextHandle v s :=
  Build_State (cards s) (flippedCards s) (matchedPairs s) (moves s)
    (startTime s) (timerInterval s) (gameActive s) (gamePaused s)
    (pauseStartTime s) (totalPauseTime s) (currentDifficulty s) (timeLimit s)
    (timeLimitInterval s) (leaderboard s) (heap s) (intervals s) (timeouts s)
    v (storage s) (timerText s) (movesText s) (scoreText s) (sounds s).

Definition set_storage v s :=
  Build_State (cards s) (flippedCards s) (matchedPairs s) (moves s)
    (startTime s) (timerInterval s) (gameActive s) (gamePaused s)
    (pauseStartTime s) (totalPauseTime s) (currentDifficulty s) (timeLimit s)
    (timeLimitInterval s) (leaderboard s) (heap s) (intervals s) (timeouts s)
    (nextHandle s) v (timerText s) (movesText s) (scoreText s) (sounds s).

Definition set_timerText v s :=
  Build_State (cards s) (flippedCards s) (matchedPairs s) (moves s)
    (startTime s) (timerInterval s) (gameActive s) (gamePaused s)
    (pauseStartTime s) (totalPauseTime s) (currentDifficulty s) (timeLimit s)
    (timeLimitInterval s) (leaderboard s) (heap s) (intervals s) (timeouts s)
    (nextHandle s) (storage s) v (movesText s) (scoreText s) (sounds s).

Definition set_movesText v s :=
  Build_State (cards s) (flippedCards s) (matchedPairs s) (moves s)
    (startTime s) (timerInterval s) (gameActive s) (gamePaused s)
    (pauseStartTime s) (totalPauseTime s) (currentDifficulty s) (timeLimit s)
    (timeLimitInterval s) (leaderboard s) (heap s) (intervals s) (timeouts s)
    (nextHandle s) (storage s) (timerText s) v (scoreText s) (sounds s).

Definition set_scoreText v s :=
  Build_State (cards s) (flippedCards s) (matchedPairs s) (moves s)
    (startTime s) (timerInterval s) (gameActive s) (gamePaused s)
    (pauseStartTime s) (totalPauseTime s) (currentDifficulty s) (timeLimit s)
    (timeLimitInterval s) (leaderboard s) (heap s) (intervals s) (timeouts s)
    (nextHandle s) (storage s) (timerText s) (movesText s) v (sounds s).

Definition set_sounds v s :=
  Build_State (cards s) (flippedCards s) (matchedPairs s) (moves s)
    (startTime s) (timerInterval s) (gameActive s) (gamePaused s)
    (pauseStartTime s) (totalPauseTime s) (currentDifficulty s) (timeLimit s)
    (timeLimitInterval s) (leaderboard s) (heap s) (intervals s) (timeouts s)
    (nextHandle s) (storage s) (timerText s) (movesText s) (scoreText s) v.

(** ** Computations of the engine *)

(** The exceptions that occur: reading a property of [undefined], and
    [JSON.parse] on text that is not JSON. *)
Inductive Exn := TypeError | SyntaxError.

Inductive Completion (A : Type) :=
  | Normal (a : A)
  | Throw (e : Exn).
Arguments Normal {A} a.
Arguments Throw {A} e.

(** A method body: it runs on the session, and when it throws, the writes
    made before the throw stay. *)
Definition M (A : Type) : Type := State → Completion A * State.

#[global] Instance M_ret : MRet M := λ A a s, (Normal a, s).

#[global] Instance M_bind : MBind M := λ A B f m s,
  match m s with
  | (Normal a, s') => f a s'
  | (Throw e, s') => (Throw e, s')
  end.

Definition get : M State := λ s, (Normal s, s).
Definition modify (f : State → State) : M unit := λ s, (Normal tt, f s).
Definition throw {A} (e : Exn) : M A := λ s, (Throw e, s).
Definition when (b : bool) (m : M unit) : M unit := if b then m else mret tt.

(** [null] read as a number is [0]. *)
Definition toNumber (v : option Z) : Z := default 0%Z v.

(** [const config = this.difficultyConfigs[this.currentDifficulty]] followed
    by the first read of a property of [config]. No method writes to the
    session between the lookup and that read, so the [TypeError] of an
    [undefined] config is raised here. (Where the source looks the
    configuration up and never reads it, in [createCardGrid] and in the
    no-match branch of [checkForMatch], the model has no lookup.) *)
Definition getConfig : M DifficultyConfig :=
  s ← get;
  match difficultyConfigs !! currentDifficulty s with
  | Some config => mret config
  | None => throw TypeError
  end.

(** Reading a card object through a reference. References come from
    [this.cards] and are always allocated; a dangling one is treated like a
    read through [undefined]. *)
Definition readCard (card : nat) : M Card :=
  s ← get;
  match heap s !! card with
  | Some c => mret c
  | None => throw TypeError
  end.

Definition setFlipped (b : bool) (c : Card) : Card :=
  {| id := id c; symbol := symbol c; isFlipped := b; isMatched := isMatched c |}.

Definition setMatched (b : bool) (c : Card) : Card :=
  {| id := id c; symbol := symbol c; isFlipped := isFlipped c; isMatched := b |}.

Definition writeCard (f : Card → Card) (card : nat) : M unit :=
  modify (λ s, set_heap (alter f card (heap s)) s).

Definition playSound (soundName : string) : M unit :=
  modify (λ s, set_sounds (sounds s ++ [soundName]) s).

(** *** Timers *)

Definition setInterval (f : Interval) : M positive :=
  s ← get;
  let h := nextHandle s in
  modify (λ s, set_nextHandle (Pos.succ h) (set_intervals (intervals s ++ [(h, f)]) s));;
  mret h.

Definition clearInterval (h : positive) : M unit :=
  modify (λ s, set_intervals (filter (λ e, e.1 ≠ h) (intervals s)) s).

Definition setTimeout (f : Callback) (ms : Z) (clock : Clock) : M unit :=
  modify (λ s, set_timeouts
    (timeouts s ++ [{| setAt := now clock; delay := ms; callback := f |}]) s).

Definition startTimer : M unit :=
  h ← setInterval TimerTick;
  modify (set_timerInterval (Some h)).

Definition startTimeLimit : M unit :=
  config ← getConfig;
  modify (set_timeLimit (Some (Config.timeLimit config)));;
  h ← setInterval TimeLimitTick;
  modify (set_timeLimitInterval (Some h)).

Definition stopTimer : M unit :=
  s ← get;
  match timerInterval s with
  | Some h => clearInterval h;; modify (set_timerInterval None)
  | None => mret tt
  end;;
  s ← get;
  match timeLimitInterval s with
  | Some h => clearInterval h;; modify (set_timeLimitInterval None)
  | None => mret tt
  end.

Definition startGame (clock : Clock) : M unit :=
  s ← get;
  when (negb (gameActive s))
    (modify (set_gameActive true);;
     modify (set_startTime (Some (now clock)));;
     startTimer;;
     startTimeLimit).

(** [n.toString().padStart(2, '0')] *)
Definition pad2 (n : Z) : string :=
  let t := pretty n in
  if decide (String.length t < 2) then "0" +:+ t else t.

(** The closure of [startTimer]. [Math.floor(elapsed / 60000)] is the floor
    quotient, [elapsed % 60000] the remainder with the sign of [elapsed]. *)
Definition timerTick (clock : Clock) : M unit :=
  s ← get;
  let elapsed := (now clock - toNumber (startTime s) - totalPauseTime s)%Z in
  let minutes := (elapsed `div` 60000)%Z in
  let seconds := ((elapsed `rem` 60000) `div` 1000)%Z in
  modify (set_timerText (pad2 minutes +:+ ":" +:+ pad2 seconds)).

Definition updateMovesDisplay : M unit :=
  s ← get; modify (set_movesText (moves s)).

(** *** Score *)

(** The value [updateScore] writes to the score element. Seconds are
    exact rationals: [timeElapsed] is a whole number of milliseconds divided
    by 1000, so the sum is a multiple of 1/1000 and its floor is not
    affected by the rounding of double arithmetic. *)
Definition scoreFormula (config : DifficultyConfig) (matched moved : nat)
    (start : option Z) (clock : Clock) : Z :=
  let timeElapsed := (inject_Z (now clock - toNumber start) / inject_Z 1000)%Q in
  let timeBonus := Qmax 0 (inject_Z (Config.timeLimit config) - timeElapsed)%Q in
  let moveBonus :=
    Qmax 0 (inject_Z (Z.of_nat (Config.pairs config) * 2 - Z.of_nat moved))%Q in
  Qfloor (inject_Z (Z.of_nat matched * 100) + timeBonus + moveBonus)%Q.

Definition updateScore (clock : Clock) : M unit :=
  config ← getConfig;
  s ← get;
  modify (set_scoreText
    (scoreFormula config (matchedPairs s) (moves s) (startTime s) clock)).

(** ** JSON text: [JSON.parse] and [JSON.stringify]

    The persisted blob is JSON text. Values are kept at the level of the
    syntax: a number or string literal keeps the characters it is written
    with (for a string, the characters between the quotes, escapes as
    written). Text is a sequence of bytes, UTF-8 for what is not ASCII. *)
Module JSON.

#[local] Unset Elimination Schemes.
Inductive t :=
  | Null
  | Bool (b : bool)
  | Number (literal : string)
  | Str (literal : string)
  | Array (elements : list t)
  | Object (members : list (string * t)).
#[local] Set Elimination Schemes.

Inductive Token :=
  | TLBrace | TRBrace | TLBracket | TRBracket | TColon | TComma
  | TString (literal : string)
  | TNumber (literal : string)
  | TTrue | TFalse | TNull.

Definition code (c : ascii) : nat := nat_of_ascii c.
Definition isDigit (c : ascii) : bool := (48 <=? code c) && (code c <=? 57).
Definition isHex (c : ascii) : bool :=
  isDigit c || ((65 <=? code c) && (code c <=? 70))
            || ((97 <=? code c) && (code c <=? 102)).
Definition isSpace (c : ascii) : bool :=
  (code c =? 32) || (code c =? 9) || (code c =? 10) || (code c =? 13).
Definition isControl (c : ascii) : bool := code c <? 32.
Definition isChar (c : ascii) (n : nat) : bool := code c =? n.

Definition text (acc : list ascii) : string := string_of_list_ascii (rev acc).

(** Where the lexer stands inside a number literal: an optional minus,
    then 0 or a non-zero digit with more digits, then an optional
    fraction (a dot and digits), then an optional exponent (e or E, an
    optional sign, digits). *)
Inductive NumPhase :=
  | NMinus | NZero | NInt | NDot | NFrac | NExpMark | NExpSign | NExp.

Definition numComplete (ph : NumPhase) : bool :=
  match ph with NZero | NInt | NFrac | NExp => true | _ => false end.

Definition isExpMark (c : ascii) : bool := isChar c 101 || isChar c 69.

(** [None]: the character does not continue the literal. *)
Definition numStep (ph : NumPhase) (c : ascii) : option NumPhase :=
  match ph with
  | NMinus => if isChar c 48 then Some NZero else if isDigit c then Some NInt else None
  | NZero => if isChar c 46 then Some NDot else if isExpMark c then Some NExpMark else None
  | NInt => if isDigit c then Some NInt else if isChar c 46 then Some NDot
            else if isExpMark c then Some NExpMark else None
  | NDot => if isDigit c then Some NFrac else None
  | NFrac => if isDigit c then Some NFrac else if isExpMark c then Some NExpMark else None
  | NExpMark => if isChar c 43 || isChar c 45 then Some NExpSign
                else if isDigit c then Some NExp else None
  | NExpSign => if isDigit c then Some NExp else None
  | NExp => if isDigit c then Some NExp else None
  end.

Inductive LexState :=
  | LIdle
  | LString (acc : list ascii)
  | LEscape (acc : list ascii)
  | LUnicode (missing : nat) (acc : list ascii)
  | LNumber (ph : NumPhase) (acc : list ascii)
  | LWord (rest : list ascii) (tok : Token).

(** One character seen between tokens: the next state and the tokens
    completed; [None] is a syntax error. *)
Definition lexIdle (c : ascii) : option (LexState * list Token) :=
  if isSpace c then Some (LIdle, [])
  else if isChar c 123 then Some (LIdle, [TLBrace])
  else if isChar c 125 then Some (LIdle, [TRBrace])
  else if isChar c 91 then Some (LIdle, [TLBracket])
  else if isChar c 93 then Some (LIdle, [TRBracket])
  else if isChar c 58 then Some (LIdle, [TColon])
  else if isChar c 44 then Some (LIdle, [TComma])
  else if isChar c 34 then Some (LString [], [])
  else if isChar c 45 then Some (LNumber NMinus [c], [])
  else if isChar c 48 then Some (LNumber NZero [c], [])
  else if isDigit c then Some (LNumber NInt [c], [])
  else if isChar c 116 then Some (LWord (list_ascii_of_string "rue") TTrue, [])
  else if isChar c 102 then Some (LWord (list_ascii_of_string "alse") TFalse, [])
  else if isChar c 110 then Some (LWord (list_ascii_of_string "ull") TNull, [])
  else None.

Definition lexStep (st : LexState) (c : ascii) : option (LexState * list Token) :=
  match st with
  | LIdle => lexIdle c
  | LString acc =>
      if isChar c 34 then Some (LIdle, [TString (text acc)])
      else if isChar c 92 then Some (LEscape (c :: acc), [])
      else if isControl c then None
      else Some (LString (c :: acc), [])
  | LEscape acc =>
      if isChar c 34 || isChar c 92 || isChar c 47 || isChar c 98 || isChar c 102 || isChar c 110
         || isChar c 114 || isChar c 116
      then Some (LString (c :: acc), [])
      else if isChar c 117 then Some (LUnicode 4 (c :: acc), [])
      else None
  | LUnicode missing acc =>
      if isHex c then
        match missing with
        | 0 | 1 => Some (LString (c :: acc), [])
        | S k => Some (LUnicode k (c :: acc), [])
        end
      else None
  | LNumber ph acc =>
      match numStep ph c with
      | Some ph' => Some (LNumber ph' (c :: acc), [])
      | None =>
          if numComplete ph then
            match lexIdle c with
            | Some (st', toks) => Some (st', TNumber (text acc) :: toks)
            | None => None
            end
          else None
      end
  | LWord rest tok =>
      match rest with
      | [e] => if decide (c = e) then Some (LIdle, [tok]) else None
      | e :: rest' => if decide (c = e) then Some (LWord rest' tok, []) else None
      | [] => None
      end
  end.

Definition lexEnd (st : LexState) : option (list Token) :=
  match st with
  | LIdle => Some []
  | LNumber ph acc => if numComplete ph then Some [TNumber (text acc)] else None
  | _ => None
  end.

Fixpoint lex (st : LexState) (input : list ascii) : option (list Token) :=
  match input with
  | [] => lexEnd st
  | c :: rest =>
      match lexStep st c with
      | Some (st', toks) =>
          match lex st' rest with
          | Some more => Some (toks ++ more)
          | None => None
          end
      | None => None
      end
  end.

(** The parser is a pushdown automaton over the tokens; a frame is an
    array or object under construction. *)
Inductive Frame :=
  | FArray (done : list t)
  | FObject (done : list (string * t)) (key : string).

Inductive PState :=
  | PValue (stack : list Frame)
  | PArrayOpen (stack : list Frame)
  | PArrayNext (done : list t) (stack : list Frame)
  | PObjectOpen (stack : list Frame)
  | PKey (done : list (string * t)) (stack : list Frame)
  | PColon (done : list (string * t)) (key : string) (stack : list Frame)
  | PObjectNext (done : list (string * t)) (stack : list Frame)
  | PDone (v : t).

(** A value is complete: hand it to the enclosing frame. *)
Definition reduce (v : t) (stack : list Frame) : PState :=
  match stack with
  | [] => PDone v
  | FArray done :: stack' => PArrayNext (done ++ [v]) stack'
  | FObject done key :: stack' => PObjectNext (done ++ [(key, v)]) stack'
  end.

Definition startValue (tok : Token) (stack : list Frame) : option PState :=
  match tok with
  | TLBracket => Some (PArrayOpen stack)
  | TLBrace => Some (PObjectOpen stack)
  | TString s => Some (reduce (Str s) stack)
  | TNumber n => Some (reduce (Number n) stack)
  | TTrue => Some (reduce (Bool true) stack)
  | TFalse => Some (reduce (Bool false) stack)
  | TNull => Some (reduce Null stack)
  | _ => None
  end.

Definition parseStep (st : PState) (tok : Token) : option PState :=
  match st, tok with
  | PValue stack, _ => startValue tok stack
  | PArrayOpen stack, TRBracket => Some (reduce (Array []) stack)
  | PArrayOpen stack, _ => startValue tok (FArray [] :: stack)
  | PArrayNext done stack, TComma => Some (PValue (FArray done :: stack))
  | PArrayNext done stack, TRBracket => Some (reduce (Array done) stack)
  | PObjectOpen stack, TRBrace => Some (reduce (Object []) stack)
  | PObjectOpen stack, TString k => Some (PColon [] k stack)
  | PKey done stack, TString k => Some (PColon done k stack)
  | PColon done k stack, TColon => Some (PValue (FObject done k :: stack))
  | PObjectNext done stack, TComma => Some (PKey done stack)
  | PObjectNext done stack, TRBrace => Some (reduce (Object done) stack)
  | _, _ => None
  end.

Fixpoint parseTokens (st : PState) (toks : list Token) : option t :=
  match toks with
  | [] => match st with PDone v => Some v | _ => None end
  | tok :: rest =>
      match parseStep st tok with
      | Some st' => parseTokens st' rest
      | None => None
      end
  end.

(** [JSON.parse(text)]: the value, or [None] for the SyntaxError. *)
Definition parse (s : string) : option t :=
  match lex LIdle (list_ascii_of_string s) with
  | Some toks => parseTokens (PValue []) toks
  | None => None
  end.

Definition quote : string := String (ascii_of_nat 34) EmptyString.

Definition hexDigit (n : nat) : ascii :=
  ascii_of_nat (if n <? 10 then 48 + n else 87 + n).

(** How [JSON.stringify] writes one character of a string. *)
Definition escapeChar (c : ascii) : string :=
  let bs := String (ascii_of_nat 92) EmptyString in
  if isChar c 34 then bs +:+ quote
  else if isChar c 92 then bs +:+ bs
  else if isChar c 8 then bs +:+ "b"
  else if isChar c 12 then bs +:+ "f"
  else if isChar c 10 then bs +:+ "n"
  else if isChar c 13 then bs +:+ "r"
  else if isChar c 9 then bs +:+ "t"
  else if isControl c
    then bs +:+ "u00" +:+ String (hexDigit (code c / 16))
                          (String (hexDigit (code c mod 16)) EmptyString)
  else String c EmptyString.

Fixpoint escape (s : string) : string :=
  match s with
  | EmptyString => EmptyString
  | String c s' => escapeChar c +:+ escape s'
  end.

Fixpoint join (sep : string) (l : list string) : string :=
  match l with
  | [] => ""
  | [x] => x
  | x :: l' => x +:+ sep +:+ join sep l'
  end.

(** [JSON.stringify(value)] *)
Fixpoint stringify (v : t) : string :=
  match v with
  | Null => "null"
  | Bool true => "true"
  | Bool false => "false"
  | Number n => n
  | Str s => quote +:+ s +:+ quote
  | Array l => "[" +:+ join "," (List.map stringify l) +:+ "]"
  | Object ms =>
      "{" +:+ join ","
        (List.map (λ kv, quote +:+ fst kv +:+ quote +:+ ":" +:+ stringify (snd kv)) ms)
      +:+ "}"
  end.

End JSON.

(** The object literal [saveToLeaderboard] builds, as JSON. A Number is
    written with its decimal digits, which is what [JSON.stringify] writes
    for a safe integer; a string is written with its escapes. *)
Definition entryToJSON (e : Entry) : JSON.t :=
  JSON.Object
    [("score", JSON.Number (pretty (score e)));
     ("time", JSON.Str (JSON.escape (time e)));
     ("moves", JSON.Number (pretty (entryMoves e)));
     ("difficulty", JSON.Str (JSON.escape (difficulty e)));
     ("date", JSON.Str (JSON.escape (date e)))].

Definition leaderboardToJSON (l : list Entry) : JSON.t :=
  JSON.Array (List.map entryToJSON l).

(** ** Leaderboard *)

(** [this.leaderboard.length < 5 || score > this.leaderboard[length - 1].score];
    the right operand is only evaluated on a list of five or more entries,
    which has a last entry. *)
Definition checkHighScore (l : list Entry) (finalScore : Z) : bool :=
  (length l <? 5) ||
  match last l with
  | Some lowest => bool_decide (score lowest < finalScore)%Z
  | None => false
  end.

(** [Array.prototype.sort] with the comparator [(a, b) => b.score - a.score]
    is a stable sort by descending score: an entry goes behind every entry
    that precedes it in the array and whose score is not lower. *)
Fixpoint insertByScore (x : Entry) (l : list Entry) : list Entry :=
  match l with
  | [] => [x]
  | y :: l' =>
      if bool_decide (score x ≤ score y)%Z then y :: insertByScore x l'
      else x :: y :: l'
  end.

Definition sortByScore (l : list Entry) : list Entry :=
  foldl (λ sorted x, insertByScore x sorted) [] l.

(** [localStorage.setItem('memoryGameLeaderboard', JSON.stringify(...))] *)
Definition saveLeaderboard : M unit :=
  s ← get;
  modify (set_storage (Some (JSON.stringify (leaderboardToJSON (leaderboard s))))).

Definition saveToLeaderboard (finalScore : Z) (finalTime : string)
    (finalMoves : nat) (clock : Clock) : M unit :=
  s ← get;
  let entry := {| score := finalScore; time := finalTime; entryMoves := finalMoves;
                  difficulty := currentDifficulty s; date := localeDate clock |} in
  modify (λ s, set_leaderboard (leaderboard s ++ [entry]) s);;
  modify (λ s, set_leaderboard (sortByScore (leaderboard s)) s);;
  modify (λ s, set_leaderboard (take 5 (leaderboard s)) s);;
  saveLeaderboard.

(** [localStorage.getItem(...)] is [null] ([None]) or a string; the empty
    string is falsy like [null]. *)
Definition loadLeaderboard (saved : option string) : Completion JSON.t :=
  match saved with
  | None => Normal (JSON.Array [])
  | Some "" => Normal (JSON.Array [])
  | Some text =>
      match JSON.parse text with
      | Some v => Normal v
      | None => Throw SyntaxError
      end
  end.

(** ** Values of JSON literals

    [JSON.parse] turns a string literal into the string it denotes and a
    number literal into a Number. Strings of the session are sequences of
    bytes (UTF-8), so an escaped UTF-16 unit above 127 becomes the bytes
    of its code point, a surrogate pair those of the code point it
    encodes; a lone surrogate denotes no such string ([None]). *)
Definition hexValue (c : ascii) : option N :=
  let n := N.of_nat (JSON.code c) in
  if (48 <=? n)%N && (n <=? 57)%N then Some (n - 48)%N
  else if (65 <=? n)%N && (n <=? 70)%N then Some (n - 55)%N
  else if (97 <=? n)%N && (n <=? 102)%N then Some (n - 87)%N
  else None.

(** The UTF-16 unit of [\uXXXX]. *)
Definition hex4 (a b c d : ascii) : option N :=
  match hexValue a, hexValue b, hexValue c, hexValue d with
  | Some w, Some x, Some y, Some z => Some (((w * 16 + x) * 16 + y) * 16 + z)%N
  | _, _, _, _ => None
  end.

(** The bytes of a code point. *)
Definition utf8 (cp : N) : list ascii :=
  if (cp <? 128)%N then [ascii_of_N cp]
  else if (cp <? 2048)%N then
    [ascii_of_N (192 + cp / 64); ascii_of_N (128 + cp mod 64)]
  else if (cp <? 65536)%N then
    [ascii_of_N (224 + cp / 4096); ascii_of_N (128 + (cp / 64) mod 64);
     ascii_of_N (128 + cp mod 64)]
  else
    [ascii_of_N (240 + cp / 262144); ascii_of_N (128 + (cp / 4096) mod 64);
     ascii_of_N (128 + (cp / 64) mod 64); ascii_of_N (128 + cp mod 64)].

(** The character a two-character escape stands for. *)
Definition simpleEscape (c : ascii) : option ascii :=
  if JSON.isChar c 34 || JSON.isChar c 92 || JSON.isChar c 47 then Some c
  else if JSON.isChar c 98 then Some (ascii_of_nat 8)
  else if JSON.isChar c 102 then Some (ascii_of_nat 12)
  else if JSON.isChar c 110 then Some (ascii_of_nat 10)
  else if JSON.isChar c 114 then Some (ascii_of_nat 13)
  else if JSON.isChar c 116 then Some (ascii_of_nat 9)
  else None.

Definition isHighSurrogate (unit : N) : bool := (55296 <=? unit)%N && (unit <=? 56319)%N.
Definition isLowSurrogate (unit : N) : bool := (56320 <=? unit)%N && (unit <=? 57343)%N.

Fixpoint unescape (literal : list ascii) : option (list ascii) :=
  match literal with
  | [] => Some []
  | c :: rest =>
      if JSON.isChar c 92 then
        match rest with
        | e :: rest1 =>
            if JSON.isChar e 117 then
              match rest1 with
              | h1 :: h2 :: h3 :: h4 :: rest2 =>
                  match hex4 h1 h2 h3 h4 with
                  | Some unit =>
                      if isHighSurrogate unit then
                        match rest2 with
                        | b :: u :: l1 :: l2 :: l3 :: l4 :: rest3 =>
                            if JSON.isChar b 92 && JSON.isChar u 117 then
                              match hex4 l1 l2 l3 l4 with
                              | Some low =>
                                  if isLowSurrogate low then
                                    match unescape rest3 with
                                    | Some s =>
                                        Some (utf8 (65536 + (unit - 55296) * 1024
                                                    + (low - 56320))%N ++ s)
                                    | None => None
                                    end
                                  else None
                              | None => None
                              end
                            else None
                        | _ => None
                        end
                      else if isLowSurrogate unit then None
                      else
                        match unescape rest2 with
                        | Some s => Some (utf8 unit ++ s)
                        | None => None
                        end
                  | None => None
                  end
              | _ => None
              end
            else
              match simpleEscape e, unescape rest1 with
              | Some x, Some s => Some (x :: s)
              | _, _ => None
              end
        | [] => None
        end
      else
        match unescape rest with
        | Some s => Some (c :: s)
        | None => None
        end
  end.

Definition decodeString (literal : string) : option string :=
  string_of_list_ascii <$> unescape (list_ascii_of_string literal).

(** The value of a run of decimal digits after the digits of [acc]. *)
Fixpoint digitsValue (acc : N) (digits : list ascii) : option N :=
  match digits with
  | [] => Some acc
  | c :: rest =>
      if JSON.isDigit c then digitsValue (acc * 10 + N.of_nat (JSON.code c - 48)) rest
      else None
  end.

(** The integers that are Numbers and on which Number arithmetic is
    integer arithmetic: those below 2^53 in magnitude. *)
Definition safeInteger (z : Z) : Prop := (- 2 ^ 53 < z < 2 ^ 53)%Z.

(** The Number a literal of digits denotes, when it is a safe integer.
    Literals with a fraction or an exponent, which this program never
    writes, and integers outside the safe range are not read ([None]). *)
Definition integerLiteral (literal : string) : option Z :=
  let value :=
    match list_ascii_of_string literal with
    | [] => None
    | c :: rest =>
        if JSON.isChar c 45 then (λ n, (- Z.of_N n)%Z) <$> digitsValue 0 rest
        else Z.of_N <$> digitsValue 0 (c :: rest)
    end in
  match value with
  | Some z => if bool_decide (safeInteger z) then Some z else None
  | None => None
  end.

(** An entry object as [saveToLeaderboard] builds it: the five members in
    the order of the object literal. *)
Definition decodeEntry (v : JSON.t) : option Entry :=
  match v with
  | JSON.Object [(k1, JSON.Number sc); (k2, JSON.Str tm); (k3, JSON.Number mv);
                 (k4, JSON.Str df); (k5, JSON.Str dt)] =>
      if bool_decide (k1 = "score" ∧ k2 = "time" ∧ k3 = "moves"
                      ∧ k4 = "difficulty" ∧ k5 = "date")
      then
        match integerLiteral sc, decodeString tm, integerLiteral mv,
              decodeString df, decodeString dt with
        | Some sc', Some tm', Some mv', Some df', Some dt' =>
            if bool_decide (0 ≤ mv')%Z
            then Some {| score := sc'; time := tm'; entryMoves := Z.to_nat mv';
                         difficulty := df'; date := dt' |}
            else None
        | _, _, _, _, _ => None
        end
      else None
  | _ => None
  end.

(** The session keeps [this.leaderboard] as a list of entries. A parsed
    value is such a list when it is an array of entry objects; any other
    value ([null], a number, an array of something else) is outside the
    model. *)
Definition decodeBoard (v : JSON.t) : option (list Entry) :=
  match v with
  | JSON.Array elements => mapM decodeEntry elements
  | _ => None
  end.

Definition safeEntry (e : Entry) : Prop :=
  safeInteger (score e) ∧ safeInteger (Z.of_nat (entryMoves e)).

(** What a page load makes of the stored item: the entries of
    [this.leaderboard], when [loadLeaderboard] returns an array of entry
    objects. *)
Definition loadBoard (saved : option string) : option (list Entry) :=
  match loadLeaderboard saved with
  | Normal v => decodeBoard v
  | Throw _ => None
  end.

(** ** Match engine *)

Definition endGame (timeUp : bool) (clock : Clock) : M unit :=
  modify (set_gameActive false);;
  stopTimer;;
  when (negb timeUp) (playSound "complete");;
  s ← get;
  let finalScore := scoreText s in
  let isHighScore := checkHighScore (leaderboard s) finalScore in
  let finalTime := timerText s in
  let finalMoves := moves s in
  when isHighScore (saveToLeaderboard finalScore finalTime finalMoves clock).

(** The closure of [startTimeLimit]; [this.timeLimit--] on [null] gives -1. *)
Definition timeLimitTick (clock : Clock) : M unit :=
  modify (λ s, set_timeLimit (Some (toNumber (timeLimit s) - 1)%Z) s);;
  s ← get;
  when (bool_decide (toNumber (timeLimit s) ≤ 0)%Z) (endGame true clock).

(** The closure scheduled for a matching pair, run 500 ms later. *)
Definition matchReveal (card1 card2 : nat) (clock : Clock) : M unit :=
  writeCard (setMatched true) card1;;
  writeCard (setMatched true) card2;;
  modify (λ s, set_matchedPairs (S (matchedPairs s)) s);;
  modify (set_flippedCards []);;
  updateScore clock;;
  config ← getConfig;
  s ← get;
  when (bool_decide (matchedPairs s = Config.pairs config)) (endGame false clock).

(** The closure scheduled for a pair that does not match. *)
Definition flipBack (card1 card2 : nat) : M unit :=
  writeCard (setFlipped false) card1;;
  writeCard (setFlipped false) card2;;
  modify (set_flippedCards []).

Definition flipBackDelay (currentDifficulty : string) : Z :=
  if decide (currentDifficulty = "easy") then 1000
  else if decide (currentDifficulty = "hard") then 600
  else 750.

Definition checkForMatch (clock : Clock) : M unit :=
  s ← get;
  match flippedCards s with
  | card1 :: card2 :: _ =>
      c1 ← readCard card1;
      c2 ← readCard card2;
      if decide (symbol c1 = symbol c2) then
        playSound "match";;
        setTimeout (MatchReveal card1 card2) 500 clock
      else
        setTimeout (FlipBack card1 card2) (flipBackDelay (currentDifficulty s)) clock
  | _ => throw TypeError
  end.

Definition flipCard (card : nat) (clock : Clock) : M unit :=
  s ← get;
  when (negb (gameActive s)) (startGame clock);;
  s ← get;
  if gamePaused s then mret tt else
  c ← readCard card;
  if isFlipped c || isMatched c || (2 <=? length (flippedCards s)) then mret tt else
  playSound "flip";;
  writeCard (setFlipped true) card;;
  modify (λ s, set_flippedCards (flippedCards s ++ [card]) s);;
  s ← get;
  when (length (flippedCards s) =? 2)
    (modify (λ s, set_moves (S (moves s)) s);;
     updateMovesDisplay;;
     checkForMatch clock).

(** ** Reset, new game, difficulty, pause *)

Definition resetStats : M unit :=
  modify (set_moves 0);;
  modify (set_matchedPairs 0);;
  modify (set_flippedCards []);;
  modify (set_gameActive false);;
  modify (set_gamePaused false);;
  modify (set_startTime None);;
  modify (set_pauseStartTime None);;
  modify (set_totalPauseTime 0%Z);;
  modify (set_timeLimit None);;
  modify (set_timerText "00:00");;
  modify (set_movesText 0);;
  modify (set_scoreText 0%Z);;
  stopTimer.

(** [shuffleCards]: the card objects are new ones, allocated at the end of
    the store. *)
Definition shuffleCards (random : nat → Random) : M unit :=
  config ← getConfig;
  let cardPairs := shuffle random (cardPairsOf config) in
  s ← get;
  let base := length (heap s) in
  modify (set_heap (heap s ++ makeCards cardPairs));;
  modify (set_cards (seq base (length cardPairs))).

(** [createCardGrid] and [hideModal] only touch the page. *)
Definition createCardGrid : M unit := mret tt.
Definition hideModal : M unit := mret tt.

Definition changeDifficulty (name : string) (random : nat → Random) : M unit :=
  modify (set_currentDifficulty name);;
  resetStats;;
  shuffleCards random;;
  createCardGrid.

Definition newGame (random : nat → Random) : M unit :=
  resetStats;;
  shuffleCards random;;
  createCardGrid;;
  hideModal.

Definition resetGame : M unit :=
  resetStats;;
  createCardGrid;;
  hideModal.

Definition pauseGame (clock : Clock) : M unit :=
  s ← get;
  if negb (gameActive s) || gamePaused s then mret tt else
  modify (set_gamePaused true);;
  modify (set_pauseStartTime (Some (now clock)));;
  stopTimer.

(** [if (this.pauseStartTime)]: a timestamp of 0 is falsy like [null]. *)
Definition resumeGame (clock : Clock) : M unit :=
  s ← get;
  if negb (gamePaused s) then mret tt else
  modify (set_gamePaused false);;
  match pauseStartTime s with
  | Some t =>
      when (negb (bool_decide (t = 0%Z)))
        (modify (λ s, set_totalPauseTime (totalPauseTime s + (now clock - t))%Z s);;
         modify (set_pauseStartTime None))
  | None => mret tt
  end;;
  startTimer;;
  startTimeLimit.

(** [initializeGame] *)
Definition initializeGame (random : nat → Random) : M unit :=
  shuffleCards random;;
  createCardGrid;;
  resetStats.

(** The fields of the object when the constructor calls
    [initializeGame]: [loaded] is the array [loadLeaderboard()] returned,
    [saved] the item in localStorage. *)
Definition emptyState (loaded : list Entry) (saved : option string) : State :=
  {| cards := []; flippedCards := []; matchedPairs := 0; moves := 0;
     startTime := None; timerInterval := None; gameActive := false;
     gamePaused := false; pauseStartTime := None; totalPauseTime := 0;
     currentDifficulty := "medium"; timeLimit := None;
     timeLimitInterval := None; leaderboard := loaded;
     heap := []; intervals := []; timeouts := []; nextHandle := 1%positive;
     storage := saved; timerText := ""; movesText := 0; scoreText := 0;
     sounds := [] |}.

(** The constructor. It assigns the fields in order;
    [this.leaderboard = this.loadLeaderboard()] comes before
    [initializeGame], so a [SyntaxError] of [JSON.parse] ends the
    constructor there and no game object exists. The session keeps the
    loaded value as a list of entries; a stored value that parses to
    something else ([null], a number, an array of other things) is outside
    the model: [None]. *)
Definition constructor (saved : option string) (random : nat → Random)
    : option (Completion unit * State) :=
  match loadLeaderboard saved with
  | Throw e => Some (Throw e, emptyState [] saved)
  | Normal v =>
      match decodeBoard v with
      | Some loaded => Some (initializeGame random (emptyState loaded saved))
      | None => None
      end
  end.

(** ** Events

    What the page delivers to the engine: a click on the card element at a
    grid position (the listener [createCardGrid] attached calls [flipCard]
    with the card object at that position), a pending timeout or a live
    interval firing, and the buttons and keys bound in
    [setupEventListeners]: the pause button and the P key toggle between
    [pauseGame] and [resumeGame], the resume button of the pause dialog
    calls [resumeGame], New Game and the N key call [newGame], Reset and the
    R key call [resetGame], the difficulty selector calls
    [changeDifficulty]. *)
Inductive Event :=
  | Click (position : nat)
  | TimeoutFires (k : nat)
  | IntervalFires (h : positive)
  | PauseButton
  | ResumeButton
  | NewGameRequest (random : nat → Random)
  | ResetRequest
  | DifficultyChange (name : string) (random : nat → Random).

Definition runCallback (f : Callback) (clock : Clock) : M unit :=
  match f with
  | MatchReveal card1 card2 => matchReveal card1 card2 clock
  | FlipBack card1 card2 => flipBack card1 card2
  end.

Definition runInterval (f : Interval) (clock : Clock) : M unit :=
  match f with
  | TimerTick => timerTick clock
  | TimeLimitTick => timeLimitTick clock
  end.

Definition handle (e : Event) (clock : Clock) : M unit :=
  match e with
  | Click position =>
      s ← get;
      match cards s !! position with
      | Some card => flipCard card clock
      | None => mret tt
      end
  | TimeoutFires k =>
      s ← get;
      match timeouts s !! k with
      | Some t =>
          modify (set_timeouts (delete k (timeouts s)));;
          runCallback (callback t) clock
      | None => mret tt
      end
  | IntervalFires h =>
      s ← get;
      match list_find (λ e, e.1 = h) (intervals s) with
      | Some (_, (_, f)) => runInterval f clock
      | None => mret tt
      end
  | PauseButton =>
      s ← get;
      if gamePaused s then resumeGame clock else pauseGame clock
  | ResumeButton => resumeGame clock
  | NewGameRequest random => newGame random
  | ResetRequest => resetGame
  | DifficultyChange name random => changeDifficulty name random
  end.

(** An event can occur: the clicked position is on the grid, the timeout is
    pending and its delay has elapsed, the interval is live. *)
Definition enabled (e : Event) (clock : Clock) (s : State) : bool :=
  match e with
  | Click position => bool_decide (position < length (cards s))
  | TimeoutFires k =>
      match timeouts s !! k with
      | Some t => bool_decide (setAt t + delay t ≤ now clock)%Z
      | None => false
      end
  | IntervalFires h => bool_decide (h ∈ (intervals s).*1)
  | _ => true
  end.

(** A run of the page: events in the order of their clock readings, each
    one enabled when it occurs. An exception ends the handler that raised
    it, not the page. *)
Fixpoint run (since : Z) (trace : list (Event * Clock)) (s : State)
  : option State :=
  match trace with
  | [] => Some s
  | (e, clock) :: trace' =>
      if bool_decide (since ≤ now clock)%Z && enabled e clock s
      then run (now clock) trace' (handle e clock s).2
      else None
  end.

(** The states a session can be in: those a run reaches from a freshly
    constructed game. *)
Definition reachable (s : State) : Prop :=
  ∃ saved random s0 t0 trace,
    constructor saved random = Some (Normal tt, s0) ∧
    run t0 trace s0 = Some s.

(** ** The invariant of the session *)

Definition pairsBounded (s : State) : Prop :=
  ∀ config, difficultyConfigs !! currentDifficulty s = Some config →
            matchedPairs s ≤ Config.pairs config.

Definition pausedOnlyIfActive (s : State) : Prop :=
  gamePaused s = true → gameActive s = true.

Definition invariant (s : State) : Prop :=
  length (flippedCards s) ≤ 2 ∧ pairsBounded s ∧ pausedOnlyIfActive s.

(** The events that run neither the reveal callback of a matching pair nor
    a tick of the countdown. *)
Definition quiet (e : Event) (s : State) : Prop :=
  match e with
  | TimeoutFires k =>
      match timeouts s !! k with
      | Some t => match callback t with MatchReveal _ _ => False | _ => True end
      | None => True
      end
  | IntervalFires h =>
      match list_find (λ e, e.1 = h) (intervals s) with
      | Some (_, (_, TimeLimitTick)) => False
      | _ => True
      end
  | _ => True
  end.

(** ** Observations used in the statements *)

(** The card objects [this.cards] refers to, in grid order. *)
Definition deck (s : State) : list Card := omap (λ a, heap s !! a) (cards s).

(** How often a symbol occurs in a list of symbols. *)
Definition multiplicity (x : Symbol) (l : list Symbol) : nat :=
  length (filter (λ y, y = x) l).


(** The score as the specification words it: the floor of
    [matchedPairs * 100 + max(0, timeLimitSeconds - elapsedSeconds)
     + max(0, pairCount * 2 - moves)]. *)
Definition specScore (matchedPairs timeLimitSeconds pairCount moves : Z)
    (elapsedSeconds : Q) : Z :=
  Qfloor (inject_Z (matchedPairs * 100)
          + Qmax 0 (inject_Z timeLimitSeconds - elapsedSeconds)
          + Qmax 0 (inject_Z (pairCount * 2 - moves)))%Q.

(** Wall-clock seconds since [startTime]. *)
Definition elapsedSeconds (start : option Z) (clock : Clock) : Q :=
  (inject_Z (now clock - toNumber start) / inject_Z 1000)%Q.

(** Descending order of scores. *)
Definition byScore (a b : Entry) : Prop := (score b ≤ score a)%Z.

(** The members every object inherits from [Object.prototype]; a lookup of
    one of these names in the difficulty table is not [undefined]. *)
Definition objectPrototypeNames : list string :=
  ["constructor"; "hasOwnProperty"; "isPrototypeOf"; "propertyIsEnumerable";
   "toLocaleString"; "toString"; "valueOf"; "__proto__";
   "__defineGetter__"; "__defineSetter__"; "__lookupGetter__";
   "__lookupSetter__"].


(** The cases in which [flipCard] refuses a card: the game is paused, or
    the card is face up or matched, or two cards are face up already. *)
Definition rejected (card : nat) (s : State) : Prop :=
  gamePaused s = true ∨
  ∃ c, heap s !! card = Some c ∧
       (isFlipped c = true ∨ isMatched c = true ∨ 2 ≤ length (flippedCards s)).

(** Everything of the session except the active flag, the start time, the
    countdown and the interval timers. *)
Definition sameBoard (s s' : State) : Prop :=
  cards s' = cards s ∧ heap s' = heap s ∧ flippedCards s' = flippedCards s ∧
  matchedPairs s' = matchedPairs s ∧ moves s' = moves s ∧
  gamePaused s' = gamePaused s ∧ pauseStartTime s' = pauseStartTime s ∧
  totalPauseTime s' = totalPauseTime s ∧
  currentDifficulty s' = currentDifficulty s ∧
  leaderboard s' = leaderboard s ∧ timeouts s' = timeouts s ∧
  storage s' = storage s ∧ timerText s' = timerText s ∧
  movesText s' = movesText s ∧ scoreText s' = scoreText s ∧
  sounds s' = sounds s.

(** ** Sample sessions *)

(** [Math.random()] returning 0.999 each time: every draw is [j = i], the
    deck stays in pair order. *)
Definition noSwap : nat → Random :=
  λ _, {| rsig := 8998192055486251; rexp := 0 |}.

Definition atTime (t : Z) : Clock := {| now := t; localeDate := "11/2/2026" |}.

(** A game on medium difficulty right after the page has loaded, with
    nothing stored and an empty leaderboard. *)
Definition freshGame : State := (initializeGame noSwap (emptyState [] None)).2.


(** Play pair [p] of a deck in pair order: a click on each of its two
    cards, 100 ms apart, and the reveal callback 600 ms after the first. *)
Definition matchPair (t : Z) (p : nat) : list (Event * Clock) :=
  [(Click (2 * p), atTime t);
   (Click (2 * p + 1), atTime (t + 100));
   (TimeoutFires 0, atTime (t + 600))].

(** Both interval timers of a running game tick. *)
Definition ticks (display countdown : positive) (t : Z) : list (Event * Clock) :=
  [(IntervalFires display, atTime t); (IntervalFires countdown, atTime t)].

(** Pairs [0 .. n-1], one per second, the first at [t], in a game whose
    timers were started at [t]: each pair is followed by the ticks of the
    next full second. *)
Definition matchPairs (display countdown : positive) (t : Z) (n : nat)
  : list (Event * Clock) :=
  flat_map (λ p, matchPair (t + 1000 * Z.of_nat p) p ++
                 ticks display countdown (t + 1000 * Z.of_nat p + 1000))
           (seq 0 n).

(** Seven pairs are matched; the last pair is turned up and the game is
    paused before its reveal callback runs. *)
Definition pausedAtLastReveal : list (Event * Clock) :=
  matchPairs 1 2 1000 7 ++
  [(Click 14, atTime 8000); (Click 15, atTime 8100);
   (PauseButton, atTime 8300);
   (TimeoutFires 0, atTime 8600)].

(** A pair is turned up and a new game is started before its reveal
    callback runs. Then the pairs of the new deck are matched: the seventh
    reveal ends the game (eight pairs counted), and the two cards that are
    left can still be clicked. *)
Definition staleReveal : list (Event * Clock) :=
  [(Click 0, atTime 1000); (Click 1, atTime 1100);
   (NewGameRequest noSwap, atTime 1300);
   (TimeoutFires 0, atTime 1600)] ++
  matchPairs 3 4 2000 6 ++
  matchPair 8000 6 ++
  matchPair 9000 7.

(** A first click starts the game (timer 1 is the elapsed-time display,
    timer 2 the countdown); both timers tick ten times. *)
Definition tenSeconds : list (Event * Clock) :=
  (Click 0, atTime 1000) ::
  flat_map (λ k, [(IntervalFires 1, atTime (1000 + 1000 * Z.of_nat k));
                  (IntervalFires 2, atTime (1000 + 1000 * Z.of_nat k))])
           (seq 1 10).

(** Pause, and resume five seconds later. *)
Definition pauseFiveSeconds : list (Event * Clock) :=
  [(PauseButton, atTime 11500); (ResumeButton, atTime 16500)].

(** ** Further observations *)

(** *** The leaderboard *)

Definition boardOK (l : list Entry) : Prop :=
  StronglySorted byScore l ∧ length l ≤ 5.

(** What one submission does to the board. *)
Definition submit (l : list Entry) (x : Entry) : list Entry :=
  take 5 (sortByScore (l ++ [x])).

(** One finished game as [saveToLeaderboard] receives it, with the clock of
    the call. *)
Record Result := {
  resultScore : Z;
  resultTime : string;
  resultMoves : nat;
  savedAt : Clock
}.

(** The entry [saveToLeaderboard] builds for a result. *)
Definition entryOf (name : string) (r : Result) : Entry :=
  {| score := resultScore r; time := resultTime r; entryMoves := resultMoves r;
     difficulty := name; date := localeDate (savedAt r) |}.

(** Calls of [saveToLeaderboard] one after the other, as in the loop of
    [testLeaderboardFunctionality]. *)
Fixpoint saveAll (results : list Result) : M unit :=
  match results with
  | [] => mret tt
  | r :: rest =>
      saveToLeaderboard (resultScore r) (resultTime r) (resultMoves r) (savedAt r);;
      saveAll rest
  end.

(** *** The stored text as tokens *)

Section Tokens.
Import JSON.

(** The lexer run over a piece of text, without the end-of-input check. *)
Fixpoint lexRun (st : LexState) (input : list ascii)
  : option (LexState * list Token) :=
  match input with
  | [] => Some (st, [])
  | c :: rest =>
      match lexStep st c with
      | Some (st', toks) =>
          match lexRun st' rest with
          | Some (st'', more) => Some (st'', toks ++ more)
          | None => None
          end
      | None => None
      end
  end.

Definition chars (s : string) : list ascii := list_ascii_of_string s.

Definition isNonzeroDigit (c : ascii) : bool := (49 <=? code c) && (code c <=? 57).

Definition entryTokens (e : Entry) : list Token :=
  [TLBrace; TString "score"; TColon; TNumber (pretty (score e)); TComma;
   TString "time"; TColon; TString (escape (time e)); TComma;
   TString "moves"; TColon; TNumber (pretty (entryMoves e)); TComma;
   TString "difficulty"; TColon; TString (escape (difficulty e)); TComma;
   TString "date"; TColon; TString (escape (date e)); TRBrace].

(** The tokens of the saved array. *)
Definition moreTokens (l : list Entry) : list Token :=
  flat_map (λ e, TComma :: entryTokens e) l.

Definition leaderboardTokens (l : list Entry) : list Token :=
  match l with
  | [] => [TLBracket; TRBracket]
  | e :: l' => TLBracket :: entryTokens e ++ moreTokens l' ++ [TRBracket]
  end.

End Tokens.

(** *** Card references and the pair under evaluation *)

(** definitions *)
Definition callbackCards (f : Callback) : list nat :=
  match f with
  | MatchReveal card1 card2 => [card1; card2]
  | FlipBack card1 card2 => [card1; card2]
  end.

Definition allocated (s : State) : Prop :=
  Forall (λ a, a < length (heap s)) (cards s) ∧
  Forall (λ a, a < length (heap s)) (flippedCards s) ∧
  Forall (λ t, Forall (λ a, a < length (heap s)) (callbackCards (callback t)))
         (timeouts s).

Definition knownDifficulty (s : State) : Prop :=
  is_Some (difficultyConfigs !! currentDifficulty s).

Definition offered (e : Event) : Prop :=
  match e with
  | DifficultyChange name _ => is_Some (difficultyConfigs !! name)
  | _ => True
  end.

Definition faceUp (s : State) (a : nat) : Prop :=
  a ∈ cards s ∧ isFlipped <$> heap s !! a = Some true.

Definition pairUnderEvaluation (s : State) : Prop :=
  NoDup (flippedCards s) ∧ Forall (faceUp s) (flippedCards s).

Definition persisted (s : State) : Prop :=
  storage s = Some (JSON.stringify (leaderboardToJSON (leaderboard s))).

(** What stays of a card object for good: its id and symbol, and the
    matched flag once it is set. *)
Definition sameCard (c c' : Card) : Prop :=
  id c' = id c ∧ symbol c' = symbol c ∧ (isMatched c = true → isMatched c' = true).

Definition cardsKept (h h' : list Card) : Prop :=
  ∀ a c, h !! a = Some c → ∃ c', h' !! a = Some c' ∧ sameCard c c'.

(** Every event of the trace is one the page offers. *)
Definition offeredTrace (trace : list (Event * Clock)) : Prop :=
  Forall (λ ev, offered ev.1) trace.

(** The countdown interval firing once for every clock of the list. *)
Fixpoint timeLimitTicks (clocks : list Clock) : M unit :=
  match clocks with
  | [] => mret tt
  | clock :: rest => timeLimitTick clock;; timeLimitTicks rest
  end.

(** The clock reading [d] milliseconds earlier. *)
Definition earlier (d : Z) (clock : Clock) : Clock :=
  {| now := now clock - d; localeDate := localeDate clock |}.

(** No pending callback holds a card of the grid. *)
Definition callbacksStale (s : State) : Prop :=
  ∀ t a, t ∈ timeouts s → a ∈ callbackCards (callback t) → a ∉ cards s.

(** *** Draws of the shuffle *)

(** A number that draws [j] among [n <= 2^26] positions: [k / 2^26] with
    [k] the least integer for which this is at least [j / n]. Its product
    with [n] has less than 53 bits and is not rounded. *)
Definition drawOf (j n : nat) : Random :=
  {| rsig := ((N.of_nat j * 2 ^ 26 + N.of_nat n - 1) / N.of_nat n * 2 ^ 27)%N;
     rexp := 0 |}.

(** *** More sample sessions *)

(** The first card has been turned up. *)
Definition oneUp : State := (handle (Click 0) (atTime 1000) freshGame).2.

(** The first two cards, a pair, are up and their reveal is pending. *)
Definition twoUp : State := (handle (Click 1) (atTime 1100) oneUp).2.

Definition sampleBoard : list Entry :=
  [{| score := 1500; time := "01:00"; entryMoves := 10;
      difficulty := "easy"; date := "1/1/2026" |};
   {| score := 1000; time := "02:00"; entryMoves := 14;
      difficulty := "hard"; date := "1/2/2026" |}].

(** A full board, and a board whose strings need escaping: a quote, a
    backslash, a line feed, a control character and bytes above 127. *)
Definition fullBoard : list Entry :=
  (λ k, {| score := 600 - 100 * Z.of_nat k; time := "01:00"; entryMoves := 10 + k;
           difficulty := "medium"; date := "1/1/2026" |}) <$> seq 1 5.

Definition trickyBoard : list Entry :=
  [{| score := -5; time := "a\b" +:+ JSON.quote +:+ "c";
      entryMoves := 0; difficulty := "hard";
      date := String (ascii_of_nat 10) (String (ascii_of_nat 1) "é🎯") |}].

(** A whole game on the fresh page: the eight pairs, one per second. *)
Definition wholeGame : list (Event * Clock) :=
  matchPairs 1 2 1000 7 ++ matchPair 8000 7.

Definition finishedGame : State := default freshGame (run 0 wholeGame freshGame).

(** The two decimal digits of a number below 100. *)
Definition twoDigits (n : Z) : string :=
  String (ascii_of_nat (48 + Z.to_nat (n `div` 10)))
    (String (ascii_of_nat (48 + Z.to_nat (n `mod` 10))) "").

Definition sampleResults : list Result :=
  [{| resultScore := 1000; resultTime := "01:30"; resultMoves := 15;
      savedAt := atTime 0 |};
   {| resultScore := 1200; resultTime := "01:10"; resultMoves := 12;
      savedAt := atTime 0 |}].

(** * Properties *)

(** ** Deck building and shuffle *)

Lemma pushPairs_flat syms n i acc :
  pushPairs syms n i acc =
  acc ++ flat_map (λ k, [symbolOfPair syms k; symbolOfPair syms k]) (seq i n).
Proof.
  revert i acc. induction n as [|n IH]; intros i acc; simpl.
  - by rewrite app_nil_r.
  - rewrite IH. by rewrite <- !app_assoc.
Qed.

Lemma length_pairs_flat (f : nat → Symbol) l :
  length (flat_map (λ k, [f k; f k]) l) = 2 * length l.
Proof. induction l as [|x l IH]; simpl; [done|]. rewrite IH. lia. Qed.

Lemma lookup_pairs_flat (f : nat → Symbol) n i k :
  k < n →
  flat_map (λ k, [f k; f k]) (seq i n) !! (2 * k) = Some (f (i + k)) ∧
  flat_map (λ k, [f k; f k]) (seq i n) !! (2 * k + 1) = Some (f (i + k)).
Proof.
  revert i k. induction n as [|n IH]; intros i k Hk; [lia|].
  destruct k as [|k].
  - simpl. rewrite Nat.add_0_r. done.
  - replace (2 * S k) with (S (S (2 * k))) by lia.
    replace (i + S k) with (S i + k) by lia.
    simpl. apply IH. lia.
Qed.

Lemma length_cardPairsOf config :
  length (cardPairsOf config) = 2 * Config.pairs config.
Proof.
  unfold cardPairsOf. rewrite pushPairs_flat. simpl.
  rewrite (length_pairs_flat (symbolOfPair (Config.symbols config))).
  by rewrite length_seq.
Qed.

Lemma lookup_cardPairsOf config k :
  k < Config.pairs config →
  let s := symbolOfPair (Config.symbols config) k in
  cardPairsOf config !! (2 * k) = Some s ∧
  cardPairsOf config !! (2 * k + 1) = Some s.
Proof.
  intros Hk. unfold cardPairsOf. rewrite pushPairs_flat. simpl.
  apply (lookup_pairs_flat (symbolOfPair (Config.symbols config)) _ 0 k Hk).
Qed.

Lemma swap_length {A} (a : list A) i j : length (swap a i j) = length a.
Proof.
  unfold swap. destruct (a !! j), (a !! i); try done.
  by rewrite !length_insert.
Qed.

Lemma swap_Permutation {A} (a : list A) i j : swap a i j ≡ₚ a.
Proof.
  unfold swap. destruct (a !! j) eqn:Hj, (a !! i) eqn:Hi; try done.
  by apply Permutation_insert_swap.
Qed.

Lemma fisherYates_Permutation {A} random k i (a : list A) :
  fisherYates random k i a ≡ₚ a.
Proof.
  revert k a. induction i as [|i IH]; intros k a; simpl; [done|].
  rewrite IH. apply swap_Permutation.
Qed.

Lemma shuffle_Permutation {A} random (a : list A) : shuffle random a ≡ₚ a.
Proof. apply fisherYates_Permutation. Qed.

(** *** The draw in binary64 *)

Lemma pow2_pos (k : N) : (0 < 2 ^ k)%N.
Proof. apply N.neq_0_lt_0, N.pow_nonzero. lia. Qed.

Lemma excess_unit m :
  (0 < excess m)%N → (2 ^ 52 * 2 ^ excess m ≤ m)%N.
Proof.
  unfold excess. intros H.
  assert (0 < m)%N as Hm.
  { destruct m; [simpl in H; lia|lia]. }
  destruct (N.log2_spec m Hm) as [Hl _].
  rewrite <- N.pow_add_r.
  replace (52 + (N.log2 m + 1 - 53))%N with (N.log2 m) by lia. done.
Qed.

Lemma excess_le m u : (m < 2 ^ (53 + u))%N → (excess m ≤ u)%N.
Proof.
  unfold excess. intros H.
  destruct (decide (m = 0%N)) as [->|Hm]; [simpl; lia|].
  assert (N.log2 m < 53 + u)%N; [|lia].
  apply N.log2_lt_pow2; lia.
Qed.

(** The rounded value is one of the two neighbours on the grid. *)
Lemma round53_cases m :
  round53 m = (m / 2 ^ excess m * 2 ^ excess m)%N ∨
  (round53 m = ((m / 2 ^ excess m + 1) * 2 ^ excess m)%N ∧
   (2 ^ excess m ≤ 2 * (m mod 2 ^ excess m))%N).
Proof.
  unfold round53.
  destruct ((2 ^ excess m <? 2 * (m mod 2 ^ excess m))%N) eqn:E1; simpl.
  - right. split; [done|]. apply N.ltb_lt in E1. lia.
  - destruct ((2 ^ excess m =? 2 * (m mod 2 ^ excess m))%N) eqn:E2; simpl; [|by left].
    destruct (N.odd (m / 2 ^ excess m)); [|by left].
    right. split; [done|]. apply N.eqb_eq in E2. lia.
Qed.

Lemma round53_small m : (m < 2 ^ 53)%N → round53 m = m.
Proof.
  intros H. pose proof (excess_le m 0) as He.
  rewrite N.add_0_r in He. specialize (He H).
  assert (excess m = 0%N) as E by lia.
  unfold round53. rewrite E. simpl (2 ^ 0)%N.
  rewrite N.div_1_r, N.mod_1_r. simpl. lia.
Qed.

(** Rounding up moves by at most one part in 2^53. *)
Lemma round53_up m : (2 ^ 53 * (round53 m - m) ≤ m)%N.
Proof.
  destruct (round53_cases m) as [E|[E Hhalf]].
  - rewrite E. pose proof (pow2_pos (excess m)) as Hp.
    pose proof (N.div_mod m (2 ^ excess m) ltac:(lia)) as D.
    set (g := (2 ^ excess m)%N) in *.
    set (q := (m / g)%N) in *. set (r := (m mod g)%N) in *.
    replace (q * g - m)%N with 0%N by lia. lia.
  - rewrite E. pose proof (pow2_pos (excess m)) as Hp.
    pose proof (N.div_mod m (2 ^ excess m) ltac:(lia)) as D.
    pose proof (N.mod_lt m (2 ^ excess m) ltac:(lia)) as Hlt.
    destruct (decide (excess m = 0%N)) as [E0|E0].
    { rewrite E0 in *. simpl (2 ^ 0)%N in *. rewrite N.mod_1_r in Hhalf. lia. }
    pose proof (excess_unit m ltac:(lia)) as Hu.
    set (g := (2 ^ excess m)%N) in *.
    set (q := (m / g)%N) in *. set (r := (m mod g)%N) in *.
    assert ((q + 1) * g - m = g - r)%N as -> by lia.
    change (2 ^ 53)%N with (2 * 2 ^ 52)%N. lia.
Qed.

(** A multiple of a coarser grid is not crossed. *)
Lemma round53_above m u k :
  (excess m ≤ u)%N → (k * 2 ^ u ≤ m)%N → (k * 2 ^ u ≤ round53 m)%N.
Proof.
  intros Hu Hk.
  pose proof (pow2_pos (excess m)) as Hp.
  assert (k * 2 ^ u ≤ m / 2 ^ excess m * 2 ^ excess m)%N as Hq.
  { replace u with (excess m + (u - excess m))%N in * by lia.
    rewrite N.pow_add_r in *.
    set (g := (2 ^ excess m)%N) in *. set (h := (2 ^ (u - excess m))%N) in *.
    assert (k * h ≤ m / g)%N; [|nia].
    apply N.div_le_lower_bound; lia. }
  destruct (round53_cases m) as [->|[-> _]]; lia.
Qed.

Lemma round53_below m u k :
  (excess m ≤ u)%N → (m < k * 2 ^ u)%N → (round53 m ≤ k * 2 ^ u)%N.
Proof.
  intros Hu Hk.
  pose proof (pow2_pos (excess m)) as Hp.
  assert ((m / 2 ^ excess m + 1) * 2 ^ excess m ≤ k * 2 ^ u)%N as Hq.
  { replace u with (excess m + (u - excess m))%N in * by lia.
    rewrite N.pow_add_r in *.
    set (g := (2 ^ excess m)%N) in *. set (h := (2 ^ (u - excess m))%N) in *.
    assert (m / g < k * h)%N; [|nia].
    apply N.Div0.div_lt_upper_bound; lia. }
  destruct (round53_cases m) as [->|[-> _]]; lia.
Qed.

Lemma round53_exact c u : (c < 2 ^ 53)%N → round53 (c * 2 ^ u) = (c * 2 ^ u)%N.
Proof.
  intros Hc.
  assert (excess (c * 2 ^ u) ≤ u)%N as He.
  { apply excess_le. rewrite N.pow_add_r. pose proof (pow2_pos u). nia. }
  apply N.le_antisymm.
  - pose proof (round53_up (c * 2 ^ u)) as Hup.
    destruct (round53_cases (c * 2 ^ u)) as [->|[E Hhalf]].
    + pose proof (pow2_pos (excess (c * 2 ^ u))).
      pose proof (N.div_mod (c * 2 ^ u) (2 ^ excess (c * 2 ^ u)) ltac:(lia)).
      set (g := (2 ^ excess (c * 2 ^ u))%N) in *.
      set (q := (c * 2 ^ u / g)%N) in *. set (r := ((c * 2 ^ u) mod g)%N) in *.
      lia.
    + exfalso.
      assert ((c * 2 ^ u) mod 2 ^ excess (c * 2 ^ u) = 0)%N as Hz.
      { replace u with ((u - excess (c * 2 ^ u)) + excess (c * 2 ^ u))%N at 1 by lia.
        rewrite N.pow_add_r, N.mul_assoc. apply N.Div0.mod_mul. }
      rewrite Hz in Hhalf. pose proof (pow2_pos (excess (c * 2 ^ u))). lia.
  - apply (round53_above _ u c); [done|lia].
Qed.

Lemma significand_lt r : (significand r < 2 ^ 53)%N.
Proof. unfold significand. apply N.mod_lt. apply N.pow_nonzero. lia. Qed.

Lemma scale_split r : (2 ^ scale r = 2 ^ (rexp r mod 1022) * 2 ^ 53)%N.
Proof. unfold scale. rewrite N.pow_add_r. lia. Qed.

Lemma product_excess r n :
  (N.of_nat n ≤ 2 ^ 53)%N → (excess (significand r * N.of_nat n) ≤ 53)%N.
Proof.
  intros Hn. apply excess_le. rewrite N.pow_add_r.
  pose proof (significand_lt r). nia.
Qed.

Lemma randomIndex_lt r n : 0 < n → randomIndex r n < n.
Proof.
  intros Hn. unfold randomIndex.
  pose proof (significand_lt r) as Hm.
  pose proof (round53_up (significand r * N.of_nat n)) as Hup.
  pose proof (scale_split r) as Hs.
  pose proof (pow2_pos (rexp r mod 1022)) as Ht.
  set (M := (significand r * N.of_nat n)%N) in *.
  assert (round53 M < N.of_nat n * 2 ^ scale r)%N as Hlt.
  { rewrite Hs. set (T := (2 ^ (rexp r mod 1022))%N) in *.
    assert (round53 M < 2 ^ 53 * N.of_nat n)%N; [|nia].
    assert (M < 2 ^ 53 * N.of_nat n)%N by (unfold M; nia).
    assert (M + N.of_nat n ≤ 2 ^ 53 * N.of_nat n)%N by (unfold M; nia).
    lia. }
  assert (round53 M / 2 ^ scale r < N.of_nat n)%N; [|lia].
  apply N.Div0.div_lt_upper_bound. lia.
Qed.

Lemma randomIndex_le r i : randomIndex r (i + 1) ≤ i.
Proof. pose proof (randomIndex_lt r (i + 1)). lia. Qed.

Lemma randomIndex_floor r n j :
  (N.of_nat n ≤ 2 ^ 53)%N →
  (N.of_nat j * 2 ^ scale r ≤ significand r * N.of_nat n)%N →
  (significand r * N.of_nat n
   < 2 ^ 53 * (N.of_nat (j + 1) * 2 ^ scale r - significand r * N.of_nat n))%N →
  randomIndex r n = j.
Proof.
  intros Hn Hlo Hhi. unfold randomIndex.
  pose proof (product_excess r n Hn) as He.
  pose proof (round53_up (significand r * N.of_nat n)) as Hup.
  pose proof (scale_split r) as Hs.
  set (M := (significand r * N.of_nat n)%N) in *.
  set (D := (2 ^ scale r)%N) in *.
  assert (0 < D)%N as HD by apply pow2_pos.
  assert (N.of_nat j * D ≤ round53 M)%N as H1.
  { rewrite Hs, N.mul_assoc. apply round53_above; [done|].
    rewrite <- N.mul_assoc, <- Hs. done. }
  assert (round53 M < N.of_nat (j + 1) * D)%N as H2 by lia.
  assert (round53 M / D = N.of_nat j)%N as E; [|lia].
  symmetry. apply (N.div_unique _ _ _ (round53 M - N.of_nat j * D)); lia.
Qed.

Lemma randomIndex_inv r n j :
  (N.of_nat n ≤ 2 ^ 53)%N →
  randomIndex r n = j →
  (significand r * N.of_nat n < N.of_nat (j + 1) * 2 ^ scale r)%N ∧
  (2 ^ 53 * (N.of_nat j * 2 ^ scale r - significand r * N.of_nat n)
   ≤ significand r * N.of_nat n)%N.
Proof.
  intros Hn Hj. unfold randomIndex in Hj.
  pose proof (product_excess r n Hn) as He.
  pose proof (round53_up (significand r * N.of_nat n)) as Hup.
  pose proof (scale_split r) as Hs.
  set (M := (significand r * N.of_nat n)%N) in *.
  set (D := (2 ^ scale r)%N) in *.
  assert (0 < D)%N as HD by apply pow2_pos.
  pose proof (N.div_mod (round53 M) D ltac:(lia)) as Hd.
  pose proof (N.mod_lt (round53 M) D ltac:(lia)) as Hr.
  assert (round53 M / D = N.of_nat j)%N as E by lia.
  rewrite E in Hd.
  split.
  - destruct (decide (M < N.of_nat (j + 1) * D)%N) as [|Hge]; [done|]. exfalso.
    assert (N.of_nat (j + 1) * D ≤ round53 M)%N; [|lia].
    rewrite Hs, N.mul_assoc. apply round53_above; [done|].
    rewrite <- N.mul_assoc, <- Hs. lia.
  - assert (N.of_nat j * D ≤ round53 M)%N as Hge.
    { rewrite Hd at 1. rewrite (N.mul_comm D). apply N.le_add_r. }
    assert (N.of_nat j * D - M ≤ round53 M - M)%N as Hle.
    { apply N.sub_le_mono_r. exact Hge. }
    etrans; [|exact Hup]. apply N.mul_le_mono_l. exact Hle.
Qed.

Lemma randomIndex_drawOf j n :
  j < n → (N.of_nat n ≤ 2 ^ 26)%N → randomIndex (drawOf j n) n = j.
Proof.
  intros Hj Hn. unfold randomIndex, drawOf, significand, scale. cbn [rsig rexp].
  set (J := N.of_nat j). set (n' := N.of_nat n).
  assert (J < n')%N as HJ by lia.
  set (k := ((J * 2 ^ 26 + n' - 1) / n')%N).
  assert (J * 2 ^ 26 ≤ k * n' ∧ k * n' < J * 2 ^ 26 + n')%N as [Hk1 Hk2].
  { pose proof (N.div_mod (J * 2 ^ 26 + n' - 1) n' ltac:(lia)) as Hd.
    pose proof (N.mod_lt (J * 2 ^ 26 + n' - 1) n' ltac:(lia)) as Hr.
    fold k in Hd. clearbody k.
    generalize dependent ((J * 2 ^ 26 + n' - 1) mod n')%N. intros rem Hd Hr.
    assert (1 ≤ n')%N by lia. clearbody J n'. nia. }
  assert (k < 2 ^ 26)%N as Hk by nia.
  rewrite (N.mod_small (k * 2 ^ 27)) by (change (2 ^ 53)%N with (2 ^ 26 * 2 ^ 27)%N; nia).
  change (0 mod 1022)%N with 0%N. rewrite N.add_0_r.
  replace (k * 2 ^ 27 * n')%N with (k * n' * 2 ^ 27)%N by lia.
  rewrite round53_exact by (change (2 ^ 53)%N with (2 ^ 26 * 2 ^ 27)%N; nia).
  change (2 ^ 53)%N with (2 ^ 26 * 2 ^ 27)%N.
  rewrite N.Div0.div_mul_cancel_r by lia.
  assert (k * n' / 2 ^ 26 = J)%N as E; [|lia].
  symmetry. apply (N.div_unique _ _ _ (k * n' - J * 2 ^ 26)); lia.
Qed.

(** The product of the number 0.7 and 10 rounds up to 7. *)
Example draw_rounds_up :
  randomIndex {| rsig := 6305039478318694; rexp := 0 |} 10 = 7.
Proof. reflexivity. Qed.

Lemma swap_spec {A} (a : list A) i j :
  i < length a → j < length a →
  length (swap a i j) = length a ∧
  swap a i j !! i = a !! j ∧
  swap a i j !! j = a !! i ∧
  ∀ k, k ≠ i → k ≠ j → swap a i j !! k = a !! k.
Proof.
  intros Hi Hj. split; [apply swap_length|]. unfold swap.
  destruct (lookup_lt_is_Some_2 a i Hi) as [ai Hai].
  destruct (lookup_lt_is_Some_2 a j Hj) as [aj Haj].
  rewrite Hai, Haj. split; [|split].
  - destruct (decide (i = j)) as [->|Hne].
    + rewrite list_lookup_insert_eq by (by rewrite length_insert). congruence.
    + rewrite list_lookup_insert_ne by done. by rewrite list_lookup_insert_eq.
  - by rewrite list_lookup_insert_eq by (by rewrite length_insert).
  - intros k Hki Hkj. by rewrite !list_lookup_insert_ne.
Qed.


Lemma deck_fresh (h new : list Card) :
  omap (λ a, (h ++ new) !! a) (seq (length h) (length new)) = new.
Proof.
  revert h. induction new as [|c new IH]; intros h; simpl; [done|].
  rewrite lookup_app_r by lia. rewrite Nat.sub_diag. simpl. f_equal.
  specialize (IH (h ++ [c])). rewrite length_app in IH. simpl in IH.
  rewrite Nat.add_1_r in IH. rewrite <- app_assoc in IH. simpl in IH. done.
Qed.

Lemma symbol_makeCards l : symbol <$> makeCards l = l.
Proof.
  unfold makeCards.
  apply list_eq. intros i. rewrite list_lookup_fmap, list_lookup_imap.
  by destruct (l !! i).
Qed.

Lemma makeCards_lookup l i c :
  makeCards l !! i = Some c → id c = i ∧ isFlipped c = false ∧ isMatched c = false.
Proof.
  unfold makeCards. rewrite list_lookup_imap.
  destruct (l !! i); simpl; [|done]. by intros [= <-].
Qed.

Lemma lookup_config name config :
  difficultyConfigs !! name = Some config →
  (name = "easy" ∧ config = easy) ∨ (name = "medium" ∧ config = medium)
  ∨ (name = "hard" ∧ config = hard).
Proof.
  unfold difficultyConfigs. intros H.
  apply lookup_insert_Some in H as [[<- <-]|[_ H]]; [by left|].
  apply lookup_insert_Some in H as [[<- <-]|[_ H]]; [by right; left|].
  apply lookup_insert_Some in H as [[<- <-]|[_ H]]; [by right; right|].
  by rewrite lookup_empty in H.
Qed.

Lemma multiplicity_Permutation x l1 l2 :
  l1 ≡ₚ l2 → multiplicity x l1 = multiplicity x l2.
Proof. intros H. unfold multiplicity. by rewrite H. Qed.

Lemma multiplicity_pairs_flat (f : nat → Symbol) x l :
  multiplicity x (flat_map (λ k, [f k; f k]) l)
  = 2 * length (filter (λ k, f k = x) l).
Proof.
  unfold multiplicity. induction l as [|k l IH]; simpl; [done|].
  rewrite !filter_cons. destruct (decide (f k = x)); simpl; rewrite IH; lia.
Qed.

Lemma filter_seq_once (syms : list string) (x : Symbol) k0 i n :
  NoDup syms → is_Some x → syms !! k0 = x → i ≤ k0 < i + n →
  length (filter (λ k, syms !! k = x) (seq i n)) = 1.
Proof.
  intros Hnd [y ->] Hk0. revert i. induction n as [|n IH]; intros i Hi; [lia|].
  simpl. rewrite filter_cons. destruct (decide (syms !! i = Some y)) as [Hy|Hy].
  - simpl. f_equal.
    assert (i = k0) as -> by (eapply NoDup_lookup; eauto).
    clear IH.
    destruct (filter (λ k, syms !! k = Some y) (seq (S k0) n)) as [|k l] eqn:E;
      [done|].
    assert (k ∈ filter (λ k, syms !! k = Some y) (seq (S k0) n)) as Hk
      by (rewrite E; left).
    apply list_elem_of_filter in Hk as [Hky Hk]. apply elem_of_seq in Hk.
    assert (k = k0) by (eapply NoDup_lookup; eauto). lia.
  - apply IH. destruct (decide (i = k0)) as [->|]; [congruence|lia].
Qed.

Lemma flat_map_agree {A B} (f g : A → list B) l :
  (∀ k, k ∈ l → f k = g k) → flat_map f l = flat_map g l.
Proof.
  induction l as [|k l IH]; intros H; simpl; [done|].
  rewrite H by left. rewrite IH; [done|]. intros k' Hk'. apply H. by right.
Qed.

(** For a configuration as the data model wants it: symbols without
    repetition, and no more pairs than symbols. *)
Lemma cardPairsOf_twice config x :
  NoDup (Config.symbols config) →
  Config.pairs config ≤ length (Config.symbols config) →
  x ∈ cardPairsOf config → multiplicity x (cardPairsOf config) = 2.
Proof.
  intros Hnd Hle. unfold cardPairsOf. rewrite pushPairs_flat. simpl.
  set (syms := Config.symbols config) in *. set (n := Config.pairs config) in *.
  assert (Heq : flat_map (λ k, [symbolOfPair syms k; symbolOfPair syms k]) (seq 0 n)
                = flat_map (λ k, [syms !! k; syms !! k]) (seq 0 n)).
  { apply flat_map_agree. intros k Hk. apply elem_of_seq in Hk.
    unfold symbolOfPair. rewrite Nat.mod_small by lia. done. }
  rewrite Heq. intros Hx.
  apply list_elem_of_In, in_flat_map in Hx as (k & Hk & Hx).
  apply in_seq in Hk.
  assert (x = syms !! k) as ->.
  { simpl in Hx. destruct Hx as [<-|[<-|[]]]; done. }
  rewrite (multiplicity_pairs_flat (λ k, syms !! k)).
  rewrite (filter_seq_once syms (syms !! k) k 0 n); [done|done| |done|lia].
  apply lookup_lt_is_Some_2. lia.
Qed.

(** The three configurations of the table are as the data model wants
    them. *)
Lemma table_wellformed name config :
  difficultyConfigs !! name = Some config →
  NoDup (Config.symbols config) ∧
  Config.pairs config ≤ length (Config.symbols config).
Proof.
  intros H. destruct (lookup_config _ _ H) as [[_ ->]|[[_ ->]|[_ ->]]];
    (split; [apply (bool_decide_unpack _); by vm_compute | simpl; lia]).
Qed.

Lemma shuffleCards_run random s config :
  difficultyConfigs !! currentDifficulty s = Some config →
  shuffleCards random s =
    (Normal tt,
     set_cards (seq (length (heap s)) (length (shuffle random (cardPairsOf config))))
       (set_heap (heap s ++ makeCards (shuffle random (cardPairsOf config))) s)).
Proof.
  intros H. unfold shuffleCards, getConfig, mbind, M_bind, get. simpl.
  rewrite H. reflexivity.
Qed.

(** C1. For each of the three difficulty configurations, [shuffleCards]
    succeeds; the pair list has [2 * pairs] entries, pair [i] being
    [symbols[i mod symbols.length]] at positions [2i] and [2i+1]; the
    symbols of a configuration are distinct and at least as many as its
    pairs, so every symbol of the list occurs exactly twice; the deck is
    the Fisher-Yates shuffle of that list, where the loop goes from
    [length - 1] down to 1 and swaps positions [i] and [j] with [j] in
    [0, i]: after the swap position [i] holds what [j] held, [j] what [i]
    held, and every other position is as before. The draw is the floor of
    the binary64 product of [x = Math.random()] and [n = i + 1]: it is
    below [n]; [x] draws [j] when [j <= x * n] and
    [x * n * (1 + 2^-53) < j + 1], and only when
    [j <= x * n * (1 + 2^-53)] and [x * n < j + 1]. These are the
    intervals [[j/n, (j+1)/n)], of equal width for every [j], up to the one
    rounding of the product (the number 0.7 and 10 give 7, not 6); and
    every [j] is drawn by some number. So the deck is a permutation of the
    pair list, has [2 * pairs] cards with each symbol exactly twice, and
    card [i] in grid order has id [i], face down and unmatched. *)
Theorem shuffleCards_builds_deck name config random s :
  difficultyConfigs !! name = Some config →
  currentDifficulty s = name →
  ∃ s',
    shuffleCards random s = (Normal tt, s') ∧
    length (cardPairsOf config) = 2 * Config.pairs config ∧
    (∀ i, i < Config.pairs config →
       let sym := Config.symbols config !! (i mod length (Config.symbols config)) in
       symbolOfPair (Config.symbols config) i = sym ∧
       cardPairsOf config !! (2 * i) = Some sym ∧
       cardPairsOf config !! (2 * i + 1) = Some sym) ∧
    NoDup (Config.symbols config) ∧
    Config.pairs config ≤ length (Config.symbols config) ∧
    (∀ x, x ∈ cardPairsOf config → multiplicity x (cardPairsOf config) = 2) ∧
    symbol <$> deck s' = shuffle random (cardPairsOf config) ∧
    (∀ a : list Symbol,
       shuffle random a = fisherYates random 0 (length a - 1) a) ∧
    (∀ k (a : list Symbol), fisherYates random k 0 a = a) ∧
    (∀ k i (a : list Symbol),
       let j := randomIndex (random k) (S i + 1) in
       j ≤ S i ∧
       fisherYates random k (S i) a = fisherYates random (S k) i (swap a (S i) j)) ∧
    (∀ (a : list Symbol) i j, i < length a → j < length a →
       length (swap a i j) = length a ∧
       swap a i j !! i = a !! j ∧
       swap a i j !! j = a !! i ∧
       ∀ k, k ≠ i → k ≠ j → swap a i j !! k = a !! k) ∧
    (∀ r n, 0 < n → randomIndex r n < n) ∧
    (∀ r n j, (N.of_nat n ≤ 2 ^ 53)%N →
       (N.of_nat j * 2 ^ scale r ≤ significand r * N.of_nat n)%N →
       (significand r * N.of_nat n
        < 2 ^ 53 * (N.of_nat (j + 1) * 2 ^ scale r - significand r * N.of_nat n))%N →
       randomIndex r n = j) ∧
    (∀ r n j, (N.of_nat n ≤ 2 ^ 53)%N →
       randomIndex r n = j →
       (significand r * N.of_nat n < N.of_nat (j + 1) * 2 ^ scale r)%N ∧
       (2 ^ 53 * (N.of_nat j * 2 ^ scale r - significand r * N.of_nat n)
        ≤ significand r * N.of_nat n)%N) ∧
    (∀ n j, j < n → (N.of_nat n ≤ 2 ^ 26)%N → randomIndex (drawOf j n) n = j) ∧
    randomIndex {| rsig := 6305039478318694; rexp := 0 |} 10 = 7 ∧
    symbol <$> deck s' ≡ₚ cardPairsOf config ∧
    length (deck s') = 2 * Config.pairs config ∧
    (∀ x, x ∈ symbol <$> deck s' → multiplicity x (symbol <$> deck s') = 2) ∧
    (∀ i c, deck s' !! i = Some c →
       id c = i ∧ isFlipped c = false ∧ isMatched c = false).
Proof.
  intros Hcfg Hname. subst name.
  eexists. split; [by apply shuffleCards_run|].
  assert (Hdeck : deck (set_cards (seq (length (heap s))
              (length (shuffle random (cardPairsOf config))))
            (set_heap (heap s ++ makeCards (shuffle random (cardPairsOf config))) s))
          = makeCards (shuffle random (cardPairsOf config))).
  { unfold deck. simpl.
    rewrite <- (length_imap newCard (shuffle random (cardPairsOf config))).
    apply deck_fresh. }
  rewrite Hdeck, symbol_makeCards.
  pose proof (shuffle_Permutation random (cardPairsOf config)) as Hperm.
  destruct (table_wellformed _ _ Hcfg) as [Hnd Hle].
  split; [apply length_cardPairsOf|].
  split; [intros i Hi; split; [reflexivity | by apply lookup_cardPairsOf]|].
  split; [exact Hnd|]. split; [exact Hle|].
  split; [intros x Hx; by apply cardPairsOf_twice|].
  split; [reflexivity|]. split; [reflexivity|]. split; [reflexivity|].
  split; [intros k i a; split; [apply randomIndex_le | reflexivity]|].
  split; [intros a i j; apply swap_spec|].
  split; [apply randomIndex_lt|].
  split; [apply randomIndex_floor|].
  split; [apply randomIndex_inv|].
  split; [intros n j; apply randomIndex_drawOf|].
  split; [reflexivity|].
  split; [exact Hperm|].
  split.
  { unfold makeCards. rewrite length_imap, Hperm. apply length_cardPairsOf. }
  split.
  { intros x Hx. rewrite (multiplicity_Permutation _ _ _ Hperm).
    rewrite Hperm in Hx. by apply cardPairsOf_twice. }
  intros i c Hc. by eapply makeCards_lookup.
Qed.

Lemma shuffleCards_builds_deck_witness :
  ∃ s', shuffleCards (λ _, {| rsig := 4503599627370496; rexp := 0 |})
          (emptyState [] None)
        = (Normal tt, s') ∧ length (deck s') = 16.
Proof.
  destruct (shuffleCards_builds_deck "medium" medium
              (λ _, {| rsig := 4503599627370496; rexp := 0 |}) (emptyState [] None))
    as (s' & H & _ & _ & _ & _ & _ & _ & _ & _ & _ & _ & _ & _ & _ & _ & _ & _
        & Hlen & _).
  - reflexivity.
  - reflexivity.
  - exists s'. split; [exact H | exact Hlen].
Defined.

(** ** Running the methods *)

Ltac unfold_M :=
  unfold mbind, mret, M_bind, M_ret, get, modify, throw, when in *.

Ltac exec :=
  repeat progress
    (unfold saveToLeaderboard, saveLeaderboard, playSound, writeCard,
       setTimeout, setInterval, clearInterval, updateMovesDisplay,
       mbind, mret, M_bind, M_ret, get, modify, throw, when; simpl).

Lemma lookup_alter_flag (f : Card → Card) (P : Card → bool) b (h : list Card) a1 a2 :
  (∀ c, P (f c) = b) →
  a1 < length h →
  (P <$> alter f a2 (alter f a1 h) !! a1 = Some b) ∧
  (a2 < length h → P <$> alter f a2 (alter f a1 h) !! a2 = Some b).
Proof.
  intros Hf H1. split.
  - destruct (lookup_lt_is_Some_2 h a1 H1) as [c Hc].
    destruct (decide (a2 = a1)) as [->|Hne].
    + rewrite !list_lookup_alter_eq, Hc. simpl. by rewrite Hf.
    + rewrite list_lookup_alter_ne by done. rewrite list_lookup_alter_eq, Hc.
      simpl. by rewrite Hf.
  - intros H2. rewrite list_lookup_alter_eq.
    assert (a2 < length (alter f a1 h)) as H2' by by rewrite length_alter.
    destruct (lookup_lt_is_Some_2 _ a2 H2') as [c ->]. simpl. by rewrite Hf.
Qed.

Lemma lookup_alter_other (f : Card → Card) (P : Card → bool) (h : list Card) a1 a2 a :
  (∀ c, P (f c) = P c) →
  P <$> alter f a2 (alter f a1 h) !! a = P <$> h !! a.
Proof.
  intros Hf. rewrite !list_lookup_alter.
  repeat case_decide; subst; rewrite ?list_lookup_alter_eq;
    try destruct (h !! a); simpl; rewrite ?Hf; done.
Qed.

Lemma stopTimer_fields s :
  ∃ s', stopTimer s = (Normal tt, s') ∧
    timerInterval s' = None ∧ timeLimitInterval s' = None ∧
    cards s' = cards s ∧ flippedCards s' = flippedCards s ∧
    matchedPairs s' = matchedPairs s ∧ moves s' = moves s ∧
    startTime s' = startTime s ∧ gameActive s' = gameActive s ∧
    gamePaused s' = gamePaused s ∧ pauseStartTime s' = pauseStartTime s ∧
    totalPauseTime s' = totalPauseTime s ∧
    currentDifficulty s' = currentDifficulty s ∧ timeLimit s' = timeLimit s ∧
    leaderboard s' = leaderboard s ∧ heap s' = heap s ∧
    timeouts s' = timeouts s ∧ nextHandle s' = nextHandle s ∧
    storage s' = storage s ∧ timerText s' = timerText s ∧
    movesText s' = movesText s ∧ scoreText s' = scoreText s ∧
    sounds s' = sounds s.
Proof.
  unfold stopTimer, clearInterval. unfold_M.
  destruct (timerInterval s) eqn:E1; simpl;
    destruct (timeLimitInterval s) eqn:E2; simpl;
    eexists; (split; [reflexivity|]); simpl; rewrite ?E1, ?E2; repeat split; done.
Qed.

Lemma saveToLeaderboard_run finalScore finalTime finalMoves clock s :
  let entry := {| score := finalScore; time := finalTime; entryMoves := finalMoves;
                  difficulty := currentDifficulty s; date := localeDate clock |} in
  let l := take 5 (sortByScore (leaderboard s ++ [entry])) in
  saveToLeaderboard finalScore finalTime finalMoves clock s =
    (Normal tt,
     set_storage (Some (JSON.stringify (leaderboardToJSON l))) (set_leaderboard l s)).
Proof. reflexivity. Qed.

Lemma endGame_fields timeUp clock s :
  ∃ s', endGame timeUp clock s = (Normal tt, s') ∧
    gameActive s' = false ∧
    timerInterval s' = None ∧ timeLimitInterval s' = None ∧
    sounds s' = sounds s ++ (if timeUp then [] else ["complete"]) ∧
    leaderboard s' =
      (if checkHighScore (leaderboard s) (scoreText s)
       then take 5 (sortByScore (leaderboard s ++
              [{| score := scoreText s; time := timerText s; entryMoves := moves s;
                  difficulty := currentDifficulty s; date := localeDate clock |}]))
       else leaderboard s) ∧
    cards s' = cards s ∧ flippedCards s' = flippedCards s ∧
    matchedPairs s' = matchedPairs s ∧ moves s' = moves s ∧
    startTime s' = startTime s ∧
    gamePaused s' = gamePaused s ∧ pauseStartTime s' = pauseStartTime s ∧
    totalPauseTime s' = totalPauseTime s ∧
    currentDifficulty s' = currentDifficulty s ∧ timeLimit s' = timeLimit s ∧
    heap s' = heap s ∧ timeouts s' = timeouts s ∧
    timerText s' = timerText s ∧
    movesText s' = movesText s ∧ scoreText s' = scoreText s.
Proof.
  unfold endGame.
  destruct (stopTimer_fields (set_gameActive false s)) as (s1 & Hs1 & F).
  simpl in F. decompose [and] F. clear F.
  unfold mbind, M_bind at 1. unfold modify at 1.
  unfold mbind, M_bind at 1. rewrite Hs1.
  destruct timeUp; exec;
    repeat match goal with H : _ s1 = _ |- _ => rewrite H end;
    destruct (checkHighScore (leaderboard s) (scoreText s)) eqn:E; exec;
    eexists; (split; [reflexivity|]); simpl;
    repeat match goal with H : _ s1 = _ |- _ => rewrite H end;
    rewrite ?app_nil_r; repeat split; done.
Qed.

Lemma updateScore_run clock s config :
  difficultyConfigs !! currentDifficulty s = Some config →
  updateScore clock s =
    (Normal tt,
     set_scoreText
       (scoreFormula config (matchedPairs s) (moves s) (startTime s) clock) s).
Proof.
  intros H. unfold updateScore, getConfig. exec. rewrite H. reflexivity.
Qed.

Lemma checkForMatch_match clock s card1 card2 c1 c2 rest :
  flippedCards s = card1 :: card2 :: rest →
  heap s !! card1 = Some c1 → heap s !! card2 = Some c2 →
  symbol c1 = symbol c2 →
  checkForMatch clock s =
    (Normal tt,
     set_timeouts (timeouts s ++
        [{| setAt := now clock; delay := 500; callback := MatchReveal card1 card2 |}])
       (set_sounds (sounds s ++ ["match"]) s)).
Proof.
  intros Hf H1 H2 Hsym. unfold checkForMatch, readCard. exec.
  rewrite Hf, H1. simpl. rewrite H2. simpl.
  rewrite decide_True by done. reflexivity.
Qed.

Lemma checkForMatch_differ clock s card1 card2 c1 c2 rest :
  flippedCards s = card1 :: card2 :: rest →
  heap s !! card1 = Some c1 → heap s !! card2 = Some c2 →
  symbol c1 ≠ symbol c2 →
  checkForMatch clock s =
    (Normal tt,
     set_timeouts (timeouts s ++
        [{| setAt := now clock; delay := flipBackDelay (currentDifficulty s);
            callback := FlipBack card1 card2 |}]) s).
Proof.
  intros Hf H1 H2 Hsym. unfold checkForMatch, readCard. exec.
  rewrite Hf, H1. simpl. rewrite H2. simpl.
  rewrite decide_False by done. reflexivity.
Qed.

Lemma matchReveal_fields card1 card2 clock s config :
  difficultyConfigs !! currentDifficulty s = Some config →
  ∃ s', matchReveal card1 card2 clock s = (Normal tt, s') ∧
    heap s' = alter (setMatched true) card2 (alter (setMatched true) card1 (heap s)) ∧
    matchedPairs s' = S (matchedPairs s) ∧
    flippedCards s' = [] ∧
    scoreText s' =
      scoreFormula config (S (matchedPairs s)) (moves s) (startTime s) clock ∧
    moves s' = moves s ∧ cards s' = cards s ∧
    gamePaused s' = gamePaused s ∧ startTime s' = startTime s ∧
    currentDifficulty s' = currentDifficulty s ∧
    (S (matchedPairs s) = Config.pairs config →
       gameActive s' = false ∧ timerInterval s' = None ∧
       timeLimitInterval s' = None ∧ sounds s' = sounds s ++ ["complete"]) ∧
    (S (matchedPairs s) ≠ Config.pairs config →
       gameActive s' = gameActive s ∧ timerInterval s' = timerInterval s ∧
       timeLimitInterval s' = timeLimitInterval s ∧ sounds s' = sounds s ∧
       intervals s' = intervals s ∧ leaderboard s' = leaderboard s ∧
       storage s' = storage s).
Proof.
  intros Hcfg. unfold matchReveal, updateScore, getConfig. exec.
  rewrite Hcfg. simpl. rewrite Hcfg. simpl.
  case_bool_decide as Hp; simpl.
  - match goal with |- context [endGame false clock ?s0] =>
      destruct (endGame_fields false clock s0) as (s' & Hs' & F) end.
    simpl in F. decompose [and] F. clear F.
    exists s'. split; [exact Hs'|].
    repeat split; try done. all: by rewrite <- Hp in *.
  - eexists. split; [reflexivity|]. simpl. repeat split; done.
Qed.

Lemma flipBack_run card1 card2 s :
  flipBack card1 card2 s =
    (Normal tt,
     set_flippedCards []
       (set_heap (alter (setFlipped false) card2
                   (alter (setFlipped false) card1 (heap s))) s)).
Proof. reflexivity. Qed.

(** ** Pair evaluation *)

(** C2. With two cards face up, [checkForMatch] schedules one callback.
    Equal symbols: the "match" sound is played and the callback is due after
    500 ms; when it runs, both cards are matched, [matchedPairs] grows by
    exactly one, [flippedCards] is empty, the score text is recomputed, and
    when [matchedPairs] has reached the pair count the game ends (inactive,
    both timers stopped). Different symbols: the callback is due after
    1000 ms (easy), 750 ms (medium) or 600 ms (hard); when it runs, both
    cards are face down and [flippedCards] is empty, while [moves],
    [matchedPairs] and every card's matched flag are as before. *)
Theorem checkForMatch_resolves s clock card1 card2 c1 c2 :
  flippedCards s = [card1; card2] →
  heap s !! card1 = Some c1 →
  heap s !! card2 = Some c2 →
  (symbol c1 = symbol c2 →
     checkForMatch clock s =
       (Normal tt,
        set_timeouts (timeouts s ++
          [{| setAt := now clock; delay := 500;
              callback := MatchReveal card1 card2 |}])
          (set_sounds (sounds s ++ ["match"]) s)) ∧
     ∀ s1 clock1 config,
       difficultyConfigs !! currentDifficulty s1 = Some config →
       card1 < length (heap s1) → card2 < length (heap s1) →
       ∃ s2,
         runCallback (MatchReveal card1 card2) clock1 s1 = (Normal tt, s2) ∧
         isMatched <$> heap s2 !! card1 = Some true ∧
         isMatched <$> heap s2 !! card2 = Some true ∧
         matchedPairs s2 = S (matchedPairs s1) ∧
         flippedCards s2 = [] ∧
         moves s2 = moves s1 ∧
         scoreText s2 =
           scoreFormula config (matchedPairs s2) (moves s2) (startTime s2) clock1 ∧
         (matchedPairs s2 = Config.pairs config →
            gameActive s2 = false ∧ timerInterval s2 = None ∧
            timeLimitInterval s2 = None) ∧
         (matchedPairs s2 ≠ Config.pairs config →
            gameActive s2 = gameActive s1)) ∧
  (symbol c1 ≠ symbol c2 →
     checkForMatch clock s =
       (Normal tt,
        set_timeouts (timeouts s ++
          [{| setAt := now clock; delay := flipBackDelay (currentDifficulty s);
              callback := FlipBack card1 card2 |}]) s) ∧
     flipBackDelay "easy" = 1000%Z ∧ flipBackDelay "medium" = 750%Z ∧
     flipBackDelay "hard" = 600%Z ∧
     ∀ s1 clock1,
       card1 < length (heap s1) → card2 < length (heap s1) →
       ∃ s2,
         runCallback (FlipBack card1 card2) clock1 s1 = (Normal tt, s2) ∧
         isFlipped <$> heap s2 !! card1 = Some false ∧
         isFlipped <$> heap s2 !! card2 = Some false ∧
         flippedCards s2 = [] ∧
         moves s2 = moves s1 ∧
         matchedPairs s2 = matchedPairs s1 ∧
         (∀ a, isMatched <$> heap s2 !! a = isMatched <$> heap s1 !! a)).
Proof.
  intros Hf H1 H2. split.
  - intros Hsym. split; [by eapply checkForMatch_match|].
    intros s1 clock1 config Hcfg L1 L2. simpl.
    destruct (matchReveal_fields card1 card2 clock1 s1 config Hcfg)
      as (s2 & Hrun & Hheap & Hmp & Hfc & Hsc & Hmv & _ & _ & Hst & _ & Hend & Hgo).
    exists s2. split; [exact Hrun|].
    destruct (lookup_alter_flag (setMatched true) isMatched true (heap s1)
                card1 card2 (λ _, eq_refl) L1) as [A1 A2].
    rewrite Hheap, Hmp, Hmv, Hst.
    split; [exact A1|]. split; [by apply A2|].
    do 4 (split; [done|]). split.
    + intros E. by destruct (Hend E) as (? & ? & ? & ?).
    + intros E. by destruct (Hgo E) as (? & _).
  - intros Hsym. split; [by eapply checkForMatch_differ|].
    do 3 (split; [reflexivity|]).
    intros s1 clock1 L1 L2. simpl. rewrite flipBack_run.
    eexists. split; [reflexivity|]. simpl.
    destruct (lookup_alter_flag (setFlipped false) isFlipped false (heap s1)
                card1 card2 (λ _, eq_refl) L1) as [A1 A2].
    split; [exact A1|]. split; [by apply A2|].
    do 3 (split; [done|]).
    intros a. by apply lookup_alter_other.
Qed.

Lemma checkForMatch_resolves_witness :
  let s := (handle (Click 1) (atTime 1100)
              (handle (Click 0) (atTime 1000) freshGame).2).2 in
  flippedCards s = [0; 1] ∧
  ∃ s2, runCallback (MatchReveal 0 1) (atTime 1700) s = (Normal tt, s2) ∧
        matchedPairs s2 = S (matchedPairs s) ∧ flippedCards s2 = [].
Proof.
  intros s. split; [by vm_compute|].
  destruct (checkForMatch_resolves s (atTime 1100) 0 1
              (setFlipped true (newCard 0 (Some "🎯")))
              (setFlipped true (newCard 1 (Some "🎯")))) as [Hmatch _];
    [by vm_compute..|].
  destruct (Hmatch eq_refl) as [_ Hreveal].
  destruct (Hreveal s (atTime 1700) medium)
    as (s2 & Hrun & _ & _ & Hmp & Hfc & _).
  - by vm_compute.
  - apply Nat.ltb_lt. by vm_compute.
  - apply Nat.ltb_lt. by vm_compute.
  - exists s2. split; [exact Hrun|]. split; [exact Hmp | exact Hfc].
Defined.

(** ** Score *)

Lemma Qfloor_unique (x : Q) (z : Z) :
  (inject_Z z <= x)%Q → (x < inject_Z (z + 1))%Q → Qfloor x = z.
Proof.
  intros H1 H2.
  pose proof (Qfloor_le x) as F1. pose proof (Qlt_floor x) as F2.
  assert (inject_Z z < inject_Z (Qfloor x + 1))%Q as A by (eapply Qle_lt_trans; eauto).
  assert (inject_Z (Qfloor x) < inject_Z (z + 1))%Q as B by (eapply Qle_lt_trans; eauto).
  rewrite <- Zlt_Qlt in A, B. lia.
Qed.

Lemma Qfloor_add_Z (a : Z) (q : Q) : Qfloor (inject_Z a + q) = (a + Qfloor q)%Z.
Proof.
  apply Qfloor_unique.
  - rewrite inject_Z_plus. apply Qplus_le_r. apply Qfloor_le.
  - replace (a + Qfloor q + 1)%Z with (a + (Qfloor q + 1))%Z by lia.
    rewrite inject_Z_plus. apply Qplus_lt_r. apply Qlt_floor.
Qed.

Lemma Qmax_inject_Z (a b : Z) : (Qmax (inject_Z a) (inject_Z b) == inject_Z (Z.max a b))%Q.
Proof.
  destruct (Z.le_ge_cases a b) as [H|H].
  - rewrite Z.max_r by done. apply Q.max_r. by rewrite <- Zle_Qle.
  - rewrite Z.max_l by done. apply Q.max_l. by rewrite <- Zle_Qle.
Qed.

Lemma Qfloor_max0 (q : Q) : Qfloor (Qmax 0 q) = Z.max 0 (Qfloor q).
Proof.
  destruct (Qlt_le_dec q 0) as [H|H].
  - rewrite (Qfloor_comp (Qmax 0 q) 0).
    + assert (Qfloor q ≤ 0)%Z.
      { change 0%Z with (Qfloor 0). apply Qfloor_resp_le. by apply Qlt_le_weak. }
      change (Qfloor 0) with 0%Z. lia.
    + apply Q.max_l. by apply Qlt_le_weak.
  - rewrite (Qfloor_comp (Qmax 0 q) q) by by apply Q.max_r.
    assert (0 ≤ Qfloor q)%Z.
    { change 0%Z with (Qfloor 0). by apply Qfloor_resp_le. }
    lia.
Qed.

Lemma scoreFormula_integer config matched moved start clock :
  scoreFormula config matched moved start clock =
  (Z.of_nat matched * 100
   + Z.max 0 ((Config.timeLimit config * 1000 - (now clock - toNumber start)) `div` 1000)
   + Z.max 0 (Z.of_nat (Config.pairs config) * 2 - Z.of_nat moved))%Z.
Proof.
  unfold scoreFormula.
  set (e := (now clock - toNumber start)%Z).
  set (A := (Z.of_nat matched * 100)%Z).
  set (B := (Z.of_nat (Config.pairs config) * 2 - Z.of_nat moved)%Z).
  set (L := Config.timeLimit config).
  rewrite (Qfloor_comp _ (inject_Z (A + Z.max 0 B) + Qmax 0 (inject_Z L - inject_Z e / inject_Z 1000))%Q).
  - rewrite Qfloor_add_Z, Qfloor_max0.
    rewrite (Qfloor_comp _ (inject_Z (L * 1000 - e) / inject_Z 1000)%Q).
    + rewrite <- Zdiv_Qdiv. lia.
    + unfold Z.sub. rewrite !inject_Z_plus, !inject_Z_opp, inject_Z_mult. field.
  - rewrite inject_Z_plus. change 0%Q with (inject_Z 0) at 2.
    rewrite (Qmax_inject_Z 0 B). ring.
Qed.

(** C4. [updateScore] writes the floor of [matchedPairs * 100 + max(0,
    timeLimit - elapsed) + max(0, pairs * 2 - moves)] to the score element,
    where [elapsed] is the wall-clock time since [startTime] in seconds: the
    pause fields do not enter. In integers this is [matchedPairs * 100 +
    max(0, floor((timeLimit * 1000 - elapsedMs) / 1000)) + max(0, pairs * 2 -
    moves)]. On easy with 8 pairs matched, 16 moves and no time elapsed the
    score is 1100. *)
Theorem updateScore_formula s clock config :
  difficultyConfigs !! currentDifficulty s = Some config →
  ∃ s',
    updateScore clock s = (Normal tt, s') ∧
    s' = set_scoreText (scoreText s') s ∧
    scoreText s' =
      specScore (Z.of_nat (matchedPairs s)) (Config.timeLimit config)
        (Z.of_nat (Config.pairs config)) (Z.of_nat (moves s))
        (elapsedSeconds (startTime s) clock) ∧
    scoreText s' =
      (Z.of_nat (matchedPairs s) * 100
       + Z.max 0 ((Config.timeLimit config * 1000
                   - (now clock - toNumber (startTime s))) `div` 1000)
       + Z.max 0 (Z.of_nat (Config.pairs config) * 2 - Z.of_nat (moves s)))%Z ∧
    (∀ paused since,
       scoreText (updateScore clock
                    (set_totalPauseTime paused (set_pauseStartTime since s))).2
       = scoreText s') ∧
    (currentDifficulty s = "easy" → matchedPairs s = 8 → moves s = 16 →
     now clock = toNumber (startTime s) → scoreText s' = 1100%Z).
Proof.
  intros Hcfg. eexists. split; [by apply updateScore_run|]. simpl.
  split; [reflexivity|]. split; [reflexivity|].
  split; [apply scoreFormula_integer|]. split.
  - intros paused since. by erewrite updateScore_run.
  - intros Hd Hm Hv Ht. rewrite Hd in Hcfg.
    injection Hcfg as <-. rewrite scoreFormula_integer, Hm, Hv, Ht.
    rewrite Z.sub_diag. reflexivity.
Qed.

Lemma updateScore_formula_witness :
  ∃ s', updateScore (atTime 5000)
          (set_currentDifficulty "easy" (set_matchedPairs 8 (set_moves 16
             (set_startTime (Some 5000%Z) freshGame)))) = (Normal tt, s') ∧
        scoreText s' = 1100%Z.
Proof.
  destruct (updateScore_formula
              (set_currentDifficulty "easy" (set_matchedPairs 8 (set_moves 16
                 (set_startTime (Some 5000%Z) freshGame))))
              (atTime 5000) easy) as (s' & H & _ & _ & _ & _ & Hex).
  - reflexivity.
  - exists s'. split; [exact H|]. apply Hex; reflexivity.
Defined.

(** ** Leaderboard *)

Lemma insertByScore_Permutation x l : insertByScore x l ≡ₚ x :: l.
Proof.
  induction l as [|y l IH]; simpl; [done|].
  case_bool_decide; [|done].
  rewrite IH. apply Permutation_swap.
Qed.

Lemma insertByScore_sorted x l :
  StronglySorted byScore l → StronglySorted byScore (insertByScore x l).
Proof.
  induction 1 as [|y l Hs IH Hy]; simpl.
  - repeat constructor.
  - case_bool_decide as Hle.
    + constructor; [done|].
      rewrite insertByScore_Permutation. by constructor.
    + constructor; [by constructor|].
      constructor; [unfold byScore; lia|].
      eapply Forall_impl; [exact Hy|]. unfold byScore. intros z. lia.
Qed.

Lemma foldl_insert_Permutation l acc :
  foldl (λ sorted x, insertByScore x sorted) acc l ≡ₚ acc ++ l.
Proof.
  revert acc. induction l as [|x l IH]; intros acc; simpl.
  - by rewrite app_nil_r.
  - rewrite IH, insertByScore_Permutation. by rewrite <- Permutation_middle.
Qed.

Lemma foldl_insert_sorted l acc :
  StronglySorted byScore acc →
  StronglySorted byScore (foldl (λ sorted x, insertByScore x sorted) acc l).
Proof.
  revert acc. induction l as [|x l IH]; intros acc Hacc; simpl; [done|].
  apply IH. by apply insertByScore_sorted.
Qed.

Lemma sortByScore_Permutation l : sortByScore l ≡ₚ l.
Proof. unfold sortByScore. by rewrite foldl_insert_Permutation. Qed.

Lemma sortByScore_sorted l : StronglySorted byScore (sortByScore l).
Proof. apply foldl_insert_sorted. constructor. Qed.

Lemma take_sorted n (l : list Entry) :
  StronglySorted byScore l → StronglySorted byScore (take n l).
Proof.
  intros H. rewrite <- (take_drop n l) in H.
  by apply StronglySorted_app_1_l in H.
Qed.

Lemma checkHighScore_spec l finalScore :
  checkHighScore l finalScore = true ↔
  length l < 5 ∨ ∃ lowest, last l = Some lowest ∧ (score lowest < finalScore)%Z.
Proof.
  unfold checkHighScore. rewrite orb_true_iff, Nat.ltb_lt.
  split; intros [H|H]; try (by left); right.
  - destruct (last l) as [e|]; [|done].
    exists e. split; [done|]. by apply bool_decide_eq_true in H.
  - destruct H as (e & -> & H). by apply bool_decide_eq_true.
Qed.

(** On a leaderboard sorted by descending score the last entry has the
    lowest score. *)
Lemma last_lowest l lowest e :
  StronglySorted byScore l → last l = Some lowest → e ∈ l →
  (score lowest ≤ score e)%Z.
Proof.
  induction 1 as [|y l Hs IH Hy]; intros Hlast He; [by inversion He|].
  destruct l as [|z l].
  - simpl in Hlast. injection Hlast as <-.
    apply list_elem_of_singleton in He as ->. lia.
  - change (last (y :: z :: l)) with (last (z :: l)) in Hlast.
    apply elem_of_cons in He as [->|He].
    + rewrite Forall_forall in Hy. apply Hy.
      rewrite last_lookup in Hlast. by eapply list_elem_of_lookup_2.
    + by apply IH.
Qed.

Lemma submit_example l (x : Entry) :
  score <$> l = [1500; 1000; 500]%Z → score x = 1200%Z →
  score <$> take 5 (sortByScore (l ++ [x])) = [1500; 1200; 1000; 500]%Z.
Proof.
  intros Hl Hx.
  destruct l as [|a [|b [|c [|d l]]]]; try discriminate.
  simpl in Hl. injection Hl as Ha Hb Hc.
  unfold sortByScore. simpl.
  repeat (progress (rewrite ?Ha, ?Hb, ?Hc, ?Hx; simpl)).
  reflexivity.
Qed.

(** What [saveToLeaderboard] writes is JSON text again: the board of the
    example below loads back as the array that was saved. *)
Example saved_blob_loads :
  let board := [{| score := 1500; time := "01:00"; entryMoves := 10;
                   difficulty := "easy"; date := "1/1/2026" |}] in
  let s := (saveToLeaderboard 1200 "01:30" 12 (atTime 0)
              (set_leaderboard board freshGame)).2 in
  loadLeaderboard (storage s) = Normal (leaderboardToJSON (leaderboard s)).
Proof. by vm_compute. Qed.

(** C5. [checkHighScore] is true exactly when the leaderboard has fewer
    than five entries or the score is strictly above the score of its last
    entry, which on a board in descending order is the lowest one.
    [saveToLeaderboard] appends the entry, sorts by descending score, keeps
    the first five and writes the result to localStorage: the new board is
    a sorted selection of the old entries and the new one, of length at most
    five. A board with scores 1500, 1000, 500 that receives 1200 has scores
    1500, 1200, 1000, 500. *)
Theorem leaderboard_submit :
  (∀ l finalScore,
     (checkHighScore l finalScore = true ↔
      length l < 5 ∨
      ∃ lowest, last l = Some lowest ∧ (score lowest < finalScore)%Z) ∧
     (StronglySorted byScore l →
      ∀ lowest e, last l = Some lowest → e ∈ l → (score lowest ≤ score e)%Z)) ∧
  (∀ finalScore finalTime finalMoves clock s,
     let entry := {| score := finalScore; time := finalTime;
                     entryMoves := finalMoves;
                     difficulty := currentDifficulty s;
                     date := localeDate clock |} in
     ∃ s',
       saveToLeaderboard finalScore finalTime finalMoves clock s = (Normal tt, s') ∧
       s' = set_storage (storage s') (set_leaderboard (leaderboard s') s) ∧
       leaderboard s' = take 5 (sortByScore (leaderboard s ++ [entry])) ∧
       sortByScore (leaderboard s ++ [entry]) ≡ₚ leaderboard s ++ [entry] ∧
       StronglySorted byScore (sortByScore (leaderboard s ++ [entry])) ∧
       storage s' = Some (JSON.stringify (leaderboardToJSON (leaderboard s'))) ∧
       StronglySorted byScore (leaderboard s') ∧
       length (leaderboard s') ≤ 5 ∧
       (score <$> leaderboard s = [1500; 1000; 500]%Z → finalScore = 1200%Z →
        score <$> leaderboard s' = [1500; 1200; 1000; 500]%Z)).
Proof.
  split.
  - intros l finalScore. split; [apply checkHighScore_spec|].
    intros Hs lowest e. by apply last_lowest.
  - intros finalScore finalTime finalMoves clock s entry.
    eexists. split; [apply saveToLeaderboard_run|]. simpl.
    split; [reflexivity|]. split; [reflexivity|].
    split; [apply sortByScore_Permutation|].
    split; [apply sortByScore_sorted|].
    split; [reflexivity|].
    split; [apply take_sorted, sortByScore_sorted|].
    split; [rewrite length_take; lia|].
    intros Hl Hx. by apply submit_example.
Qed.

Lemma leaderboard_submit_witness :
  let board := [{| score := 1500; time := "01:00"; entryMoves := 10;
                   difficulty := "easy"; date := "1/1/2026" |};
                {| score := 1000; time := "02:00"; entryMoves := 14;
                   difficulty := "hard"; date := "1/2/2026" |};
                {| score := 500; time := "03:00"; entryMoves := 20;
                   difficulty := "medium"; date := "1/3/2026" |}] in
  checkHighScore board 1200 = true ∧
  ∃ s', saveToLeaderboard 1200 "01:30" 12 (atTime 0)
          (set_leaderboard board freshGame) = (Normal tt, s') ∧
        score <$> leaderboard s' = [1500; 1200; 1000; 500]%Z.
Proof.
  intros board. destruct leaderboard_submit as [Hcheck Hsave]. split.
  - apply (Hcheck board 1200%Z). left. simpl. lia.
  - destruct (Hsave 1200%Z "01:30" 12 (atTime 0) (set_leaderboard board freshGame))
      as (s' & Hrun & _ & _ & _ & _ & _ & _ & _ & Hex).
    exists s'. split; [exact Hrun|]. apply Hex; reflexivity.
Defined.

(** ** Flip requests that are refused *)

(** [startGame] leaves the board alone, whether it completes or throws. *)
Lemma startGame_frame clock s :
  sameBoard s (startGame clock s).2 ∧
  (gameActive s = false →
   gameActive (startGame clock s).2 = true ∧
   startTime (startGame clock s).2 = Some (now clock)).
Proof.
  unfold startGame, startTimer, startTimeLimit, getConfig, sameBoard. exec.
  destruct (gameActive s) eqn:Ha; simpl.
  - repeat split; done.
  - destruct (difficultyConfigs !! currentDifficulty s); simpl; repeat split; done.
Qed.

Lemma flipCard_rejected_active card clock s :
  rejected card s → gameActive s = true → flipCard card clock s = (Normal tt, s).
Proof.
  intros Hr Ha. unfold flipCard, readCard. exec. rewrite Ha. simpl.
  destruct (gamePaused s) eqn:Hp; [done|].
  destruct Hr as [Hr|(c & Hc & Hr)]; [congruence|].
  rewrite Hc. simpl.
  destruct Hr as [->|[->|Hr]]; simpl; rewrite ?orb_true_r; try done.
  destruct (flippedCards s) as [|? [|? ?]]; simpl in Hr; try lia.
  by rewrite !orb_true_r.
Qed.

Lemma flipCard_rejected_inactive card clock s :
  rejected card s → gameActive s = false →
  flipCard card clock s = startGame clock s.
Proof.
  intros Hr Ha.
  destruct (startGame_frame clock s) as [(Hc & Hh & Hf & _ & _ & Hp & _) _].
  unfold flipCard, readCard.
  unfold mbind at 1. unfold M_bind at 1. unfold get at 1.
  unfold mbind at 1. unfold M_bind at 1. rewrite Ha. simpl.
  destruct (startGame clock s) as [[[]|e] s1] eqn:E; [|done].
  simpl in *. exec. rewrite Hp.
  destruct (gamePaused s) eqn:Hps; [done|]. simpl. rewrite Hh, Hf.
  destruct Hr as [Hr|(c & Hcard & Hr)]; [congruence|].
  rewrite Hcard. simpl.
  destruct Hr as [->|[->|Hr]]; simpl; rewrite ?orb_true_r; try done.
  destruct (flippedCards s) as [|? [|? ?]]; simpl in Hr; try lia.
  by rewrite !orb_true_r.
Qed.

Lemma resetStats_fields s :
  ∃ s', resetStats s = (Normal tt, s') ∧
    moves s' = 0 ∧ matchedPairs s' = 0 ∧ flippedCards s' = [] ∧
    gameActive s' = false ∧ gamePaused s' = false ∧
    startTime s' = None ∧ pauseStartTime s' = None ∧
    totalPauseTime s' = 0%Z ∧ timeLimit s' = None ∧
    timerInterval s' = None ∧ timeLimitInterval s' = None ∧
    timerText s' = "00:00" ∧ movesText s' = 0 ∧ scoreText s' = 0%Z ∧
    cards s' = cards s ∧ heap s' = heap s ∧
    currentDifficulty s' = currentDifficulty s ∧
    leaderboard s' = leaderboard s ∧ storage s' = storage s ∧
    timeouts s' = timeouts s ∧ sounds s' = sounds s.
Proof.
  unfold resetStats. exec.
  match goal with |- context [stopTimer ?s0] =>
    destruct (stopTimer_fields s0) as (s' & Hs' & F) end.
  simpl in F. decompose [and] F. clear F.
  exists s'. split; [exact Hs'|]. repeat split; done.
Qed.

Lemma resetGame_fields s :
  ∃ s', resetGame s = (Normal tt, s') ∧ resetStats s = (Normal tt, s').
Proof.
  destruct (resetStats_fields s) as (s' & Hs' & _).
  exists s'. split; [|done]. unfold resetGame, createCardGrid, hideModal.
  unfold mbind, M_bind. rewrite Hs'. reflexivity.
Qed.

Lemma changeDifficulty_unknown name random s :
  difficultyConfigs !! name = None →
  ∃ s', changeDifficulty name random s = (Throw TypeError, s') ∧
        resetStats (set_currentDifficulty name s) = (Normal tt, s').
Proof.
  intros Hn.
  destruct (resetStats_fields (set_currentDifficulty name s)) as (s' & Hs' & F).
  simpl in F. decompose [and] F. clear F.
  exists s'. split; [|done].
  unfold changeDifficulty, shuffleCards, getConfig.
  unfold mbind at 1. unfold M_bind at 1. unfold modify at 1.
  unfold mbind at 1. unfold M_bind at 1. rewrite Hs'.
  exec. match goal with H : currentDifficulty s' = _ |- _ => rewrite H end.
  by rewrite Hn.
Qed.

Lemma unknown_name name :
  name ≠ "easy" → name ≠ "medium" → name ≠ "hard" →
  difficultyConfigs !! name = None.
Proof.
  intros. unfold difficultyConfigs.
  by rewrite !lookup_insert_ne, lookup_empty.
Qed.

(** C3 (as the code has it). A flip request in one of the refusing cases
    (paused, card face up or matched, two cards face up) leaves the whole
    session unchanged and emits nothing when the game is active. When the
    game is not active, [flipCard] has started it before it looks at the
    card: the request then does exactly what [startGame] does (active flag,
    start time, countdown and both interval timers) and nothing else: cards,
    counters, pause fields, texts and sounds are untouched. *)
Theorem flipCard_rejected card clock s :
  rejected card s →
  (gameActive s = true → flipCard card clock s = (Normal tt, s)) ∧
  (gameActive s = false →
     flipCard card clock s = startGame clock s ∧
     sameBoard s (flipCard card clock s).2 ∧
     gameActive (flipCard card clock s).2 = true ∧
     startTime (flipCard card clock s).2 = Some (now clock)).
Proof.
  intros Hr. split; intros Ha.
  - by apply flipCard_rejected_active.
  - rewrite flipCard_rejected_inactive by done.
    destruct (startGame_frame clock s) as [Hb Hs].
    destruct (Hs Ha) as [H1 H2]. done.
Qed.

Lemma flipCard_rejected_witness :
  let s := (handle (Click 0) (atTime 1000) freshGame).2 in
  flipCard 0 (atTime 1500) s = (Normal tt, s).
Proof.
  intros s.
  refine (proj1 (flipCard_rejected 0 (atTime 1500) s _) _).
  - right. exists (setFlipped true (newCard 0 (Some "🎯"))).
    split; [by vm_compute|]. by left.
  - by vm_compute.
Defined.

(** C3 as stated fails: after a click on card 0 and a reset the card is
    still face up and the game is inactive; a second click on it is refused
    as a flip, yet it starts the game (active flag, start time, timers). *)
Lemma flipCard_rejected_counterexample :
  ∃ s, run 0 [(Click 0, atTime 1000); (ResetRequest, atTime 1500)] freshGame
       = Some s ∧
       cards s !! 0 = Some 0 ∧
       rejected 0 s ∧
       flipCard 0 (atTime 3000) s ≠ (Normal tt, s) ∧
       gameActive s = false ∧
       gameActive (flipCard 0 (atTime 3000) s).2 = true ∧
       startTime s = None ∧
       startTime (flipCard 0 (atTime 3000) s).2 = Some 3000%Z ∧
       intervals s = [] ∧
       intervals (flipCard 0 (atTime 3000) s).2
         = [(3%positive, TimerTick); (4%positive, TimeLimitTick)].
Proof.
  eexists. split; [vm_compute; reflexivity|].
  split; [by vm_compute|]. split.
  { right. exists (setFlipped true (newCard 0 (Some "🎯"))).
    split; [by vm_compute|]. by left. }
  split.
  { intros H. apply (f_equal (λ p, gameActive p.2)) in H.
    vm_compute in H. discriminate. }
  repeat split; by vm_compute.
Qed.

(** ** Unknown difficulty names *)

(** C8 (as the code has it). A name that is no property of the table looks
    up as [undefined], without an error. [changeDifficulty] with such a name
    first stores the name in [currentDifficulty] and resets the statistics,
    and then fails with the TypeError [shuffleCards] raises on the
    [undefined] configuration; the deck is left as it was. *)
Theorem changeDifficulty_unknown_name name random s :
  name ≠ "easy" → name ≠ "medium" → name ≠ "hard" →
  name ∉ objectPrototypeNames →
  difficultyConfigs !! name = None ∧
  ∃ s',
    changeDifficulty name random s = (Throw TypeError, s') ∧
    resetStats (set_currentDifficulty name s) = (Normal tt, s') ∧
    currentDifficulty s' = name ∧
    moves s' = 0 ∧ matchedPairs s' = 0 ∧ flippedCards s' = [] ∧
    gameActive s' = false ∧ gamePaused s' = false ∧
    startTime s' = None ∧ timeLimit s' = None ∧
    timerInterval s' = None ∧ timeLimitInterval s' = None ∧
    cards s' = cards s ∧ heap s' = heap s ∧
    leaderboard s' = leaderboard s ∧ storage s' = storage s.
Proof.
  intros H1 H2 H3 _.
  pose proof (unknown_name name H1 H2 H3) as Hn. split; [exact Hn|].
  destruct (changeDifficulty_unknown name random s Hn) as (s' & Hrun & Hreset).
  destruct (resetStats_fields (set_currentDifficulty name s)) as (s1 & Hs1 & F).
  rewrite Hreset in Hs1. injection Hs1 as <-.
  simpl in F. decompose [and] F. clear F.
  exists s'. repeat split; done.
Qed.

Lemma changeDifficulty_unknown_name_witness :
  ∃ s', changeDifficulty "expert" noSwap freshGame = (Throw TypeError, s') ∧
        currentDifficulty s' = "expert" ∧ cards s' = cards freshGame.
Proof.
  destruct (changeDifficulty_unknown_name "expert" noSwap freshGame)
    as (_ & s' & Hrun & _ & Hd & F); [done|done|done| |].
  - unfold objectPrototypeNames. rewrite !elem_of_cons, elem_of_nil.
    intros H. repeat (destruct H as [H|H]; [discriminate H|]). exact H.
  - exists s'. split; [exact Hrun|]. split; [exact Hd|].
    decompose [and] F. done.
Defined.

(** C8 as stated fails: looking up "expert" raises nothing, and
    [changeDifficulty "expert"] on a running game ends in a TypeError
    after the session has been changed (difficulty name stored, game
    stopped and counters reset). *)
Lemma changeDifficulty_counterexample :
  ∃ s, run 0 [(Click 0, atTime 1000)] freshGame = Some s ∧
       difficultyConfigs !! "expert" = None ∧
       (changeDifficulty "expert" noSwap s).1 = Throw TypeError ∧
       (changeDifficulty "expert" noSwap s).2 ≠ s ∧
       currentDifficulty s = "medium" ∧
       currentDifficulty (changeDifficulty "expert" noSwap s).2 = "expert" ∧
       gameActive s = true ∧
       gameActive (changeDifficulty "expert" noSwap s).2 = false ∧
       flippedCards s = [0] ∧
       flippedCards (changeDifficulty "expert" noSwap s).2 = [].
Proof.
  eexists. split; [vm_compute; reflexivity|].
  split; [by vm_compute|]. split; [by vm_compute|]. split.
  { intros H. apply (f_equal gameActive) in H. vm_compute in H. discriminate. }
  repeat split; by vm_compute.
Qed.

(** ** Loading the leaderboard *)

(** C9 (as the code has it). With no blob, or an empty one, the leaderboard
    is the empty array. A blob that is JSON text gives the value it denotes.
    A blob that is not JSON text makes [loadLeaderboard] throw the
    SyntaxError of [JSON.parse]. *)
Theorem loadLeaderboard_cases :
  loadLeaderboard None = Normal (JSON.Array []) ∧
  loadLeaderboard (Some "") = Normal (JSON.Array []) ∧
  (∀ text v, text ≠ "" → JSON.parse text = Some v →
     loadLeaderboard (Some text) = Normal v) ∧
  (∀ text, text ≠ "" → JSON.parse text = None →
     loadLeaderboard (Some text) = Throw SyntaxError).
Proof.
  repeat split.
  - intros text v Hne Hp. destruct text; [done|]. simpl. by rewrite Hp.
  - intros text Hne Hp. destruct text; [done|]. simpl. by rewrite Hp.
Qed.

Lemma loadLeaderboard_cases_witness :
  loadLeaderboard (Some "[]") = Normal (JSON.Array []) ∧
  loadLeaderboard (Some "[1500,1000") = Throw SyntaxError.
Proof.
  destruct loadLeaderboard_cases as (_ & _ & Hok & Hbad). split.
  - apply Hok; [discriminate | reflexivity].
  - apply Hbad; [discriminate | reflexivity].
Defined.

(** C9 as stated fails: a blob cut off in the middle is corrupt, and
    loading it throws instead of giving the empty leaderboard. *)
Lemma loadLeaderboard_counterexample :
  JSON.parse "[1500,1000" = None ∧
  loadLeaderboard (Some "[1500,1000") = Throw SyntaxError ∧
  loadLeaderboard (Some "[1500,1000") ≠ Normal (JSON.Array []).
Proof. repeat split; [by vm_compute..|discriminate]. Qed.

(** ** Reset *)

(** C10. [resetGame] sets moves and matched pairs to 0, empties
    [flippedCards], clears the active and paused flags and every timing
    field, and stops both timers; [this.cards] and the card objects are not
    touched, so every card keeps its position, id, symbol and both flags: a
    card matched before the reset is still matched after it. *)
Theorem resetGame_keeps_deck s :
  ∃ s',
    resetGame s = (Normal tt, s') ∧
    moves s' = 0 ∧ matchedPairs s' = 0 ∧ flippedCards s' = [] ∧
    gameActive s' = false ∧ gamePaused s' = false ∧
    startTime s' = None ∧ pauseStartTime s' = None ∧
    totalPauseTime s' = 0%Z ∧ timeLimit s' = None ∧
    timerInterval s' = None ∧ timeLimitInterval s' = None ∧
    cards s' = cards s ∧ heap s' = heap s ∧ deck s' = deck s ∧
    (∀ i c, deck s !! i = Some c → isMatched c = true →
       ∃ c', deck s' !! i = Some c' ∧ c' = c ∧ isMatched c' = true).
Proof.
  destruct (resetGame_fields s) as (s' & Hrun & Hreset).
  destruct (resetStats_fields s) as (s1 & Hs1 & F).
  rewrite Hreset in Hs1. injection Hs1 as <-.
  decompose [and] F. clear F.
  assert (deck s' = deck s) as Hdeck.
  { unfold deck.
    replace (cards s') with (cards s) by done.
    replace (heap s') with (heap s) by done. done. }
  exists s'. repeat split; try done.
  intros i c Hc Hm. exists c. by rewrite Hdeck.
Qed.

(** ** Pause and resume *)

Lemma pauseGame_run clock s :
  gameActive s = true → gamePaused s = false →
  ∃ s', pauseGame clock s = (Normal tt, s') ∧
    gamePaused s' = true ∧ pauseStartTime s' = Some (now clock) ∧
    gameActive s' = true ∧
    timerInterval s' = None ∧ timeLimitInterval s' = None ∧
    totalPauseTime s' = totalPauseTime s ∧ timeLimit s' = timeLimit s ∧
    moves s' = moves s ∧ matchedPairs s' = matchedPairs s ∧
    currentDifficulty s' = currentDifficulty s.
Proof.
  intros Ha Hp. unfold pauseGame. exec. rewrite Ha, Hp. simpl.
  match goal with |- context [stopTimer ?s0] =>
    destruct (stopTimer_fields s0) as (s' & Hs' & F) end.
  simpl in F. decompose [and] F. clear F.
  exists s'. split; [exact Hs'|]. repeat split; congruence.
Qed.

Lemma resumeGame_run clock s since config :
  gamePaused s = true → pauseStartTime s = Some since → since ≠ 0%Z →
  difficultyConfigs !! currentDifficulty s = Some config →
  ∃ s', resumeGame clock s = (Normal tt, s') ∧
    gamePaused s' = false ∧ pauseStartTime s' = None ∧
    gameActive s' = gameActive s ∧
    totalPauseTime s' = (totalPauseTime s + (now clock - since))%Z ∧
    timeLimit s' = Some (Config.timeLimit config) ∧
    moves s' = moves s ∧ matchedPairs s' = matchedPairs s.
Proof.
  intros Hp Hs Hne Hcfg.
  unfold resumeGame, startTimer, startTimeLimit, getConfig. exec.
  rewrite Hp, Hs. simpl. rewrite bool_decide_eq_false_2 by done. simpl.
  rewrite Hcfg. simpl. eexists. split; [reflexivity|]. repeat split; done.
Qed.

(** The cycle in general: whatever the countdown showed when the game was
    paused, resuming sets it back to the full time limit. *)
Lemma pause_resume_cycle s clock1 clock2 config :
  gameActive s = true → gamePaused s = false → now clock1 ≠ 0%Z →
  difficultyConfigs !! currentDifficulty s = Some config →
  ∃ s1 s2,
    pauseGame clock1 s = (Normal tt, s1) ∧
    resumeGame clock2 s1 = (Normal tt, s2) ∧
    totalPauseTime s2 = (totalPauseTime s + (now clock2 - now clock1))%Z ∧
    moves s2 = moves s ∧ matchedPairs s2 = matchedPairs s ∧
    gameActive s2 = true ∧ gamePaused s2 = false ∧
    timeLimit s2 = Some (Config.timeLimit config).
Proof.
  intros Ha Hp Hne Hcfg.
  destruct (pauseGame_run clock1 s Ha Hp) as (s1 & Hrun1 & F1).
  decompose [and] F1. clear F1.
  destruct (resumeGame_run clock2 s1 (now clock1) config) as (s2 & Hrun2 & F2);
    [done|done|done|congruence|].
  decompose [and] F2. clear F2.
  exists s1, s2. repeat split; congruence.
Qed.

(** C7, evaluated: on medium the game runs for ten ticks, so 230 seconds
    remain; it is paused and resumed 5000 ms later. The pause time grows by
    exactly 5000 and moves and matched pairs are as before, but the
    countdown is back at 240: [resumeGame] calls [startTimeLimit], which
    reloads it from the configuration. *)
Theorem resume_resets_countdown :
  ∃ before after,
    run 0 tenSeconds freshGame = Some before ∧
    run 11000 pauseFiveSeconds before = Some after ∧
    gameActive before = true ∧ gamePaused before = false ∧
    gameActive after = true ∧ gamePaused after = false ∧
    totalPauseTime after = (totalPauseTime before + 5000)%Z ∧
    moves after = moves before ∧
    matchedPairs after = matchedPairs before ∧
    timeLimit before = Some 230%Z ∧
    timeLimit after = Some 240%Z.
Proof.
  eexists. eexists.
  split; [vm_compute; reflexivity|].
  split; [vm_compute; reflexivity|].
  repeat split; by vm_compute.
Qed.

(** ** The session invariant *)

Ltac unfold_engine :=
  unfold handle, runCallback, runInterval, flipCard, checkForMatch, readCard,
    matchReveal, flipBack, timerTick, timeLimitTick, endGame, updateScore,
    startGame, startTimer, startTimeLimit, stopTimer, getConfig,
    pauseGame, resumeGame, newGame, resetGame, changeDifficulty, resetStats,
    shuffleCards, createCardGrid, hideModal,
    saveToLeaderboard, saveLeaderboard, playSound, writeCard,
    setTimeout, setInterval, clearInterval, updateMovesDisplay,
    mbind, mret, M_bind, M_ret, get, modify, throw, when.

(** Case analysis on every test the handlers make, innermost first. *)
Ltac split_cases :=
  repeat (simpl in *;
    match goal with
    | |- context [match ?x with _ => _ end] =>
        lazymatch x with
        | context [match _ with _ => _ end] => fail
        | _ => destruct x eqn:?
        end
    end).

(** At most two cards are face up, whatever happens. *)
Lemma handle_flippedCards e clock s :
  length (flippedCards s) ≤ 2 →
  length (flippedCards (handle e clock s).2) ≤ 2.
Proof.
  intros H. destruct e; repeat (progress unfold_engine).
  all: split_cases; simpl; try lia.
  all: rewrite ?length_app in *; simpl in *;
    repeat match goal with
           | H : (_ =? _) = true |- _ => apply Nat.eqb_eq in H
           end; lia.
Qed.

(** Every event other than a reveal callback and a countdown tick keeps
    "paused implies active" ... *)
Lemma handle_pausedOnlyIfActive e clock s :
  quiet e s → pausedOnlyIfActive s → pausedOnlyIfActive (handle e clock s).2.
Proof.
  unfold pausedOnlyIfActive, quiet. intros Hq H.
  destruct e; repeat (progress unfold_engine).
  all: split_cases; simpl; try done; try (intros; by apply H); try tauto.
  all: intros; destruct (gameActive s) eqn:?; destruct (gamePaused s) eqn:?;
    simpl in *; try done; try congruence; auto.
Qed.

(** ... and the bound on the matched pairs. *)
Lemma handle_pairsBounded e clock s :
  quiet e s → pairsBounded s → pairsBounded (handle e clock s).2.
Proof.
  unfold pairsBounded, quiet. intros Hq H.
  destruct e; repeat (progress unfold_engine).
  all: split_cases; simpl; try done; try (intros; by apply H); try tauto.
  all: intros; try lia; try (by apply H); apply H; congruence.
Qed.

Lemma handle_invariant_quiet e clock s :
  quiet e s → invariant s → invariant (handle e clock s).2.
Proof.
  intros Hq (H1 & H2 & H3). split; [by apply handle_flippedCards|].
  split; [by apply handle_pairsBounded | by apply handle_pausedOnlyIfActive].
Qed.

Lemma initializeGame_invariant loaded saved random :
  invariant (initializeGame random (emptyState loaded saved)).2.
Proof.
  unfold invariant, pairsBounded, pausedOnlyIfActive, initializeGame.
  repeat (progress unfold_engine). unfold emptyState.
  split_cases; simpl; repeat split; intros; try done; lia.
Qed.

Lemma constructor_inv saved random s0 :
  constructor saved random = Some (Normal tt, s0) →
  ∃ v loaded,
    loadLeaderboard saved = Normal v ∧ decodeBoard v = Some loaded ∧
    initializeGame random (emptyState loaded saved) = (Normal tt, s0).
Proof.
  unfold constructor. intros H.
  destruct (loadLeaderboard saved) as [v|e] eqn:E1; [|discriminate].
  destruct (decodeBoard v) as [loaded|] eqn:E2; [|discriminate].
  exists v, loaded. split; [done|]. split; [done|].
  destruct (initializeGame random (emptyState loaded saved)) as [c s1].
  by simplify_eq.
Qed.

Lemma constructor_invariant saved random s0 :
  constructor saved random = Some (Normal tt, s0) → invariant s0.
Proof.
  intros H. destruct (constructor_inv _ _ _ H) as (v & loaded & _ & _ & Hi).
  pose proof (initializeGame_invariant loaded saved random) as Hinv.
  by rewrite Hi in Hinv.
Qed.

Lemma run_flippedCards trace : ∀ t0 s s',
  length (flippedCards s) ≤ 2 → run t0 trace s = Some s' →
  length (flippedCards s') ≤ 2.
Proof.
  induction trace as [|[e clock] trace IH]; intros t0 s s' H Hrun; simpl in Hrun.
  - by injection Hrun as <-.
  - destruct (bool_decide (t0 ≤ now clock)%Z && enabled e clock s); [|done].
    eapply IH; [|exact Hrun]. by apply handle_flippedCards.
Qed.

Lemma reachable_flippedCards s : reachable s → length (flippedCards s) ≤ 2.
Proof.
  intros (saved & random & s0 & t0 & trace & Hc & Hrun).
  eapply run_flippedCards; [|exact Hrun].
  by apply (constructor_invariant saved random).
Qed.

Lemma constructor_freshGame : constructor None noSwap = Some (Normal tt, freshGame).
Proof. by vm_compute. Qed.

(** C6, evaluated: two runs of the page that leave the invariant. In the
    first the reveal callback of the last pair runs while the game is
    paused and ends the game: paused and not active. In the second a reveal
    callback scheduled before a new game runs after it and counts a pair
    for the new game: nine matched pairs out of eight. *)
Theorem invariant_broken :
  (∃ s, run 0 pausedAtLastReveal freshGame = Some s ∧
        gamePaused s = true ∧ gameActive s = false ∧
        reachable s ∧ ¬ invariant s) ∧
  (∃ s, run 0 staleReveal freshGame = Some s ∧
        difficultyConfigs !! currentDifficulty s = Some medium ∧
        matchedPairs s = 9 ∧ Config.pairs medium = 8 ∧
        reachable s ∧ ¬ invariant s).
Proof.
  split.
  - eexists. split; [vm_compute; reflexivity|].
    split; [by vm_compute|]. split; [by vm_compute|]. split.
    + exists None, noSwap, freshGame, 0%Z, pausedAtLastReveal.
      split; [apply constructor_freshGame | by vm_compute].
    + intros (_ & _ & H). unfold pausedOnlyIfActive in H.
      specialize (H eq_refl). vm_compute in H. discriminate.
  - eexists. split; [vm_compute; reflexivity|].
    split; [by vm_compute|]. split; [by vm_compute|]. split; [done|]. split.
    + exists None, noSwap, freshGame, 0%Z, staleReveal.
      split; [apply constructor_freshGame | by vm_compute].
    + intros (_ & H & _). specialize (H medium).
      assert (9 ≤ 8) as Hle; [|lia].
      apply H. by vm_compute.
Qed.

(** ** The leaderboard as the five best *)

Lemma insertByScore_split x l :
  StronglySorted byScore l →
  ∃ l1 l2, l = l1 ++ l2 ∧ insertByScore x l = l1 ++ x :: l2 ∧
           Forall (λ y, (score x ≤ score y)%Z) l1 ∧
           Forall (λ y, (score y < score x)%Z) l2.
Proof.
  induction 1 as [|y l Hs IH Hy]; simpl.
  - exists [], []. repeat split; constructor.
  - case_bool_decide as Hle.
    + destruct IH as (l1 & l2 & -> & -> & H1 & H2).
      exists (y :: l1), l2. repeat split; [by constructor|done].
    + exists [], (y :: l). repeat split; [constructor|].
      constructor; [lia|].
      eapply Forall_impl; [exact Hy|]. unfold byScore. intros z Hz. lia.
Qed.

Lemma insertByScore_end x l :
  Forall (λ y, (score x ≤ score y)%Z) l → insertByScore x l = l ++ [x].
Proof.
  induction 1 as [|y l Hy Hl IH]; simpl; [done|].
  rewrite bool_decide_eq_true_2 by done. by rewrite IH.
Qed.

Lemma sortByScore_snoc l x :
  sortByScore (l ++ [x]) = insertByScore x (sortByScore l).
Proof. unfold sortByScore. by rewrite foldl_app. Qed.

Lemma foldl_insert_sorted_id l : ∀ acc,
  StronglySorted byScore (acc ++ l) →
  foldl (λ sorted x, insertByScore x sorted) acc l = acc ++ l.
Proof.
  induction l as [|x l IH]; intros acc Hs; simpl.
  - by rewrite app_nil_r.
  - rewrite insertByScore_end.
    + rewrite IH; rewrite <- app_assoc; [done|exact Hs].
    + apply Forall_forall. intros y Hy.
      apply (StronglySorted_app_1_elem_of byScore acc (x :: l) y x Hs Hy).
      left.
Qed.

Lemma sortByScore_sorted_id l : StronglySorted byScore l → sortByScore l = l.
Proof. intros H. by apply (foldl_insert_sorted_id l []). Qed.

Lemma take_insertByScore n : ∀ x l,
  take n (insertByScore x (take n l)) = take n (insertByScore x l).
Proof.
  induction n as [|n IH]; intros x l; [done|].
  destruct l as [|y l]; simpl; [done|].
  case_bool_decide; simpl.
  - by rewrite IH.
  - f_equal. destruct n; [done|]. simpl. f_equal.
    rewrite take_take. f_equal. lia.
Qed.

Lemma submit_boardOK l x : boardOK (submit l x).
Proof.
  split; [apply take_sorted, sortByScore_sorted|].
  unfold submit. rewrite length_take. lia.
Qed.

Lemma top5_snoc A x :
  submit (take 5 (sortByScore A)) x = take 5 (sortByScore (A ++ [x])).
Proof.
  unfold submit. rewrite !sortByScore_snoc.
  rewrite (sortByScore_sorted_id (take 5 (sortByScore A)))
    by apply take_sorted, sortByScore_sorted.
  apply take_insertByScore.
Qed.

Lemma top5_id l : boardOK l → take 5 (sortByScore l) = l.
Proof.
  intros [Hs Hl]. rewrite sortByScore_sorted_id by done.
  by rewrite take_ge by lia.
Qed.

(** Cutting to five after every submission or once at the end is the same. *)
Lemma foldl_submit es : ∀ A,
  foldl submit (take 5 (sortByScore A)) es = take 5 (sortByScore (A ++ es)).
Proof.
  induction es as [|x es IH]; intros A; simpl.
  - by rewrite app_nil_r.
  - rewrite top5_snoc, IH. by rewrite <- app_assoc.
Qed.

Lemma submit_unchanged l x :
  boardOK l → checkHighScore l (score x) = false → submit l x = l.
Proof.
  intros [Hs Hl] Hc. unfold checkHighScore in Hc.
  apply orb_false_elim in Hc as [Hlen Hlast].
  apply Nat.ltb_ge in Hlen.
  destruct (last l) as [lowest|] eqn:El.
  2:{ destruct l; [simpl in Hlen; lia|]. by rewrite last_cons in El;
      destruct (last l). }
  apply bool_decide_eq_false in Hlast.
  unfold submit. rewrite sortByScore_snoc, sortByScore_sorted_id by done.
  rewrite insertByScore_end.
  - rewrite take_app_le by lia. apply take_ge. lia.
  - apply Forall_forall. intros y Hy.
    pose proof (last_lowest l lowest y Hs El Hy). lia.
Qed.

Lemma submit_changed l x :
  boardOK l → checkHighScore l (score x) = true → submit l x ≠ l.
Proof.
  intros [Hs Hl] Hc Heq.
  apply checkHighScore_spec in Hc as [Hlt|(lowest & El & Hlow)].
  - apply (f_equal length) in Heq. unfold submit in Heq.
    rewrite length_take in Heq.
    pose proof (Permutation_length (sortByScore_Permutation (l ++ [x]))) as Hp.
    rewrite length_app in Hp. simpl in Hp. lia.
  - unfold submit in Heq.
    rewrite sortByScore_snoc, sortByScore_sorted_id in Heq by done.
    destruct (insertByScore_split x l Hs) as (l1 & l2 & -> & Hins & H1 & H2).
    rewrite Hins in Heq.
    destruct l2 as [|y l2].
    + rewrite app_nil_r in El. rewrite Forall_forall in H1.
      assert (lowest ∈ l1) as Hin.
      { rewrite last_lookup in El. by eapply list_elem_of_lookup_2. }
      specialize (H1 _ Hin). lia.
    + rewrite take_app_ge in Heq by (rewrite length_app in Hl; simpl in Hl; lia).
      apply app_inv_head in Heq.
      destruct (5 - length l1) as [|k] eqn:Ek.
      { rewrite length_app in Hl. simpl in *. discriminate. }
      simpl in Heq. injection Heq as -> _.
      apply Forall_cons in H2 as [H2 _]. lia.
Qed.


(** ** The stored text parses back *)

Section RoundTrip.
Import JSON.

Lemma lex_lexRun st input :
  lex st input =
  match lexRun st input with
  | Some (st', toks) =>
      match lexEnd st' with Some more => Some (toks ++ more) | None => None end
  | None => None
  end.
Proof.
  revert st. induction input as [|c rest IH]; intros st; simpl.
  - by destruct (lexEnd st).
  - destruct (lexStep st c) as [[st' toks]|]; [|done].
    rewrite IH. destruct (lexRun st' rest) as [[st'' more]|]; [|done].
    destruct (lexEnd st''); [|done]. by rewrite app_assoc.
Qed.

Lemma lexRun_app st a b st' toks :
  lexRun st a = Some (st', toks) →
  lexRun st (a ++ b) =
  match lexRun st' b with
  | Some (st'', more) => Some (st'', toks ++ more)
  | None => None
  end.
Proof.
  revert st toks. induction a as [|c a IH]; intros st toks H; simpl in *.
  - injection H as <- <-. by destruct (lexRun st b) as [[? ?]|].
  - destruct (lexStep st c) as [[st1 t1]|]; [|done].
    destruct (lexRun st1 a) as [[st2 t2]|] eqn:E; [|done].
    injection H as <- <-. rewrite (IH _ _ E).
    destruct (lexRun st2 b) as [[? ?]|]; [|done]. by rewrite app_assoc.
Qed.

Lemma chars_app a b : chars (a +:+ b) = chars a ++ chars b.
Proof. induction a as [|c a IH]; simpl; [done|]. by rewrite IH. Qed.

Lemma text_rev_chars s : text (rev (chars s)) = s.
Proof.
  unfold text, chars. rewrite rev_involutive.
  apply string_of_list_ascii_of_string.
Qed.

(** One escaped character keeps the lexer inside the string. *)
Lemma lexRun_escapeChar c acc :
  lexRun (LString acc) (chars (escapeChar c))
  = Some (LString (rev (chars (escapeChar c)) ++ acc), []).
Proof.
  destruct c as [[] [] [] [] [] [] [] []]; reflexivity.
Qed.

Lemma lexRun_escape s : ∀ acc,
  lexRun (LString acc) (chars (escape s))
  = Some (LString (rev (chars (escape s)) ++ acc), []).
Proof.
  induction s as [|c s IH]; intros acc; simpl; [done|].
  rewrite chars_app.
  rewrite (lexRun_app _ _ _ _ _ (lexRun_escapeChar c acc)).
  rewrite IH. simpl. by rewrite rev_app_distr, app_assoc.
Qed.

Lemma pretty_N_char_digit x :
  (x < 10)%N → isDigit (pretty_N_char x) = true ∧
               ((0 < x)%N → isNonzeroDigit (pretty_N_char x) = true).
Proof.
  intros H.
  assert (x = 0 ∨ x = 1 ∨ x = 2 ∨ x = 3 ∨ x = 4 ∨ x = 5 ∨ x = 6 ∨ x = 7
          ∨ x = 8 ∨ x = 9)%N as Hx by lia.
  repeat (destruct Hx as [->|Hx]); try subst x; split; try reflexivity; try lia;
    intros; reflexivity.
Qed.

Lemma append_empty_r s : s +:+ "" = s.
Proof.
  induction s as [|c s IH]; [done|].
  change (String c s +:+ "") with (String c (s +:+ "")). by f_equal.
Qed.

Lemma append_assoc a b c : (a +:+ b) +:+ c = a +:+ (b +:+ c).
Proof.
  induction a as [|x a IH]; [done|].
  change (String x ((a +:+ b) +:+ c) = String x (a +:+ (b +:+ c))). by f_equal.
Qed.

Lemma pretty_N_go_digits x : ∀ s,
  (0 < x)%N →
  ∃ c d, pretty_N_go x s = String c (d +:+ s) ∧
         isNonzeroDigit c = true ∧
         Forall (λ c, isDigit c = true) (chars d).
Proof.
  induction (N.lt_wf_0 x) as [x _ IH]; intros s Hx.
  rewrite pretty_N_go_step by done.
  assert (x < 10 ∨ 10 ≤ x)%N as [Hs|Hl] by lia.
  - rewrite N.div_small by done. rewrite pretty_N_go_0.
    rewrite N.mod_small by done.
    exists (pretty_N_char x), "". split; [done|].
    split; [by apply pretty_N_char_digit|constructor].
  - destruct (IH (x `div` 10)%N) with (s := String (pretty_N_char (x `mod` 10)) s)
      as (c & d & -> & Hc & Hd).
    { apply N.div_lt; lia. }
    { apply N.div_str_pos. lia. }
    exists c, (d +:+ String (pretty_N_char (x `mod` 10)) "").
    split; [by rewrite append_assoc|]. split; [done|].
    rewrite chars_app. apply Forall_app_2; [done|].
    apply Forall_singleton. apply pretty_N_char_digit.
    apply N.mod_lt. lia.
Qed.

Lemma lexRun_digits d : ∀ acc,
  Forall (λ c, isDigit c = true) d →
  lexRun (LNumber NInt acc) d = Some (LNumber NInt (rev d ++ acc), []).
Proof.
  induction d as [|c d IH]; intros acc Hd; simpl; [done|].
  apply Forall_cons in Hd as [Hc Hd]. rewrite Hc.
  rewrite IH by done. by rewrite <- app_assoc.
Qed.

Lemma lexIdle_nonzero c :
  isNonzeroDigit c = true → lexIdle c = Some (LNumber NInt [c], []).
Proof.
  destruct c as [[] [] [] [] [] [] [] []]; intros H; try discriminate H;
    reflexivity.
Qed.

Lemma nonzero_digit c :
  isNonzeroDigit c = true → isChar c 48 = false ∧ isDigit c = true.
Proof.
  destruct c as [[] [] [] [] [] [] [] []]; intros H; try discriminate H;
    split; reflexivity.
Qed.

Lemma text_digits c d pre :
  text (rev (chars d) ++ c :: pre) = string_of_list_ascii (rev pre) +:+ String c d.
Proof.
  unfold text. rewrite rev_app_distr, rev_involutive. simpl.
  rewrite <- app_assoc. simpl.
  induction (rev pre) as [|x l IH]; simpl.
  - unfold chars. by rewrite string_of_list_ascii_of_string.
  - by rewrite IH.
Qed.

(** A decimal numeral followed by a comma is one number token. *)
Lemma lexRun_N_go x :
  (0 < x)%N →
  lexRun LIdle (chars (pretty_N_go x "") ++ chars ",")
  = Some (LIdle, [TNumber (pretty_N_go x ""); TComma]) ∧
  lexRun LIdle (chars ("-" +:+ pretty_N_go x "") ++ chars ",")
  = Some (LIdle, [TNumber ("-" +:+ pretty_N_go x ""); TComma]).
Proof.
  intros Hx. destruct (pretty_N_go_digits x "" Hx) as (c & d & -> & Hc & Hd).
  rewrite append_empty_r. split.
  - simpl. rewrite (lexIdle_nonzero c Hc).
    rewrite (lexRun_app _ _ _ _ _ (lexRun_digits (chars d) [c] Hd)).
    simpl. by rewrite (text_digits c d []).
  - change ("-" +:+ String c d) with (String "-" (String c d)).
    simpl. destruct (nonzero_digit c Hc) as [-> ->].
    rewrite (lexRun_app _ _ _ _ _ (lexRun_digits (chars d) _ Hd)).
    simpl. by rewrite (text_digits c d ["-"%char]).
Qed.

Lemma lexRun_N (x : N) :
  lexRun LIdle (chars (pretty x) ++ chars ",")
  = Some (LIdle, [TNumber (pretty x); TComma]).
Proof.
  unfold pretty, pretty_N. case_decide as Hx; [reflexivity|].
  apply lexRun_N_go. lia.
Qed.

Lemma lexRun_nat (n : nat) :
  lexRun LIdle (chars (pretty n) ++ chars ",")
  = Some (LIdle, [TNumber (pretty n); TComma]).
Proof. apply (lexRun_N (N.of_nat n)). Qed.

Lemma lexRun_Z (z : Z) :
  lexRun LIdle (chars (pretty z) ++ chars ",")
  = Some (LIdle, [TNumber (pretty z); TComma]).
Proof.
  destruct z as [|p|p].
  - reflexivity.
  - apply (lexRun_N (Npos p)).
  - unfold pretty, pretty_Z, pretty, pretty_positive, pretty, pretty_N.
    rewrite decide_False by done. by apply lexRun_N_go.
Qed.

Lemma lexRun_Z_then (z : Z) rest :
  lexRun LIdle (chars (pretty z) ++ ","%char :: rest)
  = match lexRun LIdle rest with
    | Some (st, more) => Some (st, TNumber (pretty z) :: TComma :: more)
    | None => None
    end.
Proof.
  change (","%char :: rest) with (chars "," ++ rest).
  rewrite app_assoc, (lexRun_app _ _ _ _ _ (lexRun_Z z)). done.
Qed.

Lemma lexRun_nat_then (n : nat) rest :
  lexRun LIdle (chars (pretty n) ++ ","%char :: rest)
  = match lexRun LIdle rest with
    | Some (st, more) => Some (st, TNumber (pretty n) :: TComma :: more)
    | None => None
    end.
Proof.
  change (","%char :: rest) with (chars "," ++ rest).
  rewrite app_assoc, (lexRun_app _ _ _ _ _ (lexRun_nat n)). done.
Qed.

Lemma lexRun_escape_then s rest :
  lexRun (LString []) (chars (escape s) ++ ascii_of_nat 34 :: rest)
  = match lexRun LIdle rest with
    | Some (st, more) => Some (st, TString (escape s) :: more)
    | None => None
    end.
Proof.
  rewrite (lexRun_app _ _ _ _ _ (lexRun_escape s [])).
  simpl. rewrite app_nil_r, text_rev_chars.
  by destruct (lexRun LIdle rest) as [[? ?]|].
Qed.

Lemma lexRun_entry e rest :
  lexRun LIdle (chars (stringify (entryToJSON e)) ++ rest)
  = match lexRun LIdle rest with
    | Some (st, more) => Some (st, entryTokens e ++ more)
    | None => None
    end.
Proof.
  unfold entryToJSON, stringify, join, List.map, quote; simpl fst; simpl snd.
  rewrite !chars_app, <- !app_assoc. simpl.
  rewrite lexRun_Z_then. simpl.
  rewrite lexRun_escape_then. simpl.
  rewrite lexRun_nat_then. simpl.
  rewrite lexRun_escape_then. simpl.
  rewrite lexRun_escape_then. simpl.
  by destruct (lexRun LIdle rest) as [[? ?]|].
Qed.

Lemma join_cons sep x l :
  join sep (x :: l) = x +:+ foldr (λ y acc, sep +:+ y +:+ acc) "" l.
Proof.
  revert x. induction l as [|y l IH]; intros x.
  - simpl. by rewrite append_empty_r.
  - change (join sep (x :: y :: l)) with (x +:+ sep +:+ join sep (y :: l)).
    rewrite IH. simpl. done.
Qed.

Lemma lexRun_more l rest :
  lexRun LIdle
    (chars (foldr (λ y acc, "," +:+ y +:+ acc) ""
              (List.map stringify (List.map entryToJSON l))) ++ rest)
  = match lexRun LIdle rest with
    | Some (st, more) => Some (st, moreTokens l ++ more)
    | None => None
    end.
Proof.
  induction l as [|e l IH].
  - simpl. by destruct (lexRun LIdle rest) as [[? ?]|].
  - cbn [List.map foldr moreTokens flat_map].
    rewrite !chars_app, <- !app_assoc.
    change (chars "," ++ ?x) with (","%char :: x).
    cbn [lexRun lexStep]. change (lexIdle ","%char) with (Some (LIdle, [TComma])).
    cbv iota beta. rewrite lexRun_entry, IH.
    destruct (lexRun LIdle rest) as [[? ?]|]; [|done].
    simpl. by rewrite <- ?app_assoc.
Qed.

Lemma lex_leaderboard l :
  lex LIdle (chars (stringify (leaderboardToJSON l))) = Some (leaderboardTokens l).
Proof.
  rewrite lex_lexRun. unfold leaderboardToJSON.
  destruct l as [|e l]; [reflexivity|].
  change (stringify (Array (List.map entryToJSON (e :: l))))
    with ("[" +:+ join "," (List.map stringify (List.map entryToJSON (e :: l))) +:+ "]").
  cbn [List.map]. rewrite join_cons.
  rewrite !chars_app, <- !app_assoc.
  change (chars "[" ++ ?x) with ("["%char :: x).
  cbn [lexRun lexStep]. change (lexIdle "["%char) with (Some (LIdle, [TLBracket])).
  cbv iota beta. rewrite lexRun_entry, lexRun_more.
  change (lexRun LIdle (chars "]")) with (Some (LIdle, [TRBracket])).
  cbv iota beta. cbn [lexEnd]. by rewrite app_nil_r.
Qed.

Lemma parse_entry e stack rest :
  parseTokens (PValue stack) (entryTokens e ++ rest)
  = parseTokens (reduce (entryToJSON e) stack) rest.
Proof. reflexivity. Qed.

Lemma parse_more l : ∀ done,
  parseTokens (PArrayNext done []) (moreTokens l ++ [TRBracket])
  = Some (Array (done ++ List.map entryToJSON l)).
Proof.
  induction l as [|e l IH]; intros done.
  - simpl. by rewrite app_nil_r.
  - change (moreTokens (e :: l)) with (TComma :: entryTokens e ++ moreTokens l).
    change (parseTokens (PArrayNext done []) ((TComma :: entryTokens e ++ moreTokens l) ++ [TRBracket]))
      with (parseTokens (PValue [FArray done]) ((entryTokens e ++ moreTokens l) ++ [TRBracket])).
    rewrite <- app_assoc, parse_entry.
    change (reduce (entryToJSON e) [FArray done]) with (PArrayNext (done ++ [entryToJSON e]) []).
    rewrite IH. by rewrite <- app_assoc.
Qed.

Lemma parse_leaderboardTokens l :
  parseTokens (PValue []) (leaderboardTokens l) = Some (leaderboardToJSON l).
Proof.
  destruct l as [|e l]; [reflexivity|].
  change (parseTokens (PValue []) (leaderboardTokens (e :: l)))
    with (parseTokens (PArrayNext [entryToJSON e] []) (moreTokens l ++ [TRBracket])).
  by rewrite parse_more.
Qed.

(** [JSON.parse] undoes [JSON.stringify] on a board. *)
Lemma parse_stringify_leaderboard l :
  parse (stringify (leaderboardToJSON l)) = Some (leaderboardToJSON l).
Proof.
  unfold parse. fold (chars (stringify (leaderboardToJSON l))).
  rewrite lex_leaderboard. apply parse_leaderboardTokens.
Qed.


End RoundTrip.

(** ** The values of the stored text *)

Example decodeString_sample :
  decodeString "a\ud83c\udfafb\n\u00e9\u0041\\" = Some "a🎯b
éA\".
Proof. by vm_compute. Qed.

Lemma unescape_escapeChar c rest :
  unescape (list_ascii_of_string (JSON.escapeChar c) ++ rest)
  = match unescape rest with Some s => Some (c :: s) | None => None end.
Proof.
  destruct c as [[] [] [] [] [] [] [] []]; reflexivity.
Qed.

Lemma list_ascii_app a b :
  list_ascii_of_string (a +:+ b) = list_ascii_of_string a ++ list_ascii_of_string b.
Proof. induction a as [|c a IH]; simpl; [done|]. by rewrite IH. Qed.

Lemma unescape_escape s :
  unescape (list_ascii_of_string (JSON.escape s)) = Some (list_ascii_of_string s).
Proof.
  induction s as [|c s IH]; [done|].
  cbn [JSON.escape]. rewrite list_ascii_app, unescape_escapeChar, IH. done.
Qed.

Lemma decodeString_escape s : decodeString (JSON.escape s) = Some s.
Proof.
  unfold decodeString. rewrite unescape_escape. simpl.
  by rewrite string_of_list_ascii_of_string.
Qed.

Lemma pretty_N_char_value d :
  (d < 10)%N →
  JSON.isDigit (pretty_N_char d) = true ∧
  JSON.isChar (pretty_N_char d) 45 = false ∧
  N.of_nat (JSON.code (pretty_N_char d) - 48) = d.
Proof.
  intros H.
  assert (d = 0 ∨ d = 1 ∨ d = 2 ∨ d = 3 ∨ d = 4 ∨ d = 5 ∨ d = 6 ∨ d = 7
          ∨ d = 8 ∨ d = 9)%N as Hd by lia.
  repeat (destruct Hd as [->|Hd]); try subst d; repeat split; reflexivity.
Qed.

(** The digits [pretty] writes denote the number, and the first one is no
    minus sign. *)
Lemma digitsValue_pretty x : ∀ s,
  (0 < x)%N →
  ∃ k c rest,
    list_ascii_of_string (pretty_N_go x s) = c :: rest ∧
    JSON.isChar c 45 = false ∧
    ∀ acc, digitsValue acc (c :: rest)
           = digitsValue (acc * 10 ^ k + x) (list_ascii_of_string s).
Proof.
  induction (N.lt_wf_0 x) as [x _ IH]; intros s Hx.
  rewrite pretty_N_go_step by done.
  assert (x mod 10 < 10)%N as Hd by (apply N.mod_lt; lia).
  destruct (pretty_N_char_value _ Hd) as (D1 & D2 & D3).
  pose proof (N.div_mod x 10 ltac:(lia)) as Hdm.
  assert (x / 10 = 0 ∨ 0 < x / 10)%N as [Hz|Hp] by lia.
  - rewrite Hz, pretty_N_go_0. exists 1%N, (pretty_N_char (x mod 10)), (list_ascii_of_string s).
    split; [done|]. split; [done|]. intros acc. cbn [digitsValue].
    rewrite D1, D3. f_equal. lia.
  - destruct (IH (x / 10)%N) with (s := String (pretty_N_char (x mod 10)) s)
      as (k & c & rest & E & Hc & Hv).
    { apply N.div_lt; lia. }
    { done. }
    exists (k + 1)%N, c, rest. split; [done|]. split; [done|].
    intros acc. rewrite Hv. cbn [list_ascii_of_string digitsValue].
    rewrite D1, D3. f_equal. rewrite N.pow_add_r. lia.
Qed.

Lemma integerLiteral_pretty_Z (z : Z) :
  safeInteger z → integerLiteral (pretty z) = Some z.
Proof.
  intros Hz. unfold integerLiteral.
  destruct z as [|p|p].
  - by vm_compute.
  - change (pretty (Z.pos p)) with (pretty (N.pos p)).
    unfold pretty, pretty_N. rewrite decide_False by done.
    destruct (digitsValue_pretty (N.pos p) "") as (k & c & rest & -> & Hc & Hv); [lia|].
    rewrite Hc, Hv. simpl. rewrite bool_decide_eq_true_2 by done. done.
  - change (pretty (Z.neg p)) with ("-" +:+ pretty (N.pos p)).
    unfold pretty, pretty_N. rewrite decide_False by done.
    change (list_ascii_of_string ("-" +:+ pretty_N_go (N.pos p) ""))
      with ("-"%char :: list_ascii_of_string (pretty_N_go (N.pos p) "")).
    change (JSON.isChar "-"%char 45) with true. cbv iota.
    destruct (digitsValue_pretty (N.pos p) "") as (k & c & rest & -> & Hc & Hv); [lia|].
    rewrite Hv. simpl. rewrite bool_decide_eq_true_2 by done. done.
Qed.

Lemma integerLiteral_pretty_nat (n : nat) :
  safeInteger (Z.of_nat n) → integerLiteral (pretty n) = Some (Z.of_nat n).
Proof.
  intros Hn. rewrite <- (integerLiteral_pretty_Z (Z.of_nat n) Hn).
  f_equal. by destruct n.
Qed.

Lemma decodeEntry_entryToJSON e :
  safeEntry e → decodeEntry (entryToJSON e) = Some e.
Proof.
  intros [Hs Hm]. unfold decodeEntry, entryToJSON.
  rewrite bool_decide_eq_true_2 by done.
  rewrite (integerLiteral_pretty_Z _ Hs), (integerLiteral_pretty_nat _ Hm).
  rewrite !decodeString_escape.
  rewrite bool_decide_eq_true_2 by lia.
  rewrite Nat2Z.id. by destruct e.
Qed.

Lemma decodeBoard_leaderboardToJSON l :
  Forall safeEntry l → decodeBoard (leaderboardToJSON l) = Some l.
Proof.
  intros Hl. unfold decodeBoard, leaderboardToJSON.
  apply mapM_Some_2.
  induction Hl as [|e l He Hl IH]; simpl; constructor; [|done].
  by apply decodeEntry_entryToJSON.
Qed.

(** ** What every handler keeps *)

Lemma Forall_lt_mono (l : list nat) n m :
  n ≤ m → Forall (λ a, a < n) l → Forall (λ a, a < m) l.
Proof. intros H Hl. eapply Forall_impl; [exact Hl|]. intros a Ha. simpl in *. lia. Qed.

Lemma handle_knownDifficulty e clock s :
  offered e → knownDifficulty s → knownDifficulty (handle e clock s).2.
Proof.
  unfold knownDifficulty, offered. intros Ho H.
  destruct e; repeat (progress unfold_engine).
  all: split_cases; simpl; try done.
Qed.

Lemma handle_heap_grows e clock s :
  length (heap s) ≤ length (heap (handle e clock s).2).
Proof.
  destruct e; repeat (progress unfold_engine).
  all: split_cases; simpl; rewrite ?length_app, ?length_alter; try lia.
Qed.

Ltac alloc_mono :=
  match goal with
  | H : Forall (λ a, a < ?n) ?l |- Forall (λ a, a < _) ?l =>
      eapply Forall_impl; [exact H|]; intros ? ?; simpl in *; lia
  | H : Forall (λ t, Forall (λ a, a < ?n) _) ?l |- Forall (λ t, Forall _ _) ?l =>
      eapply Forall_impl; [exact H|]; intros ? ?; simpl in *;
      eapply Forall_impl; [eassumption|]; intros ? ?; simpl in *; lia
  end.

(** Handlers only store references to allocated card objects. *)
Lemma handle_allocated e clock s :
  allocated s → allocated (handle e clock s).2.
Proof.
  unfold allocated. intros (Hc & Hf & Ht).
  destruct e; repeat (progress unfold_engine).
  all: split_cases; simpl.
  all: rewrite ?length_alter, ?length_app, ?length_imap; unfold makeCards;
       rewrite ?length_alter, ?length_app, ?length_imap.
  all: repeat split; try done; try apply Forall_nil_2; try alloc_mono.
  all: try (apply Forall_delete; assumption).
  all: try match goal with
       | H : cards ?s0 !! _ = Some ?n |- _ =>
           assert (Forall (λ a, a < length (heap s0)) (flippedCards s0 ++ [n]))
             as Hnew
             by (apply Forall_app_2; [assumption|];
                 apply Forall_singleton; by eapply (Forall_lookup_1 _ _ _ _ Hc))
       end.
  all: try assumption.
  all: try match goal with
       | H : flippedCards _ ++ _ = _ :: _ :: _ |- _ => rewrite H in Hnew
       end.
  all: try assumption.
  all: try (apply Forall_app_2; [assumption|]; apply Forall_singleton; simpl;
            inversion Hnew as [|? ? ? Hrest]; inversion Hrest; subst;
            by repeat constructor).
  all: apply Forall_seq; intros; lia.
Qed.

(** With a difficulty of the table and references that are allocated, no
    handler throws. *)
Lemma handle_completes e clock s :
  offered e → knownDifficulty s → allocated s →
  (handle e clock s).1 = Normal tt.
Proof.
  unfold allocated, knownDifficulty, offered. intros Ho [cfg Hcfg] (Hc & Hf & Ht).
  destruct e; repeat (progress unfold_engine).
  all: split_cases; simpl; try done.
  all: exfalso.
  all: match goal with
       | H : cards ?s0 !! _ = Some ?n |- _ =>
           assert (Forall (λ a, a < length (heap s0)) (flippedCards s0 ++ [n]))
             as Hnew
             by (apply Forall_app_2; [assumption|];
                 apply Forall_singleton; by eapply (Forall_lookup_1 _ _ _ _ Hc))
       end.
  all: try match goal with
       | H : flippedCards _ ++ _ = _ :: _ :: _ |- _ => rewrite H in Hnew
       end.
  all: repeat match goal with
       | H : _ !! _ = None |- _ =>
           apply lookup_ge_None in H; rewrite ?length_alter in H
       end.
  all: rewrite ?Forall_app, ?Forall_cons, ?Forall_singleton in Hnew; simpl in *; lia.
Qed.

Lemma faceUp_alter (n a : nat) (h : list Card) :
  isFlipped <$> h !! a = Some true →
  isFlipped <$> alter (setFlipped true) n h !! a = Some true.
Proof.
  intros H. rewrite list_lookup_alter. case_decide; [subst|done].
  destruct (h !! a); [done|done].
Qed.

Lemma accept_pair (cs fl : list nat) (h : list Card) position n c :
  NoDup fl →
  Forall (λ a, a ∈ cs ∧ isFlipped <$> h !! a = Some true) fl →
  cs !! position = Some n → h !! n = Some c → isFlipped c = false →
  NoDup (fl ++ [n]) ∧
  Forall (λ a, a ∈ cs ∧ isFlipped <$> alter (setFlipped true) n h !! a = Some true)
         (fl ++ [n]).
Proof.
  intros Hnd Hf Hpos Hc Hflip. split.
  - apply NoDup_app. split; [done|]. split; [|apply NoDup_singleton].
    intros a Ha Hn. apply list_elem_of_singleton in Hn as ->.
    rewrite Forall_forall in Hf. destruct (Hf _ Ha) as [_ Hup].
    rewrite Hc in Hup. simpl in Hup. congruence.
  - apply Forall_app_2.
    + eapply Forall_impl; [exact Hf|]. intros a [Ha Hup]. split; [done|].
      by apply faceUp_alter.
    + apply Forall_singleton. split; [by eapply list_elem_of_lookup_2|].
      rewrite list_lookup_alter_eq, Hc. done.
Qed.

Lemma handle_pairUnderEvaluation e clock s :
  pairUnderEvaluation s → pairUnderEvaluation (handle e clock s).2.
Proof.
  unfold pairUnderEvaluation, faceUp. intros (Hnd & Hf).
  destruct e; repeat (progress unfold_engine).
  all: split_cases; simpl.
  all: try (split; [by apply NoDup_nil_2 | by apply Forall_nil_2]).
  all: try done.
  all: try match goal with
       | H : flippedCards _ ++ _ = _ :: _ :: _ |- _ => rewrite <- H
       end.
  all: match goal with
       | H : isFlipped _ || _ || _ = false |- _ =>
           apply orb_false_elim in H as [H _];
           apply orb_false_elim in H as [H _]
       end.
  all: by eapply accept_pair.
Qed.

Lemma handle_boardOK e clock s :
  boardOK (leaderboard s) → boardOK (leaderboard (handle e clock s).2).
Proof.
  intros H.
  destruct e; repeat (progress unfold_engine).
  all: split_cases; simpl; try done; try apply (submit_boardOK _ _).
Qed.

Lemma handle_persisted e clock s :
  (leaderboard (handle e clock s).2 = leaderboard s ∧
   storage (handle e clock s).2 = storage s) ∨
  persisted (handle e clock s).2.
Proof.
  unfold persisted.
  destruct e; repeat (progress unfold_engine).
  all: split_cases; simpl; try (by left); try (by right).
Qed.

(** A property every handler keeps holds along every run. *)
Lemma run_invariant (P : State → Prop) (ok : Event → Prop) :
  (∀ e clock s, ok e → P s → P (handle e clock s).2) →
  ∀ trace t0 s s',
    Forall (λ ev, ok ev.1) trace → P s → run t0 trace s = Some s' → P s'.
Proof.
  intros Hstep. induction trace as [|[e clock] trace IH];
    intros t0 s s' Hok HP Hrun; simpl in Hrun.
  - by injection Hrun as <-.
  - destruct (bool_decide (t0 ≤ now clock)%Z && enabled e clock s); [|done].
    apply Forall_cons in Hok as [Hok1 Hok].
    eapply IH; [exact Hok| |exact Hrun]. by apply Hstep.
Qed.


Lemma lookup_medium : difficultyConfigs !! "medium" = Some medium.
Proof. by vm_compute. Qed.

Lemma initializeGame_run random s config :
  difficultyConfigs !! currentDifficulty s = Some config →
  ∃ s', initializeGame random s = (Normal tt, s') ∧
        cards s' = seq (length (heap s)) (length (shuffle random (cardPairsOf config))) ∧
        heap s' = heap s ++ makeCards (shuffle random (cardPairsOf config)) ∧
        flippedCards s' = [] ∧ timeouts s' = timeouts s ∧
        leaderboard s' = leaderboard s ∧ storage s' = storage s ∧
        movesText s' = 0 ∧ moves s' = 0 ∧ matchedPairs s' = 0 ∧
        gameActive s' = false ∧ gamePaused s' = false ∧
        currentDifficulty s' = currentDifficulty s.
Proof.
  intros Hcfg. unfold initializeGame, createCardGrid.
  unfold mbind, M_bind at 1.
  rewrite (shuffleCards_run random s config Hcfg).
  generalize (shuffle random (cardPairsOf config)). intros d.
  unfold mbind, M_bind at 1. unfold mret, M_ret at 1.
  match goal with |- context [resetStats ?s0] =>
    destruct (resetStats_fields s0) as (s' & Hs' & F) end.
  simpl in F. decompose [and] F. clear F.
  exists s'. split; [done|]. repeat split; congruence.
Qed.

Lemma initializeGame_emptyState loaded saved random :
  ∃ s, initializeGame random (emptyState loaded saved) = (Normal tt, s) ∧
       leaderboard s = loaded ∧ storage s = saved ∧
       flippedCards s = [] ∧ movesText s = moves s ∧
       currentDifficulty s = "medium" ∧
       allocated s.
Proof.
  destruct (initializeGame_run random (emptyState loaded saved) medium lookup_medium)
    as (s & Hrun & Hc & Hh & Hf & Ht & Hl & Hst & Hmt & Hm & _ & _ & _ & Hd).
  revert Hc Hh. generalize (shuffle random (cardPairsOf medium)). intros d Hc Hh.
  exists s. split; [done|]. repeat split; try done; try congruence.
  - rewrite Hc, Hh. simpl. unfold makeCards. rewrite length_imap.
    apply Forall_forall. intros a Ha. apply elem_of_seq in Ha. lia.
  - rewrite Hf. constructor.
  - rewrite Ht. constructor.
Qed.

Lemma constructor_run saved random v loaded :
  loadLeaderboard saved = Normal v → decodeBoard v = Some loaded →
  ∃ s, constructor saved random = Some (Normal tt, s) ∧
       leaderboard s = loaded ∧ storage s = saved ∧
       flippedCards s = [] ∧ movesText s = moves s ∧
       currentDifficulty s = "medium" ∧
       allocated s.
Proof.
  intros E1 E2. unfold constructor. rewrite E1, E2.
  destruct (initializeGame_emptyState loaded saved random) as (s & -> & F).
  by exists s.
Qed.

(** What a completed constructor leaves. *)
Lemma constructor_state saved random s0 :
  constructor saved random = Some (Normal tt, s0) →
  loadBoard saved = Some (leaderboard s0) ∧ storage s0 = saved ∧
  flippedCards s0 = [] ∧ movesText s0 = moves s0 ∧
  currentDifficulty s0 = "medium" ∧ allocated s0.
Proof.
  intros H. destruct (constructor_inv _ _ _ H) as (v & loaded & E1 & E2 & Hi).
  destruct (initializeGame_emptyState loaded saved random) as (s & Hs & Hl & F).
  rewrite Hi in Hs. injection Hs as <-. split; [|exact F].
  unfold loadBoard. by rewrite E1, E2, Hl.
Qed.

Lemma run_offered_invariant (P : State → Prop) :
  (∀ e clock s, offered e → P s → P (handle e clock s).2) →
  ∀ trace t0 s s', offeredTrace trace → P s → run t0 trace s = Some s' → P s'.
Proof. intros H. by apply (run_invariant P offered). Qed.

Lemma run_any_invariant (P : State → Prop) :
  (∀ e clock s, P s → P (handle e clock s).2) →
  ∀ trace t0 s s', P s → run t0 trace s = Some s' → P s'.
Proof.
  intros H trace t0 s s' HP Hrun.
  eapply (run_invariant P (λ _, True)); [by intros; apply H| |exact HP|exact Hrun].
  apply Forall_forall. done.
Qed.

Lemma oneUp_run : run 0 [(Click 0, atTime 1000)] freshGame = Some oneUp.
Proof. by vm_compute. Qed.

Lemma oneUp_reachable : reachable oneUp.
Proof.
  exists None, noSwap, freshGame, 0%Z, [(Click 0, atTime 1000)].
  split; [apply constructor_freshGame | apply oneUp_run].
Qed.

Lemma sampleBoard_OK : boardOK sampleBoard.
Proof.
  split; [|simpl; lia].
  repeat constructor; unfold byScore; simpl; lia.
Qed.

Lemma freshGame_board : leaderboard freshGame = [].
Proof. by vm_compute. Qed.

Lemma freshGame_boardOK : boardOK (leaderboard freshGame).
Proof. rewrite freshGame_board. split; [constructor|simpl; lia]. Qed.

Lemma oneUp_fields :
  gameActive oneUp = true ∧ gamePaused oneUp = false ∧
  difficultyConfigs !! currentDifficulty oneUp = Some medium.
Proof. repeat split; by vm_compute. Qed.

Lemma twoUp_allocated : allocated twoUp.
Proof.
  unfold twoUp, oneUp.
  destruct (constructor_state _ _ _ constructor_freshGame) as (_ & _ & _ & _ & _ & Ha).
  by do 2 apply handle_allocated.
Qed.

Lemma fullBoard_OK : boardOK fullBoard.
Proof.
  split; [|simpl; lia].
  repeat constructor; unfold byScore; simpl; lia.
Qed.

Lemma finishedGame_run : run 0 wholeGame freshGame = Some finishedGame.
Proof. by vm_compute. Qed.

Lemma lookup_hard : difficultyConfigs !! "hard" = Some hard.
Proof. by vm_compute. Qed.

(** ** Submissions *)

Lemma saveToLeaderboard_submit r s :
  saveToLeaderboard (resultScore r) (resultTime r) (resultMoves r) (savedAt r) s =
  (Normal tt,
   set_storage
     (Some (JSON.stringify
        (leaderboardToJSON (submit (leaderboard s) (entryOf (currentDifficulty s) r)))))
     (set_leaderboard (submit (leaderboard s) (entryOf (currentDifficulty s) r)) s)).
Proof. reflexivity. Qed.

Lemma saveAll_run results : ∀ s,
  ∃ s', saveAll results s = (Normal tt, s') ∧
        currentDifficulty s' = currentDifficulty s ∧
        leaderboard s' =
          foldl submit (leaderboard s) (entryOf (currentDifficulty s) <$> results).
Proof.
  induction results as [|r rest IH]; intros s.
  - by exists s.
  - cbn [saveAll]. unfold mbind, M_bind at 1. rewrite saveToLeaderboard_submit.
    match goal with |- context [saveAll rest ?s0] => destruct (IH s0) as (s' & -> & Hd & Hl) end.
    exists s'. split; [done|]. split; [done|]. rewrite Hl. done.
Qed.

(** X1. On a board in descending order with at most five entries,
    [checkHighScore] answers exactly whether [saveToLeaderboard] would
    change the board: it is true if and only if the board after the
    submission differs from the board before. *)
Theorem checkHighScore_decides finalScore finalTime finalMoves clock s :
  boardOK (leaderboard s) →
  checkHighScore (leaderboard s) finalScore = true ↔
  leaderboard (saveToLeaderboard finalScore finalTime finalMoves clock s).2
    ≠ leaderboard s.
Proof.
  intros Hok. rewrite saveToLeaderboard_run. simpl.
  set (x := {| score := finalScore; time := finalTime; entryMoves := finalMoves;
               difficulty := currentDifficulty s; date := localeDate clock |}).
  change finalScore with (score x).
  destruct (checkHighScore (leaderboard s) (score x)) eqn:E.
  - split; [intros _|done]. by apply submit_changed.
  - split; [done|]. intros H. exfalso. apply H. by apply submit_unchanged.
Qed.

Lemma checkHighScore_decides_witness :
  checkHighScore (leaderboard freshGame) 100 = true ↔
  leaderboard (saveToLeaderboard 100 "01:00" 10 (atTime 0) freshGame).2
    ≠ leaderboard freshGame.
Proof.
  apply (checkHighScore_decides 100 "01:00" 10 (atTime 0) freshGame).
  apply freshGame_boardOK.
Defined.

(** X2. Where a new entry lands: on a board in descending order,
    [saveToLeaderboard] puts the entry behind every entry whose score is at
    least as high and in front of every entry with a lower score, then cuts
    to five. An entry that ties with an older one goes behind it. *)
Theorem saveToLeaderboard_placement finalScore finalTime finalMoves clock s :
  StronglySorted byScore (leaderboard s) →
  let entry := {| score := finalScore; time := finalTime;
                  entryMoves := finalMoves;
                  difficulty := currentDifficulty s;
                  date := localeDate clock |} in
  ∃ older lower,
    leaderboard s = older ++ lower ∧
    leaderboard (saveToLeaderboard finalScore finalTime finalMoves clock s).2
      = take 5 (older ++ entry :: lower) ∧
    Forall (λ e, (finalScore ≤ score e)%Z) older ∧
    Forall (λ e, (score e < finalScore)%Z) lower.
Proof.
  intros Hs entry. rewrite saveToLeaderboard_run. simpl. fold entry.
  rewrite sortByScore_snoc, (sortByScore_sorted_id _ Hs).
  destruct (insertByScore_split entry _ Hs) as (l1 & l2 & H1 & H2 & H3 & H4).
  exists l1, l2. by rewrite H2.
Qed.

Lemma saveToLeaderboard_placement_witness :
  ∃ older lower,
    sampleBoard = older ++ lower ∧
    Forall (λ e, (1200 ≤ score e)%Z) older ∧
    Forall (λ e, (score e < 1200)%Z) lower.
Proof.
  destruct (saveToLeaderboard_placement 1200 "01:10" 12 (atTime 0)
              (set_leaderboard sampleBoard freshGame))
    as (older & lower & H1 & _ & H3 & H4).
  - apply sampleBoard_OK.
  - exists older, lower. split; [exact H1|]. split; [exact H3|exact H4].
Defined.

(** X3. Calls of [saveToLeaderboard] one after the other leave the first
    five of one stable sort of the old board followed by all submitted
    results: cutting to five after each call loses nothing that a single
    sort of everything would keep. *)
Theorem saveAll_top_five results s :
  boardOK (leaderboard s) →
  ∃ s', saveAll results s = (Normal tt, s') ∧
        leaderboard s' =
          take 5 (sortByScore
            (leaderboard s ++ (entryOf (currentDifficulty s) <$> results))).
Proof.
  intros Hok. destruct (saveAll_run results s) as (s' & Hrun & _ & Hl).
  exists s'. split; [done|]. rewrite Hl.
  rewrite <- (top5_id _ Hok) at 1. apply foldl_submit.
Qed.

Lemma saveAll_top_five_witness :
  ∃ s', saveAll sampleResults freshGame = (Normal tt, s') ∧
        leaderboard s' =
          take 5 (sortByScore
            (leaderboard freshGame
             ++ (entryOf (currentDifficulty freshGame) <$> sampleResults))).
Proof.
  apply (saveAll_top_five sampleResults freshGame). apply freshGame_boardOK.
Defined.

(** X4. [endGame] leaves the game inactive, and on a board in descending
    order with at most five entries the board afterwards is the first five
    of the old board with the result of this game sorted in, whether or not
    the high-score test let [saveToLeaderboard] run: what the test skips
    would not have changed the board. *)
Theorem endGame_board timeUp clock s :
  boardOK (leaderboard s) →
  ∃ s', endGame timeUp clock s = (Normal tt, s') ∧
        gameActive s' = false ∧
        leaderboard s' =
          take 5 (sortByScore (leaderboard s ++
            [{| score := scoreText s; time := timerText s;
                entryMoves := moves s; difficulty := currentDifficulty s;
                date := localeDate clock |}])).
Proof.
  intros Hok. destruct (endGame_fields timeUp clock s) as (s' & Hrun & Ha & _ & _ & _ & Hl & _).
  exists s'. split; [done|]. split; [done|]. rewrite Hl.
  destruct (checkHighScore (leaderboard s) (scoreText s)) eqn:E; [done|].
  symmetry.
  apply (submit_unchanged (leaderboard s)
    {| score := scoreText s; time := timerText s;
       entryMoves := moves s; difficulty := currentDifficulty s;
       date := localeDate clock |} Hok E).
Qed.

Lemma endGame_board_witness :
  (∃ s', endGame true (atTime 9000)
           (set_scoreText 50 (set_leaderboard fullBoard freshGame)) = (Normal tt, s') ∧
         checkHighScore fullBoard 50 = false ∧
         gameActive s' = false ∧ leaderboard s' = fullBoard) ∧
  (∃ s', endGame false (atTime 9000)
           (set_scoreText 250 (set_leaderboard fullBoard freshGame)) = (Normal tt, s') ∧
         checkHighScore fullBoard 250 = true ∧
         score <$> leaderboard s' = [500; 400; 300; 250; 200]%Z).
Proof.
  split.
  - destruct (endGame_board true (atTime 9000)
                (set_scoreText 50 (set_leaderboard fullBoard freshGame)))
      as (s' & Hrun & Ha & Hl); [apply fullBoard_OK|].
    exists s'. split; [exact Hrun|]. split; [by vm_compute|].
    split; [exact Ha|]. rewrite Hl. by vm_compute.
  - destruct (endGame_board false (atTime 9000)
                (set_scoreText 250 (set_leaderboard fullBoard freshGame)))
      as (s' & Hrun & Ha & Hl); [apply fullBoard_OK|].
    exists s'. split; [exact Hrun|]. split; [by vm_compute|].
    rewrite Hl. by vm_compute.
Defined.

Lemma stringify_leaderboard_nonempty l :
  ∃ rest, JSON.stringify (leaderboardToJSON l) = String "[" rest.
Proof. unfold leaderboardToJSON. simpl. eexists. reflexivity. Qed.

Lemma loadLeaderboard_stringify l :
  loadLeaderboard (Some (JSON.stringify (leaderboardToJSON l)))
  = Normal (leaderboardToJSON l).
Proof.
  destruct (stringify_leaderboard_nonempty l) as (rest & E).
  unfold loadLeaderboard.
  pose proof (parse_stringify_leaderboard l) as Hp.
  rewrite E in *. by rewrite Hp.
Qed.

Lemma loadBoard_stringify l :
  Forall safeEntry l →
  loadBoard (Some (JSON.stringify (leaderboardToJSON l))) = Some l.
Proof.
  intros Hl. unfold loadBoard. rewrite loadLeaderboard_stringify.
  by apply decodeBoard_leaderboardToJSON.
Qed.

(** X5. What [saveLeaderboard] writes, the next page load reads back: for
    a board whose scores and moves are safe integers, with any bytes in
    the time, difficulty and date strings, the stored text parses, the
    parsed array decodes (escapes undone, digits read) to the entries that
    were written, and the constructor run on that item completes with
    exactly this board. *)
Theorem saveLeaderboard_loads s random :
  Forall safeEntry (leaderboard s) →
  ∃ s' s0,
    saveLeaderboard s = (Normal tt, s') ∧
    leaderboard s' = leaderboard s ∧
    loadBoard (storage s') = Some (leaderboard s) ∧
    constructor (storage s') random = Some (Normal tt, s0) ∧
    leaderboard s0 = leaderboard s.
Proof.
  intros Hsafe.
  destruct (constructor_run
              (Some (JSON.stringify (leaderboardToJSON (leaderboard s)))) random
              (leaderboardToJSON (leaderboard s)) (leaderboard s))
    as (s0 & Hc & Hl & _).
  { apply loadLeaderboard_stringify. }
  { by apply decodeBoard_leaderboardToJSON. }
  exists (set_storage (Some (JSON.stringify (leaderboardToJSON (leaderboard s)))) s), s0.
  split; [reflexivity|]. split; [reflexivity|].
  split; [by apply loadBoard_stringify|]. by split.
Qed.

Lemma trickyBoard_safe : Forall safeEntry trickyBoard.
Proof.
  repeat constructor; unfold safeInteger; simpl; lia.
Qed.

Lemma saveLeaderboard_loads_witness :
  ∃ s' s0,
    saveLeaderboard (set_leaderboard trickyBoard freshGame) = (Normal tt, s') ∧
    loadBoard (storage s') = Some trickyBoard ∧
    constructor (storage s') noSwap = Some (Normal tt, s0) ∧
    leaderboard s0 = trickyBoard.
Proof.
  destruct (saveLeaderboard_loads (set_leaderboard trickyBoard freshGame) noSwap)
    as (s' & s0 & H1 & _ & H3 & H4 & H5); [apply trickyBoard_safe|].
  exists s', s0. split; [exact H1|]. split; [exact H3|]. split; [exact H4|exact H5].
Defined.


(** ** Sessions *)

(** X6. The constructor throws the [SyntaxError] of [JSON.parse] when the
    stored item is no JSON text. When the stored item is a leaderboard (an
    array of entry objects, or nothing stored), the constructor completes
    with that board, and no handler throws in the session that follows:
    through events the page offers (the selector only holds difficulties
    of the table) every event handler completes normally; every card
    reference held by [this.cards], [this.flippedCards] or a pending
    callback is an allocated card object, and the current difficulty is
    one of the table. *)
Theorem handlers_complete saved random :
  (∀ e, loadLeaderboard saved = Throw e →
        constructor saved random = Some (Throw e, emptyState [] saved)) ∧
  (∀ v loaded,
     loadLeaderboard saved = Normal v → decodeBoard v = Some loaded →
     ∃ s0,
       constructor saved random = Some (Normal tt, s0) ∧
       leaderboard s0 = loaded ∧
       ∀ t0 trace s e clock,
         offeredTrace trace → run t0 trace s0 = Some s → offered e →
         (handle e clock s).1 = Normal tt ∧
         allocated s ∧ is_Some (difficultyConfigs !! currentDifficulty s)).
Proof.
  split.
  - intros e He. unfold constructor. by rewrite He.
  - intros v loaded E1 E2.
    destruct (constructor_run saved random v loaded E1 E2)
      as (s0 & Hc & Hl & _ & _ & _ & Hd & Ha).
    exists s0. split; [done|]. split; [done|].
    intros t0 trace s e clock Htrace Hrun He.
    assert (allocated s ∧ knownDifficulty s) as [Hal Hk].
    { eapply (run_offered_invariant (λ s, allocated s ∧ knownDifficulty s));
        [|exact Htrace| |exact Hrun].
      - intros e' clock' s1 Ho [H1 H2]. split;
          [by apply handle_allocated | by apply handle_knownDifficulty].
      - split; [done|]. unfold knownDifficulty. rewrite Hd. by eexists. }
    split; [by apply handle_completes|]. done.
Qed.

Lemma handlers_complete_witness :
  constructor (Some "[1500,1000") noSwap
    = Some (Throw SyntaxError, emptyState [] (Some "[1500,1000")) ∧
  (handle (Click 1) (atTime 1100) oneUp).1 = Normal tt.
Proof.
  split.
  - apply (proj1 (handlers_complete (Some "[1500,1000") noSwap)). by vm_compute.
  - destruct (proj2 (handlers_complete None noSwap) (JSON.Array []) [])
      as (s0 & Hc & _ & Hall); [reflexivity|reflexivity|].
    rewrite constructor_freshGame in Hc. injection Hc as <-.
    refine (proj1 (Hall 0%Z [(Click 0, atTime 1000)] oneUp (Click 1)
                     (atTime 1100) _ _ _)).
    + constructor; [exact I|constructor].
    + exact oneUp_run.
    + exact I.
Defined.

(** X7. In every state a session reaches, [flippedCards] holds at most two
    cards, no card twice, each one a card of the current grid that is face
    up. *)
Theorem reachable_pair s :
  reachable s →
  length (flippedCards s) ≤ 2 ∧
  NoDup (flippedCards s) ∧
  ∀ card, card ∈ flippedCards s →
    card ∈ cards s ∧ ∃ c, heap s !! card = Some c ∧ isFlipped c = true.
Proof.
  intros Hr. split; [by apply reachable_flippedCards|].
  destruct Hr as (saved & random & s0 & t0 & trace & Hc & Hrun).
  assert (pairUnderEvaluation s) as [Hnd Hall].
  { eapply (run_any_invariant pairUnderEvaluation); [| |exact Hrun].
    - intros. by apply handle_pairUnderEvaluation.
    - destruct (constructor_state _ _ _ Hc) as (_ & _ & Hf & _).
      unfold pairUnderEvaluation. rewrite Hf.
      split; constructor. }
  split; [done|]. intros card Hin.
  rewrite Forall_forall in Hall. destruct (Hall card Hin) as [H1 H2].
  split; [done|]. destruct (heap s !! card) as [c|]; [|done].
  exists c. split; [done|]. simpl in H2. congruence.
Qed.

Lemma reachable_pair_witness :
  NoDup (flippedCards oneUp) ∧ 0 ∈ cards oneUp.
Proof.
  destruct (reachable_pair oneUp oneUp_reachable) as (_ & Hnd & Hall).
  split; [exact Hnd|]. apply (Hall 0).
  replace (flippedCards oneUp) with [0] by (by vm_compute). left.
Defined.

(** X8. A leaderboard in descending order with at most five entries, the
    loaded one or any other, stays so through every event of a session. *)
Theorem leaderboard_stays_sorted t0 trace s0 s :
  StronglySorted byScore (leaderboard s0) → length (leaderboard s0) ≤ 5 →
  run t0 trace s0 = Some s →
  StronglySorted byScore (leaderboard s) ∧ length (leaderboard s) ≤ 5.
Proof.
  intros Hs Hl Hrun.
  eapply (run_any_invariant (λ s, boardOK (leaderboard s))); [| |exact Hrun].
  - intros. by apply handle_boardOK.
  - by split.
Qed.

Lemma leaderboard_stays_sorted_witness :
  StronglySorted byScore
    (leaderboard (handle (Click 0) (atTime 1000)
                    (set_leaderboard sampleBoard freshGame)).2).
Proof.
  refine (proj1 (leaderboard_stays_sorted 0 [(Click 0, atTime 1000)]
                   (set_leaderboard sampleBoard freshGame) _ _ _ _)).
  - apply sampleBoard_OK.
  - apply sampleBoard_OK.
  - by vm_compute.
Defined.

(** X9. The stored item follows the board: in every state a session
    reaches, a page load would read from localStorage exactly the current
    leaderboard, entry by entry (scores and moves being safe integers).
    Either nothing was saved since the page was loaded, and item and board
    are the loaded ones, or the item is what [saveLeaderboard] wrote for
    the current board. *)
Theorem storage_mirrors_leaderboard saved random s0 t0 trace s :
  constructor saved random = Some (Normal tt, s0) →
  run t0 trace s0 = Some s →
  Forall safeEntry (leaderboard s) →
  loadBoard (storage s) = Some (leaderboard s) ∧
  ((leaderboard s = leaderboard s0 ∧ storage s = saved) ∨
   storage s = Some (JSON.stringify (leaderboardToJSON (leaderboard s)))).
Proof.
  intros Hc Hrun Hsafe.
  destruct (constructor_state _ _ _ Hc) as (Hload & Hst & _).
  assert (persisted s ∨ (leaderboard s = leaderboard s0 ∧ storage s = storage s0))
    as [Hp|[Hl Hs]].
  { eapply (run_any_invariant
      (λ s, persisted s ∨ (leaderboard s = leaderboard s0 ∧ storage s = storage s0)));
      [| |exact Hrun].
    - intros e clock s1 H1.
      destruct (handle_persisted e clock s1) as [[El Es]|Hp]; [|by left].
      destruct H1 as [H1|[H1 H2]]; [left|right].
      + unfold persisted in *. by rewrite El, Es.
      + by rewrite El, Es.
    - by right. }
  - unfold persisted in Hp. split; [|by right].
    rewrite Hp. by apply loadBoard_stringify.
  - split; [|left; split; congruence].
    rewrite Hl, Hs, Hst. exact Hload.
Qed.

Lemma finishedGame_safe : Forall safeEntry (leaderboard finishedGame).
Proof. apply (bool_decide_unpack _). by vm_compute. Qed.

Lemma storage_mirrors_leaderboard_witness :
  loadBoard (storage finishedGame) = Some (leaderboard finishedGame) ∧
  score <$> leaderboard finishedGame = [1040%Z] ∧
  storage finishedGame ≠ None.
Proof.
  split; [|split; [by vm_compute|by vm_compute]].
  apply (storage_mirrors_leaderboard None noSwap freshGame 0 wholeGame finishedGame).
  - apply constructor_freshGame.
  - apply finishedGame_run.
  - apply finishedGame_safe.
Defined.

Lemma handle_movesText e clock s :
  movesText s = moves s → movesText (handle e clock s).2 = moves (handle e clock s).2.
Proof.
  intros H.
  destruct e; repeat (progress unfold_engine).
  all: split_cases; simpl; done.
Qed.

(** X10. The moves element always shows [this.moves]. *)
Theorem moves_display_in_sync s :
  reachable s → movesText s = moves s.
Proof.
  intros (saved & random & s0 & t0 & trace & Hc & Hrun).
  eapply (run_any_invariant (λ s, movesText s = moves s)); [| |exact Hrun].
  - intros. by apply handle_movesText.
  - by destruct (constructor_state _ _ _ Hc) as (_ & _ & _ & Hm & _).
Qed.

Lemma moves_display_in_sync_witness : movesText oneUp = moves oneUp.
Proof. apply (moves_display_in_sync oneUp). apply oneUp_reachable. Defined.

Lemma sameCard_refl c : sameCard c c.
Proof. by repeat split. Qed.

Lemma cardsKept_refl h : cardsKept h h.
Proof. intros a c H. exists c. split; [done|apply sameCard_refl]. Qed.

Lemma cardsKept_trans h1 h2 h3 :
  cardsKept h1 h2 → cardsKept h2 h3 → cardsKept h1 h3.
Proof.
  intros H12 H23 a c H.
  destruct (H12 a c H) as (c2 & H2 & E1 & E2 & E3).
  destruct (H23 a c2 H2) as (c3 & H3 & F1 & F2 & F3).
  exists c3. split; [done|]. repeat split; try congruence. auto.
Qed.

Lemma cardsKept_app h new : cardsKept h (h ++ new).
Proof.
  intros a c H. exists c. split; [|apply sameCard_refl].
  by apply lookup_app_l_Some.
Qed.

Lemma cardsKept_alter (f : Card → Card) n h :
  (∀ c, sameCard c (f c)) → cardsKept h (alter f n h).
Proof.
  intros Hf a c H. destruct (decide (a = n)) as [->|Hne].
  - exists (f c). split; [|apply Hf]. rewrite list_lookup_alter_eq. by rewrite H.
  - exists c. split; [|apply sameCard_refl]. by rewrite list_lookup_alter_ne.
Qed.

Lemma sameCard_setFlipped b c : sameCard c (setFlipped b c).
Proof. by repeat split. Qed.

Lemma sameCard_setMatched c : sameCard c (setMatched true c).
Proof. by repeat split. Qed.

Lemma handle_cardsKept e clock s : cardsKept (heap s) (heap (handle e clock s).2).
Proof.
  destruct e; repeat (progress unfold_engine).
  all: split_cases; simpl;
    repeat first
      [ apply cardsKept_refl
      | apply cardsKept_app
      | eapply cardsKept_trans;
          [|apply cardsKept_alter; first [apply sameCard_setFlipped | apply sameCard_setMatched]] ].
Qed.

(** X11. A card object never changes its id or its symbol, and once
    matched it stays matched, whatever events follow; a new game allocates
    new objects and leaves the old ones alone. *)
Theorem cards_keep_identity t0 trace s s' card c :
  run t0 trace s = Some s' →
  heap s !! card = Some c →
  ∃ c', heap s' !! card = Some c' ∧
        id c' = id c ∧ symbol c' = symbol c ∧
        (isMatched c = true → isMatched c' = true).
Proof.
  intros Hrun Hc.
  assert (cardsKept (heap s) (heap s')) as Hk.
  { eapply (run_any_invariant (λ s1, cardsKept (heap s) (heap s1))); [| |exact Hrun].
    - intros e clock s1 H1. eapply cardsKept_trans; [exact H1|apply handle_cardsKept].
    - apply cardsKept_refl. }
  exact (Hk card c Hc).
Qed.


Lemma cards_keep_identity_witness :
  ∃ c', heap oneUp !! 0 = Some c' ∧
        id c' = id (newCard 0 (Some "🎯")) ∧
        symbol c' = symbol (newCard 0 (Some "🎯")) ∧
        (isMatched (newCard 0 (Some "🎯")) = true → isMatched c' = true).
Proof.
  apply (cards_keep_identity 0 [(Click 0, atTime 1000)] freshGame oneUp 0).
  - exact oneUp_run.
  - by vm_compute.
Defined.

(** ** The shuffle reaches every arrangement *)

Lemma fisherYates_ext {A} (random random' : nat → Random) i : ∀ k (a : list A),
  (∀ m, k ≤ m → random m = random' m) →
  fisherYates random k i a = fisherYates random' k i a.
Proof.
  induction i as [|i IH]; intros k a H; simpl; [done|].
  rewrite (H k) by lia. apply IH. intros m Hm. apply H. lia.
Qed.

Lemma swap_lookup_top {A} (a : list A) i j x :
  i < length a → a !! j = Some x → swap a i j !! i = Some x.
Proof.
  intros Hi Hj. unfold swap. rewrite Hj.
  destruct (lookup_lt_is_Some_2 a i Hi) as [ai Hai]. rewrite Hai.
  destruct (decide (i = j)) as [->|Hne].
  - rewrite list_lookup_insert_eq; [congruence|]. by rewrite length_insert.
  - rewrite list_lookup_insert_ne by done.
    by rewrite list_lookup_insert_eq.
Qed.

Lemma swap_drop {A} (a : list A) i j :
  j ≤ i → drop (S i) (swap a i j) = drop (S i) a.
Proof.
  intros Hj. unfold swap.
  destruct (a !! j); [|done]. destruct (a !! i); [|done].
  rewrite !drop_insert_lt by lia. done.
Qed.

Lemma swap_take {A} (a : list A) i j :
  j ≤ i → take (S i) (swap a i j) ≡ₚ take (S i) a.
Proof.
  intros Hj.
  apply (Permutation_app_inv_r (drop (S i) a)).
  rewrite <- (swap_drop a i j Hj) at 1.
  rewrite !take_drop. apply swap_Permutation.
Qed.

Lemma fisherYates_reach {A} i : ∀ (a target : list A) k,
  (N.of_nat (length a) ≤ 2 ^ 26)%N →
  i < length a →
  take (S i) a ≡ₚ take (S i) target →
  drop (S i) a = drop (S i) target →
  ∃ random, fisherYates random k i a = target.
Proof.
  induction i as [|i IH]; intros a target k Hsize Hi Htake Hdrop.
  - exists (λ _, drawOf 0 1). simpl.
    rewrite <- (take_drop 1 a), <- (take_drop 1 target), Hdrop. f_equal.
    destruct a as [|x a]; [simpl in Hi; lia|].
    destruct target as [|y target].
    { apply Permutation_length in Htake. done. }
    simpl in *. rewrite !take_0 in *.
    apply Permutation_singleton_l in Htake. done.
  - assert (length target > S i) as Hlt.
    { apply Permutation_length in Htake. rewrite !length_take in Htake. lia. }
    destruct (lookup_lt_is_Some_2 target (S i) Hlt) as [x Hx].
    assert (x ∈ take (S (S i)) a) as Hin.
    { rewrite Htake. apply list_elem_of_lookup. exists (S i).
      rewrite lookup_take_lt by lia. done. }
    apply list_elem_of_lookup in Hin as [j Hj].
    assert (j < S (S i)) as Hjlt.
    { apply lookup_lt_Some in Hj. rewrite length_take in Hj. lia. }
    rewrite lookup_take_lt in Hj by lia.
    pose proof (swap_lookup_top a (S i) j x Hi Hj) as Htop.
    destruct (IH (swap a (S i) j) target (S k)) as [random' Hr].
    + by rewrite swap_length.
    + rewrite swap_length. lia.
    + pose proof (swap_take a (S i) j ltac:(lia)) as Hp.
      rewrite Htake in Hp.
      rewrite (take_S_r _ _ _ Htop), (take_S_r _ _ _ Hx) in Hp.
      by apply Permutation_app_inv_r in Hp.
    + rewrite (drop_S _ _ _ Htop), (drop_S _ _ _ Hx).
      rewrite swap_drop by lia. by rewrite Hdrop.
    + exists (λ m, if decide (m = k) then drawOf j (S i + 1) else random' m).
      cbn [fisherYates]. rewrite decide_True by done.
      rewrite randomIndex_drawOf by lia.
      rewrite <- Hr. apply fisherYates_ext.
      intros m Hm. rewrite decide_False by lia. done.
Qed.

(** Every permutation is the result of the loop for some draws. *)
Lemma shuffle_reach {A} (a target : list A) :
  (N.of_nat (length a) ≤ 2 ^ 26)%N →
  a ≡ₚ target → ∃ random, shuffle random a = target.
Proof.
  intros Hsize Hp. unfold shuffle.
  destruct a as [|x a].
  - apply Permutation_nil_l in Hp. subst. by exists (λ _, drawOf 0 1).
  - pose proof (Permutation_length Hp) as Hlen.
    apply fisherYates_reach.
    + done.
    + simpl. lia.
    + rewrite !take_ge by (simpl in *; lia). done.
    + rewrite !drop_ge by (simpl in *; lia). done.
Qed.

(** X12. The shuffle excludes no arrangement: for every ordering of the
    pair list of a configuration there are values of [Math.random],
    binary64 numbers of [0, 1) whose draws are computed with the rounding
    of the binary64 product, for which [shuffleCards] deals exactly that
    ordering. *)
Theorem shuffle_reaches_every_order name config s (target : list Symbol) :
  difficultyConfigs !! name = Some config →
  currentDifficulty s = name →
  target ≡ₚ cardPairsOf config →
  ∃ random s',
    shuffleCards random s = (Normal tt, s') ∧
    shuffle random (cardPairsOf config) = target ∧
    symbol <$> deck s' = target.
Proof.
  intros Hcfg <- Hp.
  destruct (shuffle_reach (cardPairsOf config) target) as [random Hr]; [|done|].
  { rewrite length_cardPairsOf.
    destruct (lookup_config _ _ Hcfg) as [[_ ->]|[[_ ->]|[_ ->]]]; simpl; lia. }
  exists random. eexists. split; [by apply shuffleCards_run|].
  split; [done|]. unfold deck. simpl.
  rewrite <- (length_imap newCard (shuffle random (cardPairsOf config))).
  fold (makeCards (shuffle random (cardPairsOf config))).
  rewrite deck_fresh, symbol_makeCards. done.
Qed.


Lemma shuffle_reaches_every_order_witness :
  ∃ random s',
    shuffleCards random (emptyState [] None) = (Normal tt, s') ∧
    shuffle random (cardPairsOf medium) = reverse (cardPairsOf medium) ∧
    symbol <$> deck s' = reverse (cardPairsOf medium).
Proof.
  apply (shuffle_reaches_every_order "medium" medium (emptyState [] None)
           (reverse (cardPairsOf medium))).
  - exact lookup_medium.
  - reflexivity.
  - apply reverse_Permutation.
Defined.

(** ** Score, timer, countdown, new game *)

(** X13. The score [updateScore] shows is at least 100 per matched pair;
    it is at most that plus the time limit plus twice the pair count when
    the clock is not before the start; it never grows with time or with
    moves; a further matched pair adds exactly 100; and once the time limit
    has passed and the moves have reached twice the pair count it is
    exactly 100 per matched pair. *)
Theorem scoreFormula_bounds config matched moved start clock :
  (Z.of_nat matched * 100 ≤ scoreFormula config matched moved start clock)%Z ∧
  ((0 ≤ Config.timeLimit config)%Z → (toNumber start ≤ now clock)%Z →
   (scoreFormula config matched moved start clock
    ≤ Z.of_nat matched * 100 + Config.timeLimit config
      + Z.of_nat (Config.pairs config) * 2)%Z) ∧
  (∀ later, (now clock ≤ now later)%Z →
     (scoreFormula config matched moved start later
      ≤ scoreFormula config matched moved start clock)%Z) ∧
  (∀ more, moved ≤ more →
     (scoreFormula config matched more start clock
      ≤ scoreFormula config matched moved start clock)%Z) ∧
  scoreFormula config (S matched) moved start clock
    = (scoreFormula config matched moved start clock + 100)%Z ∧
  ((Config.timeLimit config * 1000 ≤ now clock - toNumber start)%Z →
   2 * Config.pairs config ≤ moved →
   scoreFormula config matched moved start clock = (Z.of_nat matched * 100)%Z).
Proof.
  rewrite !scoreFormula_integer.
  split; [lia|]. split.
  { intros HL He.
    assert ((Config.timeLimit config * 1000 - (now clock - toNumber start)) `div` 1000
            ≤ Config.timeLimit config)%Z.
    { apply Z.div_le_upper_bound; lia. }
    lia. }
  split.
  { intros later Hl. rewrite scoreFormula_integer.
    assert ((Config.timeLimit config * 1000 - (now later - toNumber start)) `div` 1000
            ≤ (Config.timeLimit config * 1000 - (now clock - toNumber start)) `div` 1000)%Z.
    { apply Z.div_le_mono; lia. }
    lia. }
  split.
  { intros more Hm. rewrite scoreFormula_integer. lia. }
  split; [lia|].
  intros Ht Hm.
  assert ((Config.timeLimit config * 1000 - (now clock - toNumber start)) `div` 1000 ≤ 0)%Z.
  { apply Z.div_le_upper_bound; lia. }
  lia.
Qed.

Lemma scoreFormula_bounds_witness :
  (scoreFormula easy 8 16 (Some 0%Z) (atTime 5000)
   ≤ Z.of_nat 8 * 100 + Config.timeLimit easy + Z.of_nat (Config.pairs easy) * 2)%Z.
Proof.
  refine (proj1 (proj2 (scoreFormula_bounds easy 8 16 (Some 0%Z) (atTime 5000))) _ _).
  - simpl. lia.
  - simpl. lia.
Defined.

(** X14. The displayed time does not count a pause: after [pauseGame] at
    [clock1] and [resumeGame] at [clock2] (with [clock1] not the timestamp
    0, which [resumeGame] takes for no pause), the start time is unchanged,
    the pause total has grown by the length of the pause, and a timer tick
    shows what a tick that much earlier would have shown without the
    pause. *)
Theorem timer_excludes_pause s clock1 clock2 clock3 config :
  gameActive s = true → gamePaused s = false → now clock1 ≠ 0%Z →
  difficultyConfigs !! currentDifficulty s = Some config →
  ∃ s1 s2,
    pauseGame clock1 s = (Normal tt, s1) ∧
    resumeGame clock2 s1 = (Normal tt, s2) ∧
    startTime s2 = startTime s ∧
    totalPauseTime s2 = (totalPauseTime s + (now clock2 - now clock1))%Z ∧
    timerText (timerTick clock3 s2).2
      = timerText (timerTick (earlier (now clock2 - now clock1) clock3) s).2.
Proof.
  intros Ha Hp Hne Hcfg.
  assert (∃ s1, pauseGame clock1 s = (Normal tt, s1) ∧
                gamePaused s1 = true ∧ pauseStartTime s1 = Some (now clock1) ∧
                startTime s1 = startTime s ∧ totalPauseTime s1 = totalPauseTime s ∧
                currentDifficulty s1 = currentDifficulty s) as (s1 & Hrun1 & P1 & P2 & P3 & P4 & P5).
  { unfold pauseGame. exec. rewrite Ha, Hp. simpl.
    match goal with |- context [stopTimer ?s0] =>
      destruct (stopTimer_fields s0) as (s' & Hs' & F) end.
    simpl in F. decompose [and] F. clear F.
    exists s'. split; [exact Hs'|]. repeat split; congruence. }
  assert (∃ s2, resumeGame clock2 s1 = (Normal tt, s2) ∧
                startTime s2 = startTime s1 ∧
                totalPauseTime s2 = (totalPauseTime s1 + (now clock2 - now clock1))%Z)
    as (s2 & Hrun2 & Q1 & Q2).
  { unfold resumeGame, startTimer, startTimeLimit, getConfig. exec.
    rewrite P1, P2. simpl. rewrite bool_decide_eq_false_2 by done. simpl.
    rewrite P5, Hcfg. simpl. eexists. split; [reflexivity|]. by split. }
  exists s1, s2. split; [done|]. split; [done|].
  split; [congruence|]. split; [congruence|].
  unfold timerTick, earlier. exec. rewrite Q1, Q2, P3, P4.
  replace (now clock3 - toNumber (startTime s)
           - (totalPauseTime s + (now clock2 - now clock1)))%Z
    with (now clock3 - (now clock2 - now clock1) - toNumber (startTime s)
          - totalPauseTime s)%Z by lia.
  done.
Qed.

Lemma timer_excludes_pause_witness :
  ∃ s1 s2,
    pauseGame (atTime 2000) oneUp = (Normal tt, s1) ∧
    resumeGame (atTime 7000) s1 = (Normal tt, s2) ∧
    startTime s2 = startTime oneUp ∧
    totalPauseTime s2 = (totalPauseTime oneUp + (now (atTime 7000) - now (atTime 2000)))%Z ∧
    timerText (timerTick (atTime 9000) s2).2
      = timerText (timerTick (earlier (now (atTime 7000) - now (atTime 2000))
                                (atTime 9000)) oneUp).2.
Proof.
  apply (timer_excludes_pause oneUp (atTime 2000) (atTime 7000) (atTime 9000) medium).
  - apply oneUp_fields.
  - apply oneUp_fields.
  - simpl. lia.
  - apply oneUp_fields.
Defined.

Lemma timeLimitTicks_run clocks : ∀ s n,
  timeLimit s = Some n → (Z.of_nat (length clocks) < n)%Z →
  timeLimitTicks clocks s
  = (Normal tt, set_timeLimit (Some (n - Z.of_nat (length clocks))%Z) s).
Proof.
  induction clocks as [|clock rest IH]; intros s n Hn Hlen.
  - simpl. unfold mret, M_ret. f_equal. rewrite Z.sub_0_r, <- Hn. by destruct s.
  - cbn [timeLimitTicks]. unfold mbind, M_bind at 1.
    unfold timeLimitTick. exec. rewrite Hn. simpl.
    simpl in Hlen.
    rewrite bool_decide_eq_false_2 by lia. simpl.
    rewrite (IH _ (n - 1)%Z); [|done|lia].
    replace (n - 1 - Z.of_nat (length rest))%Z
      with (n - Z.of_nat (S (length rest)))%Z by lia.
    reflexivity.
Qed.

(** X15. The countdown ends the game at the tick that brings it to 0 and
    not before: when [timeLimit] is n, the first n - 1 ticks change nothing
    but the counter, and the n-th tick leaves it at 0, the game inactive and
    both timers stopped, without the completion sound. *)
Theorem countdown_runs_out s clocks last :
  timeLimit s = Some (Z.of_nat (S (length clocks))) →
  ∃ s1 s2,
    timeLimitTicks clocks s = (Normal tt, s1) ∧
    s1 = set_timeLimit (Some 1%Z) s ∧
    timeLimitTick last s1 = (Normal tt, s2) ∧
    timeLimit s2 = Some 0%Z ∧
    gameActive s2 = false ∧
    timerInterval s2 = None ∧ timeLimitInterval s2 = None ∧
    sounds s2 = sounds s.
Proof.
  intros Hn.
  exists (set_timeLimit (Some 1%Z) s).
  rewrite (timeLimitTicks_run clocks s _ Hn) by lia.
  replace (Z.of_nat (S (length clocks)) - Z.of_nat (length clocks))%Z with 1%Z by lia.
  unfold timeLimitTick. exec.
  match goal with |- context [endGame true last ?s0] =>
    destruct (endGame_fields true last s0) as (s2 & Hs2 & F) end.
  simpl in F. decompose [and] F. clear F.
  exists s2. split; [done|]. split; [done|]. split; [exact Hs2|].
  rewrite app_nil_r in *. repeat split; try congruence.
  match goal with H : timeLimit s2 = _ |- _ => by rewrite H end.
Qed.

Lemma countdown_runs_out_witness :
  ∃ s1 s2,
    timeLimitTicks [atTime 2000; atTime 3000] (set_timeLimit (Some 3%Z) oneUp)
      = (Normal tt, s1) ∧
    s1 = set_timeLimit (Some 1%Z) (set_timeLimit (Some 3%Z) oneUp) ∧
    timeLimitTick (atTime 4000) s1 = (Normal tt, s2) ∧
    timeLimit s2 = Some 0%Z ∧
    gameActive s2 = false ∧
    timerInterval s2 = None ∧ timeLimitInterval s2 = None ∧
    sounds s2 = sounds (set_timeLimit (Some 3%Z) oneUp).
Proof.
  apply (countdown_runs_out (set_timeLimit (Some 3%Z) oneUp)
           [atTime 2000; atTime 3000] (atTime 4000)).
  reflexivity.
Defined.

Lemma deck_alter_stale (f : Card → Card) a (h : list Card) (cs : list nat) :
  a ∉ cs → omap (λ x, alter f a h !! x) cs = omap (λ x, h !! x) cs.
Proof.
  induction cs as [|x cs IH]; intros Hn; simpl; [done|].
  rewrite not_elem_of_cons in Hn. destruct Hn as [Hne Hn].
  rewrite list_lookup_alter_ne by done.
  destruct (h !! x); simpl; [f_equal|]; by apply IH.
Qed.

Lemma handle_timeout_stale k clock s :
  callbacksStale s → deck (handle (TimeoutFires k) clock s).2 = deck s.
Proof.
  intros Hst. unfold handle. exec.
  destruct (timeouts s !! k) as [t|] eqn:Ek; [|done].
  assert (t ∈ timeouts s) as Hin by (by eapply list_elem_of_lookup_2).
  pose proof (Hst t) as Ht.
  destruct t as [at0 d [c1 c2|c1 c2]]; simpl in *.
  all: assert (c1 ∉ cards s) as H1 by (apply Ht; [done|set_solver]).
  all: assert (c2 ∉ cards s) as H2 by (apply Ht; [done|set_solver]).
  all: repeat (progress unfold_engine); unfold deck.
  all: split_cases; simpl; rewrite !deck_alter_stale by done; done.
Qed.

Lemma newGame_run random s config :
  difficultyConfigs !! currentDifficulty s = Some config →
  ∃ s', newGame random s = (Normal tt, s') ∧
        cards s' = seq (length (heap s)) (length (shuffle random (cardPairsOf config))) ∧
        heap s' = heap s ++ makeCards (shuffle random (cardPairsOf config)) ∧
        moves s' = 0 ∧ matchedPairs s' = 0 ∧ flippedCards s' = [] ∧
        gameActive s' = false ∧ gamePaused s' = false ∧
        startTime s' = None ∧ timeLimit s' = None ∧
        timerInterval s' = None ∧ timeLimitInterval s' = None ∧
        currentDifficulty s' = currentDifficulty s ∧
        leaderboard s' = leaderboard s ∧ storage s' = storage s ∧
        timeouts s' = timeouts s.
Proof.
  intros Hcfg. unfold newGame, createCardGrid, hideModal.
  destruct (resetStats_fields s) as (s1 & Hs1 & F).
  decompose [and] F. clear F.
  unfold mbind, M_bind at 1. rewrite Hs1.
  unfold mbind, M_bind at 1.
  rewrite (shuffleCards_run random s1 config) by congruence.
  generalize (shuffle random (cardPairsOf config)). intros d.
  exec. eexists. split; [reflexivity|]. simpl.
  repeat split; congruence.
Qed.

Lemma deck_built (s' : State) (h : list Card) (d : list Symbol) :
  cards s' = seq (length h) (length d) → heap s' = h ++ makeCards d →
  deck s' = makeCards d.
Proof.
  intros Hc Hh. unfold deck. rewrite Hc, Hh.
  rewrite <- (length_imap newCard d). apply deck_fresh.
Qed.

(** X16. [newGame] does not cancel pending callbacks, and they cannot
    touch the new grid: every callback pending after [newGame] holds card
    objects of an earlier deck only, and when one fires, the cards of the
    new grid are as before. *)
Theorem newGame_leaves_callbacks_stale random s k clock :
  allocated s →
  is_Some (difficultyConfigs !! currentDifficulty s) →
  ∃ s',
    newGame random s = (Normal tt, s') ∧
    timeouts s' = timeouts s ∧
    (∀ t card, t ∈ timeouts s' → card ∈ callbackCards (callback t) →
       card ∉ cards s') ∧
    deck (handle (TimeoutFires k) clock s').2 = deck s'.
Proof.
  intros (_ & _ & Hal) [config Hcfg].
  destruct (newGame_run random s config Hcfg)
    as (s' & Hrun & Hc & Hh & _ & _ & _ & _ & _ & _ & _ & _ & _ & _ & _ & _ & Ht).
  assert (callbacksStale s') as Hst.
  { intros t a Hin Ha Hcards. rewrite Ht in Hin. rewrite Hc in Hcards.
    apply elem_of_seq in Hcards.
    rewrite Forall_forall in Hal. specialize (Hal t Hin).
    rewrite Forall_forall in Hal. specialize (Hal a Ha). lia. }
  exists s'. split; [done|]. split; [done|]. split; [exact Hst|].
  by apply handle_timeout_stale.
Qed.

Lemma newGame_leaves_callbacks_stale_witness :
  ∃ s',
    newGame noSwap twoUp = (Normal tt, s') ∧
    timeouts s' = timeouts twoUp ∧
    (∀ t card, t ∈ timeouts s' → card ∈ callbackCards (callback t) →
       card ∉ cards s') ∧
    deck (handle (TimeoutFires 0) (atTime 1700) s').2 = deck s'.
Proof.
  apply (newGame_leaves_callbacks_stale noSwap twoUp 0 (atTime 1700)).
  - apply twoUp_allocated.
  - exists medium. by vm_compute.
Defined.

(** X17. [changeDifficulty] with a name of the table completes: the
    difficulty is the new one; the grid has twice the pairs of the new
    configuration, dealt by the shuffle from its pair list, every card face
    down and unmatched with its position as id; counters and timing fields
    are reset and both timers stopped; the leaderboard and the pending
    callbacks are as before. [newGame] leaves the same session as a change
    to the current difficulty. *)
Theorem changeDifficulty_builds_deck name config random s :
  difficultyConfigs !! name = Some config →
  ∃ s',
    changeDifficulty name random s = (Normal tt, s') ∧
    currentDifficulty s' = name ∧
    symbol <$> deck s' = shuffle random (cardPairsOf config) ∧
    length (deck s') = 2 * Config.pairs config ∧
    (∀ i c, deck s' !! i = Some c →
       id c = i ∧ isFlipped c = false ∧ isMatched c = false) ∧
    moves s' = 0 ∧ matchedPairs s' = 0 ∧ flippedCards s' = [] ∧
    gameActive s' = false ∧ gamePaused s' = false ∧
    timeLimit s' = None ∧ timerInterval s' = None ∧ timeLimitInterval s' = None ∧
    leaderboard s' = leaderboard s ∧ timeouts s' = timeouts s ∧
    (currentDifficulty s = name →
     newGame random s = (Normal tt, s')).
Proof.
  intros Hcfg.
  destruct (newGame_run random (set_currentDifficulty name s) config Hcfg)
    as (s' & Hrun & Hc & Hh & F).
  simpl in Hc, Hh, F. decompose [and] F. clear F.
  pose proof (deck_built s' _ _ Hc Hh) as Hdeck.
  exists s'. split.
  { unfold changeDifficulty. unfold mbind, M_bind at 1. unfold modify at 1.
    revert Hrun. unfold newGame, hideModal, createCardGrid. exec.
    destruct (resetStats (set_currentDifficulty name s)) as [[[]|] s1]; [|done].
    destruct (shuffleCards random s1) as [[[]|] s2]; done. }
  rewrite Hdeck, symbol_makeCards.
  split; [done|]. split; [done|]. split.
  { unfold makeCards. rewrite length_imap, shuffle_Permutation.
    apply length_cardPairsOf. }
  split; [intros i c Hi; by eapply makeCards_lookup|].
  repeat (split; [done|]).
  intros Hname.
  replace (set_currentDifficulty name s) with s in Hrun; [done|].
  rewrite <- Hname. by destruct s.
Qed.


Lemma changeDifficulty_builds_deck_witness :
  ∃ s', changeDifficulty "hard" noSwap twoUp = (Normal tt, s') ∧
        currentDifficulty s' = "hard" ∧
        length (deck s') = 2 * Config.pairs hard ∧
        timeouts s' = timeouts twoUp.
Proof.
  destruct (changeDifficulty_builds_deck "hard" hard noSwap twoUp lookup_hard)
    as (s' & H1 & H2 & _ & H4 & _ & _ & _ & _ & _ & _ & _ & _ & _ & _ & H15 & _).
  exists s'. split; [exact H1|]. split; [exact H2|]. split; [exact H4|exact H15].
Defined.

(** ** Accepted flips *)

Lemma flipCard_first s clock card c :
  gameActive s = true → gamePaused s = false → flippedCards s = [] →
  heap s !! card = Some c → isFlipped c = false → isMatched c = false →
  flipCard card clock s =
    (Normal tt,
     set_flippedCards [card]
       (set_heap (alter (setFlipped true) card (heap s))
          (set_sounds (sounds s ++ ["flip"]) s))).
Proof.
  intros Ha Hp Hf H1 F1 M1.
  unfold flipCard, readCard. exec. rewrite Ha. simpl. rewrite Hp, H1. simpl.
  rewrite F1, M1, Hf. simpl. rewrite Hf. reflexivity.
Qed.

Lemma flipCard_second s clock card1 card2 c1 c2 :
  gameActive s = true → gamePaused s = false → flippedCards s = [card1] →
  card1 ≠ card2 →
  heap s !! card1 = Some c1 → heap s !! card2 = Some c2 →
  isFlipped c2 = false → isMatched c2 = false →
  flipCard card2 clock s =
    (Normal tt,
     let s' := set_movesText (S (moves s)) (set_moves (S (moves s))
                 (set_flippedCards [card1; card2]
                    (set_heap (alter (setFlipped true) card2 (heap s))
                       (set_sounds (sounds s ++ ["flip"]) s)))) in
     if decide (symbol c1 = symbol c2)
     then set_timeouts (timeouts s ++
            [{| setAt := now clock; delay := 500;
                callback := MatchReveal card1 card2 |}])
            (set_sounds (sounds s' ++ ["match"]) s')
     else set_timeouts (timeouts s ++
            [{| setAt := now clock; delay := flipBackDelay (currentDifficulty s);
                callback := FlipBack card1 card2 |}]) s').
Proof.
  intros Ha Hp Hf Hne H1 H2 F2 M2.
  assert (alter (setFlipped true) card2 (heap s) !! card1 = Some c1) as G3.
  { by rewrite list_lookup_alter_ne. }
  assert (alter (setFlipped true) card2 (heap s) !! card2 = Some (setFlipped true c2)) as G4.
  { by rewrite list_lookup_alter_eq, H2. }
  unfold flipCard, checkForMatch, updateMovesDisplay, readCard, setTimeout,
    playSound, writeCard. exec.
  rewrite Ha. simpl. rewrite Hp, H2. simpl. rewrite F2, M2, Hf. simpl.
  rewrite Hf. simpl. rewrite G3. simpl. rewrite G4. simpl.
  destruct (decide (symbol c1 = symbol c2)); reflexivity.
Qed.

(** X18. A move is a pair of accepted flips: in a running, unpaused game
    with no card up, flipping two different face-down unmatched cards turns
    both up, lists them in flip order, plays the flip sound twice, counts
    one move (shown in the moves element) and schedules exactly one
    callback: the reveal after 500 ms, with the match sound, when the symbols
    agree, the flip back after the delay of the difficulty otherwise. The
    first flip alone counts no move and schedules nothing. *)
Theorem flipCard_pair s clock1 clock2 card1 card2 c1 c2 :
  gameActive s = true → gamePaused s = false → flippedCards s = [] →
  card1 ≠ card2 →
  heap s !! card1 = Some c1 → heap s !! card2 = Some c2 →
  isFlipped c1 = false → isMatched c1 = false →
  isFlipped c2 = false → isMatched c2 = false →
  ∃ s1 s2,
    flipCard card1 clock1 s = (Normal tt, s1) ∧
    s1 = set_flippedCards [card1]
           (set_heap (alter (setFlipped true) card1 (heap s))
              (set_sounds (sounds s ++ ["flip"]) s)) ∧
    flipCard card2 clock2 s1 = (Normal tt, s2) ∧
    flippedCards s2 = [card1; card2] ∧
    heap s2 = alter (setFlipped true) card2 (alter (setFlipped true) card1 (heap s)) ∧
    moves s2 = S (moves s) ∧ movesText s2 = S (moves s) ∧
    matchedPairs s2 = matchedPairs s ∧
    timeouts s2 = timeouts s ++
      [if decide (symbol c1 = symbol c2)
       then {| setAt := now clock2; delay := 500;
               callback := MatchReveal card1 card2 |}
       else {| setAt := now clock2; delay := flipBackDelay (currentDifficulty s);
               callback := FlipBack card1 card2 |}] ∧
    sounds s2 = sounds s ++ ["flip"; "flip"] ++
      (if decide (symbol c1 = symbol c2) then ["match"] else []).
Proof.
  intros Ha Hp Hf Hne H1 H2 F1 M1 F2 M2.
  pose proof (flipCard_first s clock1 card1 c1 Ha Hp Hf H1 F1 M1) as R1.
  eexists. eexists. split; [exact R1|]. split; [reflexivity|].
  split.
  { apply (flipCard_second _ clock2 card1 card2 (setFlipped true c1) c2);
      simpl; try done.
    - by rewrite list_lookup_alter_eq, H1.
    - by rewrite list_lookup_alter_ne. }
  simpl. destruct (decide (symbol c1 = symbol c2)); simpl;
    rewrite <- ?app_assoc, ?app_nil_r; repeat split; done.
Qed.


Lemma flipCard_pair_witness :
  ∃ s1 s2,
    flipCard 0 (atTime 1000) (set_gameActive true freshGame) = (Normal tt, s1) ∧
    flipCard 1 (atTime 1100) s1 = (Normal tt, s2) ∧
    flippedCards s2 = [0; 1] ∧
    moves s2 = S (moves (set_gameActive true freshGame)).
Proof.
  destruct (flipCard_pair (set_gameActive true freshGame) (atTime 1000) (atTime 1100)
              0 1 (newCard 0 (Some "🎯")) (newCard 1 (Some "🎯")))
    as (s1 & s2 & H1 & _ & H3 & H4 & _ & H6 & _);
    [by vm_compute|by vm_compute|by vm_compute|lia|by vm_compute..|].
  exists s1, s2. split; [exact H1|]. split; [exact H3|]. split; [exact H4|exact H6].
Defined.


(** ** The timer text *)

Lemma pad2_below_100 :
  forallb (λ k, bool_decide (pad2 (Z.of_nat k) = twoDigits (Z.of_nat k)))
          (seq 0 100) = true.
Proof. by vm_compute. Qed.

(** Below 100, [padStart(2, '0')] of the decimal text gives the two digits. *)
Lemma pad2_twoDigits n : (0 ≤ n < 100)%Z → pad2 n = twoDigits n.
Proof.
  intros Hn.
  pose proof pad2_below_100 as H.
  rewrite forallb_forall in H.
  specialize (H (Z.to_nat n)).
  rewrite Z2Nat.id in H by lia.
  eapply bool_decide_eq_true_1, H. apply in_seq. lia.
Qed.

(** X19. Below 100 minutes the timer text is the two decimal digits of the
    minutes, a colon and the two decimal digits of the seconds, with
    seconds below 60, for the time since the start less the pause total
    (whole seconds, the rest dropped). *)
Theorem timerTick_shows_minutes_seconds s clock :
  let elapsed := (now clock - toNumber (startTime s) - totalPauseTime s)%Z in
  (0 ≤ elapsed < 6000000)%Z →
  ∃ minutes seconds,
    timerTick clock s =
      (Normal tt,
       set_timerText (twoDigits minutes +:+ ":" +:+ twoDigits seconds) s) ∧
    (elapsed = minutes * 60000 + seconds * 1000 + elapsed `mod` 1000)%Z ∧
    (0 ≤ minutes < 100)%Z ∧ (0 ≤ seconds < 60)%Z.
Proof.
  intros elapsed He.
  exists (elapsed `div` 60000)%Z, ((elapsed `mod` 60000) `div` 1000)%Z.
  assert (0 ≤ elapsed `div` 60000 < 100)%Z as Hm.
  { split; [apply Z.div_pos; lia|]. apply Z.div_lt_upper_bound; lia. }
  pose proof (Z.mod_pos_bound elapsed 60000 ltac:(lia)) as Hr.
  assert (0 ≤ (elapsed `mod` 60000) `div` 1000 < 60)%Z as Hs.
  { split; [apply Z.div_pos; lia|]. apply Z.div_lt_upper_bound; lia. }
  split.
  { unfold timerTick. exec. fold elapsed.
    rewrite Z.rem_mod_nonneg by lia.
    rewrite !pad2_twoDigits by lia. reflexivity. }
  split.
  { pose proof (Z.div_mod elapsed 60000 ltac:(lia)) as E1.
    pose proof (Z.div_mod (elapsed `mod` 60000) 1000 ltac:(lia)) as E2.
    assert ((elapsed `mod` 60000) `mod` 1000 = elapsed `mod` 1000)%Z as E3.
    { apply Z.mod_mod_divide. exists 60%Z. lia. }
    lia. }
  split; [exact Hm|exact Hs].
Qed.

Lemma timerTick_shows_minutes_seconds_witness :
  timerText (timerTick (atTime 126000) oneUp).2 = "02:05".
Proof.
  destruct (timerTick_shows_minutes_seconds oneUp (atTime 126000))
    as (m & sec & H1 & H2 & H3 & H4).
  - by vm_compute.
  - rewrite H1.
    assert (now (atTime 126000) - toNumber (startTime oneUp) - totalPauseTime oneUp
            = 125000)%Z as E by (by vm_compute).
    rewrite E in H2. change (125000 `mod` 1000)%Z with 0%Z in H2.
    assert (m = 2 ∧ sec = 5)%Z as [-> ->] by lia.
    reflexivity.
Defined.

